(** * memvid-ts: a shallow embedding of the chunker, the index store, the
      encoder, the retriever and the chat session, with the properties of
      the specification settled against it.

    Conventions of the embedding.

    - A JavaScript string is the list of its UTF-16 code units
      ([jsstring := list N]); [js "..."] injects a literal.
    - Numbers that the code uses as counters, indices, lengths and frame
      numbers are [nat]; sizes that the code compares with [<= 0] are [Z].
      A double represents every integer below 2^53 exactly and these
      values are only ever produced by [++], [length] and [Array.from], so
      no rounding is involved.
    - [undefined]/[null] results are [None].
    - A call that can throw returns an [outcome]; the state it has mutated
      before throwing is kept.
    - Third-party libraries and built-ins (the embedding model, the HNSW
      graph, pako, btoa/atob, JSON.parse, the QR and video codecs) are
      interfaces (type classes); nothing is assumed about them except where
      a theorem states it as a hypothesis.
    - The files that [save] writes and [load] reads are kept as the JSON
      values they hold. Logging, timing statistics, the temporary frame
      files and the assembly of the ffmpeg argument list have no effect on
      what is modelled and are left out. *)

From Stdlib Require Import List ZArith NArith Lia String Ascii Bool Sorted.
From Stdlib Require Import DecimalString.
From Stdlib.Strings Require Import Byte.
From stdpp Require Import gmap sorting.
Import ListNotations.

Set Default Proof Using "Type".
Local Open Scope nat_scope.

(* ===================================================================== *)
(** * JavaScript strings                                                   *)
(* ===================================================================== *)

Abbreviation jsstring := (list N).

Definition js (s : string) : jsstring :=
  map N_of_ascii (list_ascii_of_string s).

(** The double quote. *)
Definition dquote : jsstring := [34%N].

(** [Number.prototype.toString] on a non-negative integer. *)
Definition numberToString (n : nat) : jsstring :=
  js (NilZero.string_of_uint (Nat.to_uint n)).

(** ECMAScript WhiteSpace and LineTerminator code units: what
    [String.prototype.trim] strips and what [\s] matches. *)
Definition isWhiteSpace (c : N) : bool :=
  ((9 <=? c) && (c <=? 13) || (c =? 32) || (c =? 160) || (c =? 5760)
   || (8192 <=? c) && (c <=? 8202) || (c =? 8232) || (c =? 8233)
   || (c =? 8239) || (c =? 8287) || (c =? 12288) || (c =? 65279))%N.

Fixpoint trimStart (s : jsstring) : jsstring :=
  match s with
  | c :: rest => if isWhiteSpace c then trimStart rest else s
  | [] => []
  end.

Definition trimEnd (s : jsstring) : jsstring := rev (trimStart (rev s)).

Definition trim (s : jsstring) : jsstring := trimEnd (trimStart s).

Fixpoint startsWith (s prefix : jsstring) {struct prefix} : bool :=
  match prefix, s with
  | [], _ => true
  | p :: prefix', c :: s' => (c =? p)%N && startsWith s' prefix'
  | _ :: _, [] => false
  end.

(** [s.slice(a, b)] for [0 <= a] and [0 <= b]. *)
Definition slice (s : jsstring) (a b : nat) : jsstring :=
  firstn (b - a) (skipn a s).

(** [a || b] on an optional string: the empty string is falsy too. *)
Definition orString (a : option jsstring) (b : jsstring) : jsstring :=
  match a with
  | Some (c :: s) => c :: s
  | _ => b
  end.

(** The characters of [s] that are not white space, in order. *)
Definition nonWhiteSpace (s : jsstring) : jsstring :=
  List.filter (fun c => negb (isWhiteSpace c)) s.

(* ===================================================================== *)
(** * utils.ts: text chunking                                              *)
(* ===================================================================== *)

Module Utils.

(** ** simpleChunkText

    [overlap = size / 2] is a half-integer for odd [size], so the loop
    index is kept doubled ([i2 = 2 * i]); [slice] truncates its arguments. *)

Fixpoint simpleChunkLoop (fuel : nat) (text : jsstring) (size2 step2 i2 : Z)
    (chunks : list jsstring) : list jsstring :=
  match fuel with
  | O => chunks
  | S fuel' =>
      let len2 := (2 * Z.of_nat (length text))%Z in
      if (i2 <? len2)%Z then
        let end2 := Z.min (i2 + size2) len2 in
        let chunks' :=
          chunks ++ [slice text (Z.to_nat (i2 / 2)) (Z.to_nat (end2 / 2))] in
        let i2' := (i2 + step2)%Z in
        let i2'' := if (end2 <=? i2')%Z && (end2 <? len2)%Z then end2 else i2' in
        simpleChunkLoop fuel' text size2 step2 i2'' chunks'
      else chunks
  end.

(** The fuel [2 * length text] is never exhausted (lemma
    [simpleChunkLoop_enough_fuel] below). *)
Definition simpleChunkText (text : jsstring) (size overlap : Z) : list jsstring :=
  match text with
  | [] => []
  | _ =>
      if (size <=? 0)%Z then []
      else
        let overlap2 := if (size <=? overlap)%Z then size else (2 * overlap)%Z in
        let chunks :=
          simpleChunkLoop (2 * length text) text (2 * size) (2 * size - overlap2) 0 [] in
        List.filter (fun chunk => 0 <? length chunk) chunks
  end.

(** ** The sentence splitter

    [sentenceEndings = /(?<=[.?!])\s+|\n\n+|\r\n\r\n+/].
    [matchAt prev s] is the length of the match that starts at the head
    of [s] when the code unit before it is [prev], or [None]. *)

Definition isSentencePunct (c : N) : bool :=
  ((c =? 46) || (c =? 63) || (c =? 33))%N.

Fixpoint countWhile (p : N -> bool) (s : jsstring) : nat :=
  match s with
  | c :: rest => if p c then S (countWhile p rest) else 0
  | [] => 0
  end.

Definition isLF (c : N) : bool := (c =? 10)%N.

Definition matchAt (prev : option N) (s : jsstring) : option nat :=
  let afterPunct := match prev with Some p => isSentencePunct p | None => false end in
  if afterPunct && (0 <? countWhile isWhiteSpace s) then
    Some (countWhile isWhiteSpace s)
  else if 2 <=? countWhile isLF s then
    Some (countWhile isLF s)
  else
    match s with
    | c1 :: c2 :: c3 :: rest =>
        if (c1 =? 13)%N && (c2 =? 10)%N && (c3 =? 13)%N
           && (1 <=? countWhile isLF rest)
        then Some (3 + countWhile isLF rest) else None
    | _ => None
    end.

(** [String.prototype.split] with a regular expression without capture
    groups that never matches the empty string: scan for the leftmost
    match, emit the piece before it, continue after it; [skip] counts the
    code units of the current match still to be passed over. *)
Fixpoint splitLoop (prev : option N) (skip : nat) (cur : jsstring)
    (s : jsstring) : list jsstring :=
  match s with
  | [] => [cur]
  | c :: rest =>
      match skip with
      | S k => splitLoop (Some c) k cur rest
      | O =>
          match matchAt prev s with
          | Some (S k) => cur :: splitLoop (Some c) k [] rest
          | _ => splitLoop (Some c) 0 (cur ++ [c]) rest
          end
      end
  end.

Definition splitSentences (text : jsstring) : list jsstring :=
  splitLoop None 0 [] text.

(** ** chunkText *)

Definition strLen (s : jsstring) : Z := Z.of_nat (length s).

Definition chunkStep (chunkSize overlap : Z)
    (st : list jsstring * jsstring) (raw : jsstring) : list jsstring * jsstring :=
  let '(chunks, currentChunk) := st in
  let sentence := trim raw in
  if (strLen sentence =? 0)%Z then st
  else if (chunkSize <? strLen sentence)%Z then
    let chunks1 :=
      if (0 <? strLen (trim currentChunk))%Z
      then chunks ++ [trim currentChunk] else chunks in
    let subChunks := simpleChunkText sentence chunkSize overlap in
    (chunks1 ++ List.filter (fun sc => 0 <? length sc) subChunks, [])
  else
    let potentialNextLength :=
      (strLen currentChunk + (if (0 <? strLen currentChunk)%Z then 1 else 0)
       + strLen sentence)%Z in
    if (chunkSize <? potentialNextLength)%Z && (0 <? strLen currentChunk)%Z then
      (chunks ++ [trim currentChunk], sentence)
    else
      let withSpace :=
        if (0 <? strLen currentChunk)%Z then currentChunk ++ js " " else currentChunk in
      (chunks, withSpace ++ sentence).

Definition chunkText (text : jsstring) (chunkSize overlap : Z) : list jsstring :=
  match text with
  | [] => []
  | _ =>
      if length (trim text) =? 0 then []
      else if (chunkSize <=? 0)%Z then []
      else
        let overlap := if (overlap <? 0)%Z then 0%Z else overlap in
        let overlap := if (chunkSize <=? overlap)%Z then (chunkSize / 2)%Z else overlap in
        let sentences :=
          List.filter (fun s => (0 <? length s) && (0 <? length (trim s)))
                      (splitSentences text) in
        match sentences with
        | [] => simpleChunkText text chunkSize overlap
        | _ =>
            let '(chunks, currentChunk) :=
              fold_left (chunkStep chunkSize overlap) sentences ([], []) in
            let chunks :=
              if 0 <? length (trim currentChunk)
              then chunks ++ [trim currentChunk] else chunks in
            List.filter (fun chunk => 0 <? length chunk) chunks
        end
  end.

(** ** QR payloads: generateQrBuffer and processQrText *)

(** pako: [gzip] of a string and [ungzip] to a string; [None] when the
    call throws. *)
Class Pako := {
  gzip : jsstring -> option (list byte);
  ungzip : list byte -> option jsstring;
}.

(** The built-ins [btoa] and [atob]; [None] when the call throws. *)
Class Base64 := {
  btoa : jsstring -> option jsstring;
  atob : jsstring -> option jsstring;
}.

Record QrConfig := {
  version : option nat;
  errorCorrectionLevel : option jsstring;
  boxSize : option nat;
  border : option nat;
  fillColor : option jsstring;
  backColor : option jsstring;
}.

Record QRCodeToBufferOptions := {
  opt_type : jsstring;
  opt_version : option nat;
  opt_errorCorrectionLevel : jsstring;
  opt_margin : option nat;
  opt_scale : option nat;
  opt_dark : jsstring;
  opt_light : jsstring;
}.

(** [qrcode.toBuffer]; [None] when it throws. *)
Class QrCode := {
  toBuffer : jsstring -> QRCodeToBufferOptions -> option (list byte);
}.

(** The string whose code units are the bytes ([String.fromCharCode] in a
    loop) and back ([Uint8Array.from(str, c => c.charCodeAt(0))]). *)
Definition binaryString (bytes : list byte) : jsstring := map Byte.to_N bytes.

Definition toUint8 (c : N) : byte :=
  match Byte.of_N (c mod 256) with Some b => b | None => x00 end.

Section QrPayload.
Context {pako : Pako} {base64 : Base64} {qrcode : QrCode}.

(** The first half of [generateQrBuffer]: what is handed to the QR
    renderer for [data]. *)
Definition compressPayload (data : jsstring) : jsstring :=
  if 100 <? length data then
    match gzip data with
    | Some compressed =>
        match btoa (binaryString compressed) with
        | Some base64 => js "GZ:" ++ base64
        | None => data
        end
    | None => data
    end
  else data.

Definition qrOptions (qrConfig : QrConfig) : QRCodeToBufferOptions :=
  {| opt_type := js "png";
     opt_version := version qrConfig;
     opt_errorCorrectionLevel := orString (errorCorrectionLevel qrConfig) (js "M");
     opt_margin := border qrConfig;
     opt_scale := boxSize qrConfig;
     opt_dark := orString (fillColor qrConfig) (js "#000000");
     opt_light := orString (backColor qrConfig) (js "#FFFFFF") |}.

Definition generateQrBuffer (data : jsstring) (qrConfig : QrConfig)
    : option (list byte) :=
  toBuffer (compressPayload data) (qrOptions qrConfig).

Definition processQrText (qrText : jsstring) : jsstring :=
  if startsWith qrText (js "GZ:") then
    match atob (skipn 3 qrText) with
    | Some binary =>
        match ungzip (map toUint8 binary) with
        | Some decompressed => decompressed
        | None => qrText
        end
    | None => qrText
    end
  else qrText.

End QrPayload.

End Utils.

(* ===================================================================== *)
(** * Boundaries shared by the components                                  *)
(* ===================================================================== *)

(** The result of a call that can throw. *)
Inductive outcome (A : Type) : Type :=
| Returned (a : A)
| Thrown (msg : string).
Arguments Returned {A} a.
Arguments Thrown {A} msg.

(** [interface EmbeddingModel]: [embed(texts)]; [None] when the promise
    rejects. [number] stands for JavaScript numbers. *)
Class EmbeddingModel (number : Type) := {
  embed : list jsstring -> option (list (list number));
}.

(** The [hnsw] package as the index manager uses it. [addPoint] returns
    the graph it leaves behind and whether it completed ([false] when it
    throws); [searchKNN] returns [(id, score)] pairs, [None] when it
    throws; [fromJSON] is [None] when it throws. *)
Class HNSW (number : Type) := {
  Graph : Type;
  GraphJson : Type;
  newHNSW : nat -> nat -> nat -> jsstring -> Graph;
  addPoint : Graph -> nat -> list number -> Graph * bool;
  searchKNN : Graph -> list number -> nat -> option (list (nat * number));
  toJSON : Graph -> GraphJson;
  fromJSON : GraphJson -> option Graph;
}.

(** A JavaScript [Map]: entries in insertion order, one per key. *)
Section JsMap.
Context {V : Type}.

Fixpoint mapGet (k : nat) (m : list (nat * V)) : option V :=
  match m with
  | [] => None
  | (k', v) :: rest => if k' =? k then Some v else mapGet k rest
  end.

(** [m.set(k, v)]: replace in place, or append. *)
Fixpoint mapSet (k : nat) (v : V) (m : list (nat * V)) : list (nat * V) :=
  match m with
  | [] => [(k, v)]
  | (k', v') :: rest =>
      if k' =? k then (k, v) :: rest else (k', v') :: mapSet k v rest
  end.

(** [new Map(entries)]. *)
Definition mapOfEntries (entries : list (nat * V)) : list (nat * V) :=
  fold_left (fun m kv => mapSet (fst kv) (snd kv) m) entries [].

End JsMap.

(* ===================================================================== *)
(** * indexManager.ts                                                      *)
(* ===================================================================== *)

Module IndexManager.

Record ChunkMetadata := {
  meta_id : nat;
  meta_frame : option nat;   (* [frames[i]], [undefined] out of range *)
  meta_length : nat;
}.

Record IndexConfig := {
  embeddingDimension : nat;         (* config.embedding.dimension *)
  indexPath : option jsstring;      (* config.index.path *)
  indexM : option nat;
  indexEfConstruction : option nat;
  indexMetric : option jsstring;
}.

Section Manager.
Context {number : Type} {model : EmbeddingModel number} {hnsw : HNSW number}.

Record SearchResult := {
  chunk_id : nat;
  metadata_of : ChunkMetadata;
  distance : number;
}.

(** The two artifacts [save] writes, as the JSON values they hold. *)
Inductive FileContent :=
| MetaFile (nextChunkId : nat) (entries : list (nat * ChunkMetadata))
| HnswFile (indexJson : GraphJson).

(** What lies outside the objects: the files, and a record of the calls
    made to the embedding model. *)
Record World := {
  files : gmap (list N) FileContent;
  embedCalls : list (list jsstring);
}.

Record HNSWIndexManager := {
  config : IndexConfig;
  dimension : nat;
  index : option Graph;
  metadata : list (nat * ChunkMetadata);
  nextChunkId : nat;
}.

Definition newManager (cfg : IndexConfig) : HNSWIndexManager :=
  {| config := cfg; dimension := embeddingDimension cfg; index := None;
     metadata := []; nextChunkId := 0 |}.

Definition withIndex (m : HNSWIndexManager) (g : option Graph) :=
  {| config := config m; dimension := dimension m; index := g;
     metadata := metadata m; nextChunkId := nextChunkId m |}.

Definition withMetadata (m : HNSWIndexManager) (md : list (nat * ChunkMetadata)) :=
  {| config := config m; dimension := dimension m; index := index m;
     metadata := md; nextChunkId := nextChunkId m |}.

Definition withNextChunkId (m : HNSWIndexManager) (n : nat) :=
  {| config := config m; dimension := dimension m; index := index m;
     metadata := metadata m; nextChunkId := n |}.

(** [x || d] on an optional number: 0 is falsy too. *)
Definition orNat (x : option nat) (d : nat) : nat :=
  match x with Some (S n) => S n | _ => d end.

Definition initIndex (m : HNSWIndexManager) : HNSWIndexManager :=
  match index m with
  | Some _ => m
  | None =>
      withIndex m
        (Some (newHNSW (orNat (indexM (config m)) 16)
                       (orNat (indexEfConstruction (config m)) 200)
                       (dimension m)
                       (orString (indexMetric (config m)) (js "cosine"))))
  end.

Definition notInitialized : string :=
  "HNSW Index not initialized. Call initIndex() first.".

(** [await this.model.embed(texts)], recorded in the world. *)
Definition callEmbed (texts : list jsstring) (w : World)
    : option (list (list number)) * World :=
  (embed texts, {| files := files w; embedCalls := embedCalls w ++ [texts] |}).

(** One iteration of the loop of [addChunks], for [embeddings[i]]: the
    manager it leaves and the id it pushed to [addedIds], if any. *)
Definition addOne (chunks : list jsstring) (frames : list nat) (i : nat)
    (embedding : list number) (m : HNSWIndexManager)
    : HNSWIndexManager * option nat :=
  if negb (length embedding =? dimension m) then (m, None)
  else
    let chunkId := nextChunkId m in
    let m1 := withNextChunkId m (S chunkId) in
    match index m1 with
    | None => (m1, None)
    | Some g =>
        let '(g', completed) := addPoint g chunkId embedding in
        let m2 := withIndex m1 (Some g') in
        if completed then
          match nth_error chunks i with
          | Some chunk =>
              let meta := {| meta_id := chunkId;
                             meta_frame := nth_error frames i;
                             meta_length := length chunk |} in
              (withMetadata m2 (mapSet chunkId meta (metadata m2)), Some chunkId)
          | None => (m2, None)      (* [chunks[i].length] throws, caught *)
          end
        else (m2, None)             (* [addPoint] throws, caught *)
    end.

Fixpoint addLoop (chunks : list jsstring) (frames : list nat) (i : nat)
    (embeddings : list (list number)) (m : HNSWIndexManager)
    (addedIds : list nat) : HNSWIndexManager * list nat :=
  match embeddings with
  | [] => (m, addedIds)
  | embedding :: rest =>
      let '(m', added) := addOne chunks frames i embedding m in
      addLoop chunks frames (S i) rest m'
              (match added with Some chunkId => addedIds ++ [chunkId] | None => addedIds end)
  end.

Definition addChunks (chunks : list jsstring) (frames : list nat)
    (m : HNSWIndexManager) (w : World)
    : outcome (list nat) * HNSWIndexManager * World :=
  match index m with
  | None => (Thrown notInitialized, m, w)
  | Some _ =>
      match chunks with
      | [] => (Returned [], m, w)
      | _ =>
          match callEmbed chunks w with
          | (None, w') => (Thrown "embed rejected", m, w')
          | (Some embeddings, w') =>
              let '(m', addedIds) := addLoop chunks frames 0 embeddings m [] in
              (Returned addedIds, m', w')
          end
      end
  end.

(** The loop of [search] over the hits of the graph. *)
Fixpoint joinHits (md : list (nat * ChunkMetadata)) (result : list (nat * number))
    : list SearchResult :=
  match result with
  | [] => []
  | (chunkId, dist) :: rest =>
      match mapGet chunkId md with
      | Some meta =>
          {| chunk_id := chunkId; metadata_of := meta; distance := dist |}
          :: joinHits md rest
      | None => joinHits md rest
      end
  end.

Definition search (query : jsstring) (topK : nat)
    (m : HNSWIndexManager) (w : World)
    : outcome (list SearchResult) * World :=
  match index m with
  | None => (Thrown notInitialized, w)
  | Some g =>
      match query with
      | [] => (Returned [], w)
      | _ =>
          match callEmbed [query] w with
          | (None, w') => (Thrown "embed rejected", w')
          | (Some [], w') => (Returned [], w')
          | (Some (queryEmbedding :: _), w') =>
              if negb (length queryEmbedding =? dimension m) then (Returned [], w')
              else
                match searchKNN g queryEmbedding topK with
                | None => (Thrown "searchKNN threw", w')
                | Some result => (Returned (joinHits (metadata m) result), w')
                end
          end
      end
  end.

(** [basePath || this.config.index.path || 'memvid_index']. *)
Definition resolvePath (basePath : option jsstring) (m : HNSWIndexManager) : jsstring :=
  orString basePath (orString (indexPath (config m)) (js "memvid_index")).

Definition hnswFilePath (base : jsstring) : jsstring := base ++ js ".hnsw.json".
Definition metaFilePath (base : jsstring) : jsstring := base ++ js ".meta.json".

Definition writeFile (path : jsstring) (content : FileContent) (w : World) : World :=
  {| files := <[path := content]> (files w); embedCalls := embedCalls w |}.

Definition save (basePath : option jsstring) (m : HNSWIndexManager) (w : World)
    : outcome unit * World :=
  match index m with
  | None => (Thrown notInitialized, w)
  | Some g =>
      let savePath := resolvePath basePath m in
      let w1 := writeFile (hnswFilePath savePath) (HnswFile (toJSON g)) w in
      let w2 := writeFile (metaFilePath savePath)
                          (MetaFile (nextChunkId m) (metadata m)) w1 in
      (Returned tt, w2)
  end.

Definition serializeIndex (m : HNSWIndexManager) : outcome GraphJson :=
  match index m with
  | None => Thrown notInitialized
  | Some g => Returned (toJSON g)
  end.

(** [load]. A path that holds no file, or a file of the other kind (one
    that [save] did not write there), makes the call throw; what was
    assigned before stays assigned. *)
Definition load (basePath : option jsstring) (m : HNSWIndexManager) (w : World)
    : outcome unit * HNSWIndexManager :=
  let loadPath := resolvePath basePath m in
  match files w !! metaFilePath loadPath with
  | Some (MetaFile next serializableMetadata) =>
      let m1 := withNextChunkId (withMetadata m (mapOfEntries serializableMetadata)) next in
      match files w !! hnswFilePath loadPath with
      | Some (HnswFile indexJson) =>
          match fromJSON indexJson with
          | Some g => (Returned tt, withIndex m1 (Some g))
          | None => (Thrown "HNSW.fromJSON threw", m1)
          end
      | _ => (Thrown "cannot read the graph file", m1)
      end
  | _ => (Thrown "cannot read the metadata file", m)
  end.

Definition getChunkById (id : nat) (m : HNSWIndexManager) : option ChunkMetadata :=
  mapGet id (metadata m).

End Manager.

End IndexManager.

(* ===================================================================== *)
(** * config.ts                                                            *)
(* ===================================================================== *)

Module Config.
Import Utils IndexManager.

Record CodecConfig := {
  videoFileType : jsstring;
  videoFps : nat;
  frameHeight : nat;
  frameWidth : nat;
  videoCrf : option nat;
  videoBitrate : option jsstring;
  codecNameInternal : jsstring;
  pixFmt : jsstring;
  extraFfmpegArgs : option (list jsstring);
}.

Record RetrievalConfig := { cache_size : nat; max_workers : nat }.

Record ChatConfig := {
  chat_systemPrompt : option jsstring;
  chat_contextChunksPerQuery : nat;
  chat_maxHistoryLength : nat;
}.

Record LlmConfig := {
  maxContextTokensForContext : nat;
  maxTokens : nat;
}.

Record MemvidConfig := {
  chunkSize : Z;
  overlap : Z;
  codec : jsstring;
  codecParameters : list (jsstring * CodecConfig);
  retrieval : RetrievalConfig;
  indexConfig : IndexConfig;          (* [embedding] and [index] *)
  llmConfig : LlmConfig;
  chatConfig : ChatConfig;
  qr : option QrConfig;
}.

Fixpoint lookupCodec (name : jsstring) (table : list (jsstring * CodecConfig))
    : option CodecConfig :=
  match table with
  | [] => None
  | (name', params) :: rest =>
      if bool_decide (name' = name) then Some params else lookupCodec name rest
  end.

Definition getCodecParameters (config : MemvidConfig) (codecName : option jsstring)
    : option CodecConfig :=
  match orString codecName (codec config) with
  | [] => None
  | targetCodecName => lookupCodec targetCodecName (codecParameters config)
  end.

Definition H264_CODEC_CONFIG_WASM : CodecConfig :=
  {| videoFileType := js "mp4"; videoFps := 30; frameHeight := 720; frameWidth := 1280;
     videoCrf := None; videoBitrate := Some (js "1500k");
     codecNameInternal := js "libx264"; pixFmt := js "yuv420p";
     extraFfmpegArgs := Some [js "-preset"; js "medium"; js "-tune"; js "stillimage"] |}.

Definition VP9_CODEC_CONFIG_WASM : CodecConfig :=
  {| videoFileType := js "webm"; videoFps := 30; frameHeight := 720; frameWidth := 1280;
     videoCrf := None; videoBitrate := Some (js "1000k");
     codecNameInternal := js "vp9"; pixFmt := js "yuv420p";
     extraFfmpegArgs := Some [js "-deadline"; js "good"; js "-cpu-used"; js "0"] |}.

Definition MP4V_LEGACY_CONFIG : CodecConfig :=
  {| videoFileType := js "mp4"; videoFps := 15; frameHeight := 256; frameWidth := 256;
     videoCrf := Some 20; videoBitrate := None;
     codecNameInternal := js "mpeg4"; pixFmt := js "yuv420p";
     extraFfmpegArgs := Some [js "-qscale:v"; js "5"] |}.

Definition DEFAULT_CONFIG : MemvidConfig :=
  {| chunkSize := 1024; overlap := 32; codec := js "h264Wasm";
     codecParameters :=
       [(js "h264Wasm", H264_CODEC_CONFIG_WASM); (js "vp9Wasm", VP9_CODEC_CONFIG_WASM);
        (js "mp4vLegacy", MP4V_LEGACY_CONFIG)];
     retrieval := {| cache_size := 100; max_workers := 4 |};
     indexConfig :=
       {| embeddingDimension := 384; indexPath := Some (js "memvid_index");
          indexM := Some 16; indexEfConstruction := Some 200; indexMetric := None |};
     llmConfig := {| maxContextTokensForContext := 2000; maxTokens := 1024 |};
     chatConfig :=
       {| chat_systemPrompt := Some (js "You are a helpful AI assistant interacting with a user about a video's content. Use the provided context from the video to answer questions. Be concise and informative.");
          chat_contextChunksPerQuery := 3; chat_maxHistoryLength := 6 |};
     qr := Some {| version := None; errorCorrectionLevel := Some (js "M");
                   boxSize := Some 5; border := Some 4;
                   fillColor := Some (js "#000000"); backColor := Some (js "#FFFFFF") |} |}.

Definition getDefaultConfig : MemvidConfig := DEFAULT_CONFIG.

End Config.

(* ===================================================================== *)
(** * encoder.ts                                                           *)
(* ===================================================================== *)

(** [JSON.stringify] of a string, and the [text] property of
    [JSON.parse(data)]: [None] when parsing (or reading the property of
    [null]) throws, [Some None] when the property is [undefined]. *)
Class Json := {
  stringifyString : jsstring -> jsstring;
  parseChunkText : jsstring -> option (option jsstring);
}.

(** ffmpeg assembling the frame images into a video and the read of its
    output file; [None] when either throws. *)
Class VideoEncoder := {
  encodeVideo : list (nat * list byte) -> Config.CodecConfig -> jsstring
                -> option (list byte);
}.

Module Encoder.
Import Utils IndexManager Config.

Section Encoder.
Context {number : Type} {model : EmbeddingModel number} {hnsw : HNSW number}
        {pako : Pako} {base64 : Base64} {qrcode : QrCode} {json : Json}
        {ffmpeg : VideoEncoder}.

Record MemvidEncoder := {
  chunks : list jsstring;
  config : MemvidConfig;
  index : HNSWIndexManager;
}.

Definition newEncoder (cfg : MemvidConfig) : MemvidEncoder :=
  {| chunks := []; config := cfg; index := newManager (indexConfig cfg) |}.

Definition withChunks (e : MemvidEncoder) (cs : list jsstring) :=
  {| chunks := cs; config := config e; index := index e |}.

Definition withManager (e : MemvidEncoder) (m : HNSWIndexManager) :=
  {| chunks := chunks e; config := config e; index := m |}.

Definition addText (text : jsstring) (e : MemvidEncoder) : MemvidEncoder :=
  match text with
  | [] => e
  | _ =>
      if length (trim text) =? 0 then e
      else withChunks e (chunks e ++ chunkText text (chunkSize (config e)) (overlap (config e)))
  end.

(** [JSON.stringify({ text: chunk, frame: frameForChunk })]. *)
Definition chunkPayload (chunk : jsstring) (frameForChunk : nat) : jsstring :=
  js "{" ++ dquote ++ js "text" ++ dquote ++ js ":" ++ stringifyString chunk
  ++ js "," ++ dquote ++ js "frame" ++ dquote ++ js ":"
  ++ numberToString frameForChunk ++ js "}".

Definition emptyQrConfig : QrConfig :=
  {| version := None; errorCorrectionLevel := None; boxSize := None;
     border := None; fillColor := None; backColor := None |}.

Definition qrConfigOf (cfg : MemvidConfig) : QrConfig :=
  match qr cfg with Some q => q | None => emptyQrConfig end.

(** The frame loop of [buildVideo], from chunk [i] on: the frames written
    so far are [frameFiles]. [addChunks] throwing ends the build. *)
Fixpoint frameLoop (cfg : MemvidConfig) (i : nat) (remaining : list jsstring)
    (frameFiles : list (nat * list byte)) (m : HNSWIndexManager) (w : World)
    : outcome (list (nat * list byte)) * HNSWIndexManager * World :=
  match remaining with
  | [] => (Returned frameFiles, m, w)
  | chunk :: rest =>
      let frameForChunk := i in
      match generateQrBuffer (chunkPayload chunk frameForChunk) (qrConfigOf cfg) with
      | Some qrBuffer =>
          match addChunks [chunk] [frameForChunk] m w with
          | (Returned _, m', w') =>
              frameLoop cfg (S i) rest (frameFiles ++ [(frameForChunk, qrBuffer)]) m' w'
          | (Thrown msg, m', w') => (Thrown msg, m', w')
          end
      | None => frameLoop cfg (S i) rest frameFiles m w
      end
  end.

Record BuildResult := {
  videoBuffer : list byte;
  indexDataBuffer : GraphJson;
  frameCount : nat;
}.

Definition buildVideo (outputFileNameSuggestion : option jsstring)
    (e : MemvidEncoder) (w : World)
    : outcome BuildResult * MemvidEncoder * World :=
  match chunks e with
  | [] =>
      let m := initIndex (index e) in
      match serializeIndex m with
      | Returned emptyIndexBuffer =>
          (Returned {| videoBuffer := []; indexDataBuffer := emptyIndexBuffer;
                       frameCount := 0 |}, withManager e m, w)
      | Thrown msg => (Thrown msg, withManager e m, w)
      end
  | _ =>
      (* 1. QR code frames *)
      let m0 := initIndex (index e) in
      match frameLoop (config e) 0 (chunks e) [] m0 w with
      | (Thrown msg, m1, w1) => (Thrown msg, withManager e m1, w1)
      | (Returned frameFiles, m1, w1) =>
          (* 2. the video *)
          let found :=
            match getCodecParameters (config e) (Some (codec (config e))) with
            | Some c => Some c
            | None => getCodecParameters (config e) (Some (js "h264Wasm"))
            end in
          match found with
          | None => (Thrown "Valid codec configuration not found.", withManager e m1, w1)
          | Some codecConfig =>
              let outputFile :=
                orString outputFileNameSuggestion
                         (js "output." ++ videoFileType codecConfig) in
              match encodeVideo frameFiles codecConfig outputFile with
              | None => (Thrown "ffmpeg failed", withManager e m1, w1)
              | Some videoData =>
                  (* 3. the index *)
                  let frameNumbers := seq 0 (length (chunks e)) in
                  match addChunks (chunks e) frameNumbers m1 w1 with
                  | (Thrown msg, m2, w2) => (Thrown msg, withManager e m2, w2)
                  | (Returned _, m2, w2) =>
                      let saved :=
                        match indexPath (indexConfig (config e)) with
                        | Some (c :: path) => save (Some (c :: path)) m2 w2
                        | _ => (Returned tt, w2)
                        end in
                      match saved with
                      | (Thrown msg, w3) => (Thrown msg, withManager e m2, w3)
                      | (Returned _, w3) =>
                          match serializeIndex m2 with
                          | Thrown msg => (Thrown msg, withManager e m2, w3)
                          | Returned buffer =>
                              (Returned {| videoBuffer := videoData;
                                           indexDataBuffer := buffer;
                                           frameCount := length frameFiles |},
                               withChunks (withManager e m2) [], w3)
                          end
                      end
                  end
              end
          end
      end
  end.

End Encoder.

End Encoder.

(* ===================================================================== *)
(** * retriever.ts                                                         *)
(* ===================================================================== *)

(** Reading the video file, and what one frame extraction reads: ffmpeg
    cutting the frame at [frameNumber / fps] out of the video followed by
    [decodeQrImage]. [readFrameQr n video fps frameNumber] is the raw QR
    text that the [n]-th extraction of the retriever obtains, [None] when
    anything on the way throws or no QR code is read. *)
Class FrameReader := {
  readVideoFile : jsstring -> option (list byte);
  readFrameQr : nat -> list byte -> nat -> option nat -> option jsstring;
}.

(** JavaScript arithmetic on numbers, as far as the retriever uses it:
    the literal [1.0], [+] and [/]. *)
Class NumberArith (number : Type) := {
  numOne : number;
  numAdd : number -> number -> number;
  numDiv : number -> number -> number;
}.

Module Retriever.
Import Utils IndexManager Config.

Inductive VideoSource :=
| VideoPath (path : jsstring)
| VideoBytes (buffer : list byte).

Section Retriever.
Context {number : Type} {model : EmbeddingModel number} {hnsw : HNSW number}
        {pako : Pako} {base64 : Base64} {json : Json} {reader : FrameReader}.

Record MemvidRetriever := {
  config : MemvidConfig;
  indexManager : HNSWIndexManager;
  _frameCache : gmap (option nat) (option jsstring);
  _cacheSize : nat;
  totalFrames : nat;
  fps : nat;
  videoBuffer : option (list byte);
  readyPromise : outcome unit;
  (** the frames handed to [extractFrameAndDecode] so far, in order *)
  extractions : list (option nat);
}.

Definition withCache (r : MemvidRetriever) (cache : gmap (option nat) (option jsstring)) :=
  {| config := config r; indexManager := indexManager r; _frameCache := cache;
     _cacheSize := _cacheSize r; totalFrames := totalFrames r; fps := fps r;
     videoBuffer := videoBuffer r; readyPromise := readyPromise r;
     extractions := extractions r |}.

Definition withExtraction (r : MemvidRetriever) (frameNumber : option nat) :=
  {| config := config r; indexManager := indexManager r; _frameCache := _frameCache r;
     _cacheSize := _cacheSize r; totalFrames := totalFrames r; fps := fps r;
     videoBuffer := videoBuffer r; readyPromise := readyPromise r;
     extractions := extractions r ++ [frameNumber] |}.

(** The constructor together with [_initialize] and [_verifyVideo]. *)
Definition newRetriever (videoSource : VideoSource) (indexFileOrBasePath : jsstring)
    (cfg : MemvidConfig) (w : World) : MemvidRetriever :=
  let icfg := {| embeddingDimension := embeddingDimension (indexConfig cfg);
                 indexPath := Some indexFileOrBasePath;
                 indexM := indexM (indexConfig cfg);
                 indexEfConstruction := indexEfConstruction (indexConfig cfg);
                 indexMetric := indexMetric (indexConfig cfg) |} in
  let manager := newManager icfg in
  let video :=
    match videoSource with
    | VideoPath path => readVideoFile path
    | VideoBytes buffer => Some buffer
    end in
  let blank :=
    {| config := cfg; indexManager := manager; _frameCache := ∅;
       _cacheSize := cache_size (retrieval cfg); totalFrames := 0; fps := 0;
       videoBuffer := video; readyPromise := Thrown "cannot read the video";
       extractions := [] |} in
  match video with
  | None => blank
  | Some buffer =>
      let rate :=
        match lookupCodec (codec cfg) (codecParameters cfg) with
        | Some c => orNat (Some (videoFps c)) 30
        | None => 30
        end in
      let '(loaded, manager') := load (Some indexFileOrBasePath) manager w in
      {| config := cfg; indexManager := manager'; _frameCache := ∅;
         _cacheSize := cache_size (retrieval cfg);
         totalFrames := Nat.max 1 (N.to_nat (N.of_nat (length buffer) / 20000));
         fps := rate;
         videoBuffer := video; readyPromise := loaded; extractions := [] |}
  end.

(** [${frameNum}] in a template literal. *)
Definition frameToString (frameNum : option nat) : jsstring :=
  match frameNum with
  | Some n => numberToString n
  | None => js "undefined"
  end.

Definition notReadable (frameNum : option nat) : jsstring :=
  js "[Frame " ++ frameToString frameNum ++ js " not readable]".

Definition decodeError (frameNum : option nat) : jsstring :=
  js "[Frame " ++ frameToString frameNum ++ js " decode error]".

Definition extractFrameAndDecode (frameNumber : option nat) (r : MemvidRetriever)
    : outcome (option jsstring) * MemvidRetriever :=
  match videoBuffer r with
  | None => (Thrown "Video buffer not loaded", r)
  | Some video =>
      let r' := withExtraction r frameNumber in
      match readFrameQr (length (extractions r)) video (fps r) frameNumber with
      | Some (c :: rawQrText) => (Returned (Some (processQrText (c :: rawQrText))), r')
      | _ => (Returned None, r')
      end
  end.

Definition _decodeSingleFrame (frameNumber : option nat) (r : MemvidRetriever)
    : outcome (option jsstring) * MemvidRetriever :=
  match readyPromise r with
  | Thrown msg => (Thrown msg, r)
  | Returned _ =>
      match videoBuffer r with
      | None => (Thrown "Retriever not initialized (video buffer missing).", r)
      | Some _ =>
          if fps r =? 0 then
            (Thrown "FPS is 0, cannot decode frame. Ensure video was verified.", r)
          else
            match _frameCache r !! frameNumber with
            | Some cached => (Returned cached, r)
            | None =>
                match extractFrameAndDecode frameNumber r with
                | (Thrown msg, r') => (Thrown msg, r')
                | (Returned result, r') =>
                    if size (_frameCache r') <? _cacheSize r' then
                      (Returned result,
                       withCache r' (<[frameNumber := result]> (_frameCache r')))
                    else (Returned result, r')
                end
            end
      end
  end.

(** What [search] pushes for a frame whose decoded text is [decodedText]. *)
Definition textOfFrame (frameNum : option nat) (decodedText : option jsstring)
    : option jsstring :=
  match decodedText with
  | Some (c :: decoded) =>
      match parseChunkText (c :: decoded) with
      | Some text => text
      | None => Some (decodeError frameNum)
      end
  | _ => Some (notReadable frameNum)
  end.

Fixpoint decodeLoop (searchResults : list (@SearchResult number)) (r : MemvidRetriever)
    (texts : list (option jsstring))
    : outcome (list (option jsstring)) * MemvidRetriever :=
  match searchResults with
  | [] => (Returned texts, r)
  | searchResult :: rest =>
      let frameNum := meta_frame (metadata_of searchResult) in
      match _decodeSingleFrame frameNum r with
      | (Thrown msg, r') => (Thrown msg, r')
      | (Returned decodedText, r') =>
          decodeLoop rest r' (texts ++ [textOfFrame frameNum decodedText])
      end
  end.

Definition search (query : jsstring) (top_k : nat) (r : MemvidRetriever) (w : World)
    : outcome (list (option jsstring)) * MemvidRetriever * World :=
  match readyPromise r with
  | Thrown msg => (Thrown msg, r, w)
  | Returned _ =>
      match IndexManager.search query top_k (indexManager r) w with
      | (Thrown msg, w') => (Thrown msg, r, w')
      | (Returned searchResults, w') =>
          let '(texts, r') := decodeLoop searchResults r [] in
          (texts, r', w')
      end
  end.

Definition clearCache (r : MemvidRetriever) : MemvidRetriever := withCache r ∅.

End Retriever.

(** The other queries of the retriever. Chunk ids and window sizes are
    integers here, since [getContextWindow] computes [chunkId + offset]
    for negative offsets. *)
Section Queries.
Context {number : Type} {model : EmbeddingModel number} {hnsw : HNSW number}
        {pako : Pako} {base64 : Base64} {json : Json} {reader : FrameReader}
        {arith : NumberArith number}.

(** [this.indexManager.getChunkById(chunkId)]: the keys of the map are
    the ids handed out, none of them negative. *)
Definition metadataOf (chunkId : Z) (m : HNSWIndexManager) : option ChunkMetadata :=
  if (chunkId <? 0)%Z then None else IndexManager.getChunkById (Z.to_nat chunkId) m.

Definition getChunkById (chunkId : Z) (r : MemvidRetriever)
    : outcome (option jsstring) * MemvidRetriever :=
  match readyPromise r with
  | Thrown msg => (Thrown msg, r)
  | Returned _ =>
      match metadataOf chunkId (indexManager r) with
      | Some metadata =>
          let frameNum := meta_frame metadata in
          match _decodeSingleFrame frameNum r with
          | (Thrown msg, r') => (Thrown msg, r')
          | (Returned decoded, r') => (Returned (textOfFrame frameNum decoded), r')
          end
      | None => (Returned None, r)
      end
  end.

(** The loop of [getContextWindow], with [steps] offsets still to go;
    [if (chunk)] lets neither [null] nor the empty string through. *)
Fixpoint windowLoop (steps : nat) (targetId : Z) (r : MemvidRetriever)
    (chunks : list jsstring) : outcome (list jsstring) * MemvidRetriever :=
  match steps with
  | O => (Returned chunks, r)
  | S steps' =>
      match getChunkById targetId r with
      | (Thrown msg, r') => (Thrown msg, r')
      | (Returned chunk, r') =>
          windowLoop steps' (targetId + 1) r'
            (match chunk with Some (c :: text) => chunks ++ [c :: text] | _ => chunks end)
      end
  end.

(** [offset] runs from [-windowSize] to [windowSize]: [2 * windowSize + 1]
    offsets, none when [windowSize] is negative. *)
Definition getContextWindow (chunkId windowSize : Z) (r : MemvidRetriever)
    : outcome (list jsstring) * MemvidRetriever :=
  match readyPromise r with
  | Thrown msg => (Thrown msg, r)
  | Returned _ =>
      windowLoop (Z.to_nat (2 * windowSize + 1)) (chunkId - windowSize) r []
  end.

(** [Array.from(new Set(frames))]: the distinct frames in the order of
    their first occurrence. *)
Fixpoint distinctFrom (seen frames : list (option nat)) : list (option nat) :=
  match frames with
  | [] => []
  | frameNum :: rest =>
      if bool_decide (frameNum ∈ seen) then distinctFrom seen rest
      else frameNum :: distinctFrom (frameNum :: seen) rest
  end.

Definition distinctFrames (frames : list (option nat)) : list (option nat) :=
  distinctFrom [] frames.

(** The first loop of [_decodeFramesParallel]: the frames found in the
    cache go to [results], the others are to be fetched. *)
Definition splitCached (cache : gmap (option nat) (option jsstring))
    (frameNumbers : list (option nat))
    : gmap (option nat) (option jsstring) * list (option nat) :=
  fold_left
    (fun '(results, framesToFetch) frameNum =>
       match cache !! frameNum with
       | Some cached => (<[frameNum := cached]> results, framesToFetch)
       | None => (results, framesToFetch ++ [frameNum])
       end)
    frameNumbers (∅, []).

(** [Promise.all(batch.map(async ...))]: the extractions of a batch are
    started in the order of the batch. *)
Fixpoint extractBatch (batch : list (option nat)) (r : MemvidRetriever)
    (batchResults : list (option nat * option jsstring))
    : outcome (list (option nat * option jsstring)) * MemvidRetriever :=
  match batch with
  | [] => (Returned batchResults, r)
  | frameNum :: rest =>
      match extractFrameAndDecode frameNum r with
      | (Thrown msg, r') => (Thrown msg, r')
      | (Returned data, r') => extractBatch rest r' (batchResults ++ [(frameNum, data)])
      end
  end.

(** The loop over [batchResults]. *)
Fixpoint storeBatch (batchResults : list (option nat * option jsstring))
    (results : gmap (option nat) (option jsstring)) (r : MemvidRetriever)
    : gmap (option nat) (option jsstring) * MemvidRetriever :=
  match batchResults with
  | [] => (results, r)
  | (frameNum, data) :: rest =>
      storeBatch rest (<[frameNum := data]> results)
        (if size (_frameCache r) <? _cacheSize r
         then withCache r (<[frameNum := data]> (_frameCache r)) else r)
  end.

(** The loop over the batches, from index [i] on. The batch size is at
    least 1, so [length framesToFetch] iterations are enough. *)
Fixpoint batchLoop (fuel : nat) (batchSize i : nat) (framesToFetch : list (option nat))
    (results : gmap (option nat) (option jsstring)) (r : MemvidRetriever)
    : outcome (gmap (option nat) (option jsstring)) * MemvidRetriever :=
  match fuel with
  | O => (Returned results, r)
  | S fuel' =>
      if i <? length framesToFetch then
        let batch := firstn (i + batchSize - i) (skipn i framesToFetch) in
        match extractBatch batch r [] with
        | (Thrown msg, r') => (Thrown msg, r')
        | (Returned batchResults, r') =>
            let '(results', r'') := storeBatch batchResults results r' in
            batchLoop fuel' batchSize (i + batchSize) framesToFetch results' r''
        end
      else (Returned results, r)
  end.

Definition _decodeFramesParallel (frameNumbers : list (option nat)) (r : MemvidRetriever)
    : outcome (gmap (option nat) (option jsstring)) * MemvidRetriever :=
  match readyPromise r with
  | Thrown msg => (Thrown msg, r)
  | Returned _ =>
      match videoBuffer r with
      | None => (Thrown "Retriever not initialized.", r)
      | Some _ =>
          if fps r =? 0 then (Thrown "FPS is 0, cannot decode frames.", r)
          else
            let '(results, framesToFetch) := splitCached (_frameCache r) frameNumbers in
            let batchSize := orNat (Some (max_workers (retrieval (config r)))) 4 in
            batchLoop (length framesToFetch) batchSize 0 framesToFetch results r
      end
  end.

Record ResultWithMetadata := {
  result_text : option jsstring;
  result_score : number;
  result_chunk_id : nat;
  result_frame : option nat;
  result_metadata : ChunkMetadata;
}.

Definition searchWithMetadata (query : jsstring) (top_k : nat) (r : MemvidRetriever)
    (w : World) : outcome (list ResultWithMetadata) * MemvidRetriever * World :=
  match readyPromise r with
  | Thrown msg => (Thrown msg, r, w)
  | Returned _ =>
      match IndexManager.search query top_k (indexManager r) w with
      | (Thrown msg, w') => (Thrown msg, r, w')
      | (Returned searchResults, w') =>
          let frameNumbers :=
            distinctFrames (map (fun result => meta_frame (metadata_of result)) searchResults) in
          match _decodeFramesParallel frameNumbers r with
          | (Thrown msg, r') => (Thrown msg, r', w')
          | (Returned decodedFrames, r') =>
              (Returned
                 (map (fun searchResult =>
                         let frameNum := meta_frame (metadata_of searchResult) in
                         let decodedText :=
                           match decodedFrames !! frameNum with
                           | Some decoded => decoded
                           | None => None
                           end in
                         {| result_text := textOfFrame frameNum decodedText;
                            result_score :=
                              numDiv numOne (numAdd numOne (distance searchResult));
                            result_chunk_id := chunk_id searchResult;
                            result_frame := frameNum;
                            result_metadata := metadata_of searchResult |})
                      searchResults),
               r', w')
          end
      end
  end.

Definition prefetchFrames (frameNumbers : list nat) (r : MemvidRetriever)
    : outcome unit * MemvidRetriever :=
  match readyPromise r with
  | Thrown msg => (Thrown msg, r)
  | Returned _ =>
      let toPrefetch :=
        List.filter (fun f => match _frameCache r !! f with None => true | Some _ => false end)
                    (map Some frameNumbers) in
      match toPrefetch with
      | [] => (Returned tt, r)
      | _ =>
          match _decodeFramesParallel toPrefetch r with
          | (Thrown msg, r') => (Thrown msg, r')
          | (Returned _, r') => (Returned tt, r')
          end
      end
  end.

End Queries.

End Retriever.

(* ===================================================================== *)
(** * memvidChat.ts                                                        *)
(* ===================================================================== *)

(** [LlmClient.chat]; [None] when the promise rejects. *)
Inductive Role := user | assistant | system.

Record ChatMessage := { role : Role; content : jsstring }.

Class LlmClient := {
  llmChat : list ChatMessage -> option ChatMessage;
}.

Module Chat.
Import Utils IndexManager Config.

Section Chat.
Context {number : Type} {model : EmbeddingModel number} {hnsw : HNSW number}
        {pako : Pako} {base64 : Base64} {json : Json} {reader : FrameReader}.

Record MemvidChat := {
  retriever : Retriever.MemvidRetriever;
  config : MemvidConfig;
  llmClient : option LlmClient;
  conversationHistory : list ChatMessage;
  currentSessionId : option jsstring;
  systemPrompt : jsstring;
  contextChunksPerQuery : nat;
  maxHistoryLength : nat;
  maxContextTokens : nat;
  llmResponseMaxTokens : nat;
}.

Definition getDefaultSystemPrompt : jsstring :=
  js "You are a helpful AI assistant. Use the provided context to answer questions about a video. If the context doesn't contain the answer, say you don't know.".

Definition newChat (r : Retriever.MemvidRetriever) (cfg : MemvidConfig)
    (client : option LlmClient) : MemvidChat :=
  {| retriever := r; config := cfg; llmClient := client;
     conversationHistory := []; currentSessionId := None;
     systemPrompt := orString (chat_systemPrompt (chatConfig cfg)) getDefaultSystemPrompt;
     contextChunksPerQuery := chat_contextChunksPerQuery (chatConfig cfg);
     maxHistoryLength := chat_maxHistoryLength (chatConfig cfg);
     maxContextTokens := maxContextTokensForContext (llmConfig cfg);
     llmResponseMaxTokens := maxTokens (llmConfig cfg) |}.

Definition withRetriever (c : MemvidChat) (r : Retriever.MemvidRetriever) :=
  {| retriever := r; config := config c; llmClient := llmClient c;
     conversationHistory := conversationHistory c;
     currentSessionId := currentSessionId c; systemPrompt := systemPrompt c;
     contextChunksPerQuery := contextChunksPerQuery c;
     maxHistoryLength := maxHistoryLength c;
     maxContextTokens := maxContextTokens c;
     llmResponseMaxTokens := llmResponseMaxTokens c |}.

Definition clearHistory (c : MemvidChat) : MemvidChat :=
  {| retriever := retriever c; config := config c; llmClient := llmClient c;
     conversationHistory := [];
     currentSessionId := currentSessionId c; systemPrompt := systemPrompt c;
     contextChunksPerQuery := contextChunksPerQuery c;
     maxHistoryLength := maxHistoryLength c;
     maxContextTokens := maxContextTokens c;
     llmResponseMaxTokens := llmResponseMaxTokens c |}.

(** [startSession]; [generatedId] is [`session_${Date.now()}`]. *)
Definition startSession (prompt sessionId : option jsstring) (generatedId : jsstring)
    (c : MemvidChat) : MemvidChat :=
  let c' := clearHistory c in
  {| retriever := retriever c'; config := config c'; llmClient := llmClient c';
     conversationHistory := conversationHistory c';
     currentSessionId := Some (orString sessionId generatedId);
     systemPrompt :=
       orString prompt
                (orString (chat_systemPrompt (chatConfig (config c'))) getDefaultSystemPrompt);
     contextChunksPerQuery := contextChunksPerQuery c';
     maxHistoryLength := maxHistoryLength c';
     maxContextTokens := maxContextTokens c';
     llmResponseMaxTokens := llmResponseMaxTokens c' |}.

(** A chunk as string concatenation sees it. *)
Definition chunkToString (chunk : option jsstring) : jsstring :=
  match chunk with Some s => s | None => js "undefined" end.

(** The concatenation loop of [getContext], with its [break]. *)
Fixpoint combineContext (limit : nat) (contextChunks : list (option jsstring))
    (combinedContext : jsstring) : jsstring :=
  match contextChunks with
  | [] => combinedContext
  | chunk :: rest =>
      if limit <? length (combinedContext ++ chunkToString chunk) then combinedContext
      else combineContext limit rest
             (combinedContext ++ chunkToString chunk ++ [10%N; 10%N])
  end.

Definition getContext (query : jsstring) (c : MemvidChat) (w : World)
    : outcome jsstring * MemvidChat * World :=
  match Retriever.search query (contextChunksPerQuery c) (retriever c) w with
  | (Thrown msg, r', w') => (Thrown msg, withRetriever c r', w')
  | (Returned contextChunks, r', w') =>
      match contextChunks with
      | [] => (Returned [], withRetriever c r', w')
      | _ =>
          (Returned (trim (combineContext (maxContextTokens c) contextChunks [])),
           withRetriever c r', w')
      end
  end.

Definition chat (message : jsstring) (c : MemvidChat) (w : World)
    : outcome jsstring * MemvidChat * World :=
  match getContext message c w with
  | (Thrown msg, c', w') => (Thrown msg, c', w')
  | (Returned [], c', w') =>
      (Returned (js "No relevant context found in the video for your query."), c', w')
  | (Returned context, c', w') =>
      (Returned (js "Context from video:" ++ [10%N] ++ context), c', w')
  end.

End Chat.

End Chat.

(* ===================================================================== *)
(** * Definitions used to state the properties                             *)
(* ===================================================================== *)

(** A string neither starting nor ending with white space is its own trim. *)
Definition startsTight (s : jsstring) : bool :=
  match s with c :: _ => negb (isWhiteSpace c) | [] => true end.

Section ChunkerStatements.
Import Utils.

(** The weight of a list of pieces: their lengths plus one separator each. *)
Definition weight (pieces : list jsstring) : nat :=
  list_sum (map (fun x => S (length x)) pieces).

(** What the accumulation loop of [chunkText] does with a sentence that
    fits: append it to the running chunk after a single space. *)
Definition joinStep (cur raw : jsstring) : jsstring :=
  (if (0 <? strLen cur)%Z then cur ++ js " " else cur) ++ trim raw.

Definition isSentence (s : jsstring) : bool :=
  (0 <? length s) && (0 <? length (trim s)).

(** The sentences of the text, trimmed and joined by single spaces. *)
Definition joinSentences (text : jsstring) : jsstring :=
  trim (fold_left joinStep (List.filter isSentence (splitSentences text)) []).

Definition tweight (l : list jsstring) : nat :=
  list_sum (map (fun x => S (length (trim x))) l).

Definition occupied (cur : jsstring) : nat :=
  length cur + (match cur with [] => 0 | _ => 1 end).

End ChunkerStatements.

Section ManagerStatements.
Import IndexManager.
Context {number : Type} {model : EmbeddingModel number} {hnsw : HNSW number}.

(** The items of a batch that the loop of [addChunks] inserts when the
    graph accepts every point of the configured dimension: those whose
    embedding has that dimension. *)
Definition fitsDimension (dim : nat) (item : jsstring * nat * list number) : bool :=
  length (snd item) =? dim.

(** The entries recorded for a list of inserted items, ids counting up
    from [next]. *)
Fixpoint recordItems (next : nat) (items : list (jsstring * nat * list number))
    (md : list (nat * ChunkMetadata)) : list (nat * ChunkMetadata) :=
  match items with
  | [] => md
  | (text, frame, _) :: rest =>
      recordItems (S next) rest
        (mapSet next {| meta_id := next; meta_frame := Some frame;
                        meta_length := length text |} md)
  end.

(** The graph accepts every point of the configured dimension. *)
Definition addPointCompletes (dim : nat) : Prop :=
  forall (g : Graph) (chunkId : nat) (point : list number),
    length point = dim -> snd (addPoint g chunkId point) = true.

(** A run of [addChunks] calls, and the ids they return, concatenated. *)
Fixpoint addMany (calls : list (list jsstring * list nat))
    (m : HNSWIndexManager) (w : World)
    : outcome (list nat) * HNSWIndexManager * World :=
  match calls with
  | [] => (Returned [], m, w)
  | (texts, frames) :: rest =>
      match addChunks texts frames m w with
      | (Returned ids, m', w') =>
          match addMany rest m' w' with
          | (Returned ids', m'', w'') => (Returned (ids ++ ids'), m'', w'')
          | failed => failed
          end
      | failed => failed
      end
  end.

(** The embedding model answers [texts] with one vector per text, each of
    dimension [dim]. *)
Definition embedsAt (dim : nat) (texts : list jsstring) : bool :=
  match embed texts with
  | Some vectors =>
      (length vectors =? length texts)
      && forallb (fun v => length v =? dim) vectors
  | None => false
  end.

(** A manager holds a JavaScript [Map]: one entry per key. *)
Definition wellFormed (m : HNSWIndexManager) : Prop :=
  List.NoDup (map fst (metadata m)).

(** What [search] expects of the graph's answer to a query for the
    [k] nearest points: at most [k] hits, no negative score, nearest
    first. [nle] and [nzero] are [<=] and [0] on JavaScript numbers. *)
Definition knnContract (nle : number -> number -> Prop) (nzero : number)
    (k : nat) (hits : list (nat * number)) : Prop :=
  length hits <= k
  /\ Forall (fun hit => nle nzero (snd hit)) hits
  /\ Sorted (fun a b => nle (snd a) (snd b)) hits.

(** The entries recorded for [chunks] inserted under the ids [next],
    [next + 1], ... at the given frames. *)
Fixpoint entriesAt (next : nat) (chunks : list jsstring) (frames : list nat)
    : list (nat * ChunkMetadata) :=
  match chunks, frames with
  | chunk :: chunks', frame :: frames' =>
      (next, {| meta_id := next; meta_frame := Some frame;
                meta_length := length chunk |})
      :: entriesAt (S next) chunks' frames'
  | _, _ => []
  end.

(** The hit of the graph refers to a chunk that has metadata. *)
Definition known (md : list (nat * ChunkMetadata)) (hit : nat * number) : bool :=
  match mapGet (fst hit) md with Some _ => true | None => false end.

(** Every key of the metadata map is an id already handed out. *)
Definition keysBelowNext (m : HNSWIndexManager) : Prop :=
  Forall (fun k => k < nextChunkId m) (map fst (metadata m)).

End ManagerStatements.

Section RetrieverStatements.
Import Utils IndexManager Retriever.
Context {number : Type} {model : EmbeddingModel number} {hnsw : HNSW number}
        {pako : Pako} {base64 : Base64} {json : Json} {reader : FrameReader}.

(** What the [n]-th extraction of a retriever decodes for a frame. *)
Definition decodedAt (n : nat) (video : list byte) (rate : nat)
    (frameNumber : option nat) : option jsstring :=
  match readFrameQr n video rate frameNumber with
  | Some (c :: rawQrText) => Some (processQrText (c :: rawQrText))
  | _ => None
  end.

(** The two ways a frame fails: nothing readable comes out of the
    extraction, or what comes out does not parse as a payload. *)
Inductive FailureKind := ExtractionFails | ParseFails.

Definition failsAs (kind : FailureKind) (decoded : option jsstring) : bool :=
  match kind, decoded with
  | ExtractionFails, (None | Some []) => true
  | ParseFails, Some (c :: d) =>
      match parseChunkText (c :: d) with None => true | Some _ => false end
  | _, _ => false
  end.

Definition sentinel (kind : FailureKind) (frameNumber : option nat) : jsstring :=
  match kind with
  | ExtractionFails => notReadable frameNumber
  | ParseFails => decodeError frameNumber
  end.

Definition frameNumbers (results : list (@SearchResult number)) : list (option nat) :=
  map (fun r => meta_frame (metadata_of r)) results.

(** How many times a frame was handed to [extractFrameAndDecode]. *)
Definition timesExtracted (frameNumber : option nat) (r : MemvidRetriever) : nat :=
  length (List.filter (fun g => bool_decide (g = frameNumber)) (extractions r)).

(** The frames of the results that a query processes before it first
    reaches the frame. *)
Fixpoint framesBefore (frameNumber : option nat) (frames : list (option nat))
    : list (option nat) :=
  match frames with
  | [] => []
  | g :: rest =>
      if bool_decide (g = frameNumber) then [] else g :: framesBefore frameNumber rest
  end.

(** A retriever whose initialization went through. *)
Definition usable (r : MemvidRetriever) (video : list byte) : Prop :=
  readyPromise r = Returned tt /\ videoBuffer r = Some video /\ fps r <> 0.

End RetrieverStatements.

Section ChatStatements.
Import Utils IndexManager Chat.
Context {number : Type} {model : EmbeddingModel number} {hnsw : HNSW number}
        {pako : Pako} {base64 : Base64} {json : Json} {reader : FrameReader}.

(** A run of chat turns, and what each returned. *)
Fixpoint chatTurns (messages : list jsstring) (c : MemvidChat) (w : World)
    : list (outcome jsstring) * MemvidChat * World :=
  match messages with
  | [] => ([], c, w)
  | message :: rest =>
      let '(response, c', w') := chat message c w in
      let '(responses, c'', w'') := chatTurns rest c' w' in
      (response :: responses, c'', w'')
  end.

End ChatStatements.

(* ===================================================================== *)
(** * A small instance of the boundaries, to evaluate the model on         *)
(* ===================================================================== *)

Module Toy.
Import IndexManager.

(** Two-dimensional integer embeddings, the length of the text and 1;
    a text that starts with an exclamation mark gets a vector of the
    wrong dimension. *)
Definition toyVector (t : jsstring) : list Z :=
  match t with
  | 33%N :: _ => [Z.of_nat (length t); 1%Z; 1%Z]
  | _ => [Z.of_nat (length t); 1%Z]
  end.

#[export] Instance toyModel : EmbeddingModel Z :=
  {| embed := fun texts => Some (map toyVector texts) |}.

Definition squaredDistance (a b : list Z) : Z :=
  fold_right Z.add 0%Z (map (fun xy => ((fst xy - snd xy) * (fst xy - snd xy))%Z) (combine a b)).

Fixpoint insertHit (hit : nat * Z) (hits : list (nat * Z)) : list (nat * Z) :=
  match hits with
  | [] => [hit]
  | hit' :: rest =>
      if (snd hit <=? snd hit')%Z then hit :: hits else hit' :: insertHit hit rest
  end.

(** An exact nearest-neighbour search by linear scan. *)
#[export] Instance toyHNSW : HNSW Z :=
  {| Graph := list (nat * list Z);
     GraphJson := list (nat * list Z);
     newHNSW := fun _ _ _ _ => [];
     addPoint := fun g chunkId point => (g ++ [(chunkId, point)], true);
     searchKNN := fun g query k =>
       Some (firstn k (fold_right insertHit []
                         (map (fun entry => (fst entry, squaredDistance query (snd entry))) g)));
     toJSON := fun g => g;
     fromJSON := fun indexJson => Some indexJson |}.

Definition similarity (a b : list Z) : Z :=
  fold_right Z.add 0%Z (map (fun xy => (fst xy * snd xy)%Z) (combine a b)).

Fixpoint insertBySimilarity (hit : nat * Z) (hits : list (nat * Z)) : list (nat * Z) :=
  match hits with
  | [] => [hit]
  | hit' :: rest =>
      if (snd hit' <=? snd hit)%Z then hit :: hits else hit' :: insertBySimilarity hit rest
  end.

(** A graph whose [score] is a similarity, as that of the [hnsw] package
    is: here the dot product with the query, the most similar point
    first, points of no positive similarity left out. Searching a graph
    without points throws. It is not the instance that the classes
    resolve to: it is named where it is used. *)
Definition similarityHNSW : HNSW Z :=
  {| Graph := list (nat * list Z);
     GraphJson := list (nat * list Z);
     newHNSW := fun _ _ _ _ => [];
     addPoint := fun g chunkId point => (g ++ [(chunkId, point)], true);
     searchKNN := fun g query k =>
       match g with
       | [] => None
       | _ =>
           Some (firstn k
                   (List.filter (fun hit => (0 <? snd hit)%Z)
                      (fold_right insertBySimilarity []
                         (map (fun entry => (fst entry, similarity query (snd entry))) g))))
       end;
     toJSON := fun g => g;
     fromJSON := fun indexJson => Some indexJson |}.

Definition toyConfig : IndexConfig :=
  {| embeddingDimension := 2; indexPath := Some (js "memvid_index");
     indexM := Some 16; indexEfConstruction := Some 200; indexMetric := None |}.

Definition emptyWorld : World :=
  {| files := ∅; embedCalls := [] |}.

Definition toyManager : HNSWIndexManager :=
  initIndex (newManager toyConfig).

(** [toyManager] after [addChunks(["alpha", "be"], [0, 1])]. *)
Definition populated : HNSWIndexManager :=
  snd (fst (addChunks [js "alpha"; js "be"] [0; 1] toyManager emptyWorld)).

(** A manager on the graph that scores by similarity, initialized, and
    the same after [addChunks(["alpha", "be"], [0, 1])]. *)
Definition emptyBySimilarity : @HNSWIndexManager Z similarityHNSW :=
  @initIndex Z similarityHNSW (@newManager Z similarityHNSW toyConfig).

Definition noFiles : @World Z similarityHNSW :=
  {| files := ∅; embedCalls := [] |}.

Definition populatedBySimilarity : @HNSWIndexManager Z similarityHNSW :=
  snd (fst (@addChunks Z toyModel similarityHNSW [js "alpha"; js "be"] [0; 1]
              emptyBySimilarity noFiles)).

(** A stand-in for pako: every code unit stored as two bytes. *)
Fixpoint unpairBytes (bytes : list byte) : option jsstring :=
  match bytes with
  | [] => Some []
  | hi :: lo :: rest =>
      match unpairBytes rest with
      | Some s => Some ((Byte.to_N hi * 256 + Byte.to_N lo)%N :: s)
      | None => None
      end
  | [_] => None
  end.

#[export] Instance toyPako : Utils.Pako :=
  {| Utils.gzip := fun s =>
       if forallb (fun c => (c <? 65536)%N) s
       then Some (concat (map (fun c => [Utils.toUint8 (c / 256); Utils.toUint8 c]) s))
       else None;
     Utils.ungzip := unpairBytes |}.

(** A stand-in for btoa/atob: the identity on strings of bytes. *)
#[export] Instance toyBase64 : Utils.Base64 :=
  {| Utils.btoa := fun s => if forallb (fun c => (c <? 256)%N) s then Some s else None;
     Utils.atob := fun s => if forallb (fun c => (c <? 256)%N) s then Some s else None |}.

(** A QR renderer that holds up to 2953 bytes. *)
#[export] Instance toyQrCode : Utils.QrCode :=
  {| Utils.toBuffer := fun data _ =>
       if (N.of_nat (length data) <=? 2953)%N then Some (map Utils.toUint8 data) else None |}.

(** JSON for texts without quotes or escapes. [parseChunkText] reads the
    text between the quotes of a leading ["text"] property. *)
Fixpoint upToQuote (s : jsstring) : option jsstring :=
  match s with
  | [] => None
  | c :: rest =>
      if (c =? 34)%N then Some []
      else match upToQuote rest with Some t => Some (c :: t) | None => None end
  end.

#[export] Instance toyJson : Json :=
  {| stringifyString := fun s => dquote ++ s ++ dquote;
     parseChunkText := fun data =>
       let opening := js "{" ++ dquote ++ js "text" ++ dquote ++ js ":" ++ dquote in
       if startsWith data opening
       then match upToQuote (skipn (length opening) data) with
            | Some text => Some (Some text)
            | None => None
            end
       else None |}.

#[export] Instance toyVideoEncoder : VideoEncoder :=
  {| encodeVideo := fun frames _ _ => Some (concat (map snd frames)) |}.

(** A video in which frame 7 cannot be extracted and frame 8 holds a QR
    code that is not a payload; every other frame [n] holds the payload of
    the chunk ["chunk"]. *)
#[export] Instance toyReader : FrameReader :=
  {| readVideoFile := fun _ => None;
     readFrameQr := fun _ _ _ frameNumber =>
       match frameNumber with
       | Some 7 => None
       | Some 8 => Some (js "not a payload")
       | Some n => Some (Utils.compressPayload (Encoder.chunkPayload (js "chunk") n))
       | None => None
       end |}.

Definition toyMemvidConfig : Config.MemvidConfig :=
  {| Config.chunkSize := 1024; Config.overlap := 32; Config.codec := js "h264Wasm";
     Config.codecParameters := [(js "h264Wasm", Config.H264_CODEC_CONFIG_WASM)];
     Config.retrieval := {| Config.cache_size := 100; Config.max_workers := 4 |};
     Config.indexConfig := toyConfig;
     Config.llmConfig := {| Config.maxContextTokensForContext := 2000;
                            Config.maxTokens := 1024 |};
     Config.chatConfig := {| Config.chat_systemPrompt := None;
                             Config.chat_contextChunksPerQuery := 3;
                             Config.chat_maxHistoryLength := 2 |};
     Config.qr := None |}.

(** An index of three chunks at frames 7, 8 and 9, saved, and a retriever
    that has loaded it. *)
Definition indexed789 : HNSWIndexManager :=
  snd (fst (addChunks [js "seven77"; js "eight888"; js "nine99999"] [7; 8; 9]
                      toyManager emptyWorld)).

Definition savedWorld : World :=
  snd (save (Some (js "idx")) indexed789 emptyWorld).

Definition toyRetriever : Retriever.MemvidRetriever :=
  Retriever.newRetriever (Retriever.VideoBytes []) (js "idx") toyMemvidConfig savedWorld.

(** What the index answers to a query of seven characters, for one
    neighbour: the chunk at frame 7. *)
Definition hitOfFrame7 : list (@SearchResult Z) :=
  [{| chunk_id := 0;
      metadata_of := {| meta_id := 0; meta_frame := Some 7; meta_length := 7 |};
      distance := 0%Z |}].

(** A chunk whose payload is longer than 100 characters. *)
Definition longChunk : jsstring :=
  js "The quick brown fox jumps over the lazy dog. Pack my box with five dozen liquor jugs. Sphinx of black quartz, judge my vow.".

(** An encoder holding the three chunks ["a"], ["b"], ["c"]. *)
Definition threeChunks : Encoder.MemvidEncoder :=
  Encoder.withChunks (Encoder.newEncoder toyMemvidConfig) [js "a"; js "b"; js "c"].

End Toy.

(* ===================================================================== *)
(** * Definitions used to state the further properties                     *)
(* ===================================================================== *)

Section ChunkerTilings.
Import Utils.

(** Windows that tile a text from position [pos] on: each window is the
    stretch of the text that starts at its [start], it starts no later
    than where the windows before it have got to, it reaches at least as
    far, and the last one ends where the text ends. *)
Fixpoint tiles (text : jsstring) (pos : nat) (spans : list (nat * jsstring)) : Prop :=
  match spans with
  | [] => pos = length text
  | (start, chunk) :: rest =>
      start <= pos /\ pos <= start + length chunk
      /\ chunk = slice text start (start + length chunk)
      /\ tiles text (start + length chunk) rest
  end.

(** A chunk as the callers of the chunkers want it: not empty and at most
    [size] code units long. *)
Definition fitsSize (size : Z) (chunk : jsstring) : Prop :=
  chunk <> [] /\ (strLen chunk <= size)%Z.

(** The characters other than white space that the accumulation loop of
    [chunkText] holds: those of the chunks pushed so far and of the
    running chunk. *)
Definition heldText (st : list jsstring * jsstring) : jsstring :=
  nonWhiteSpace (concat (fst st)) ++ nonWhiteSpace (snd st).

End ChunkerTilings.

Section EncoderStatements.
Import Utils IndexManager Config Encoder.
Context {number : Type} {model : EmbeddingModel number} {hnsw : HNSW number}
        {pako : Pako} {base64 : Base64} {qrcode : QrCode} {json : Json}
        {ffmpeg : VideoEncoder}.

(** A run of [addText] calls on an encoder. *)
Definition addTexts (texts : list jsstring) (e : MemvidEncoder) : MemvidEncoder :=
  fold_left (fun e text => addText text e) texts e.

(** The QR image of a chunk at a frame number can be generated. *)
Definition qrReady (cfg : MemvidConfig) (entry : nat * jsstring) : bool :=
  match generateQrBuffer (chunkPayload (snd entry) (fst entry)) (qrConfigOf cfg) with
  | Some _ => true
  | None => false
  end.

(** The chunks that get a frame, each with its frame number: those whose
    QR image can be generated. *)
Definition framed (cfg : MemvidConfig) (chunks : list jsstring) : list (nat * jsstring) :=
  List.filter (qrReady cfg) (combine (seq 0 (length chunks)) chunks).

End EncoderStatements.

(** More small instances, to evaluate the model on. *)
Module Fixtures.
Import IndexManager Toy.

(** A configuration that registers no codec at all. *)
Definition noCodecConfig : Config.MemvidConfig :=
  {| Config.chunkSize := 1024; Config.overlap := 32; Config.codec := js "h264Wasm";
     Config.codecParameters := [];
     Config.retrieval := {| Config.cache_size := 100; Config.max_workers := 4 |};
     Config.indexConfig := Toy.toyConfig;
     Config.llmConfig := {| Config.maxContextTokensForContext := 2000;
                            Config.maxTokens := 1024 |};
     Config.chatConfig := {| Config.chat_systemPrompt := None;
                             Config.chat_contextChunksPerQuery := 3;
                             Config.chat_maxHistoryLength := 2 |};
     Config.qr := None |}.

(** An encoder with that configuration, holding two chunks. *)
Definition withoutCodec : Encoder.MemvidEncoder :=
  Encoder.withChunks (Encoder.newEncoder noCodecConfig) [js "a"; js "b"].

End Fixtures.

Section ManagerInvariant.
Import IndexManager.
Context {number : Type} {model : EmbeddingModel number} {hnsw : HNSW number}.

(** Every entry of the metadata map records its own key as its [id]. *)
Definition idsMatchKeys (m : HNSWIndexManager) : Prop :=
  Forall (fun entry => meta_id (snd entry) = fst entry) (metadata m).

(** What the operations of the manager keep true of it. *)
Definition consistent (m : HNSWIndexManager) : Prop :=
  wellFormed m /\ keysBelowNext m /\ idsMatchKeys m.

End ManagerInvariant.

Section ChatStatements2.
Import Chat.

(** A retrieved chunk as [getContext] appends it: followed by a blank
    line. *)
Definition contextPiece (chunk : option jsstring) : jsstring :=
  chunkToString chunk ++ [10%N; 10%N].

(** The first [n] chunks, each followed by a blank line. *)
Definition joinedPieces (n : nat) (contextChunks : list (option jsstring)) : jsstring :=
  concat (map contextPiece (firstn n contextChunks)).

End ChatStatements2.

Section RetrieverCalls.
Import Utils IndexManager Config Retriever.
Context {number : Type} {model : EmbeddingModel number} {hnsw : HNSW number}
        {pako : Pako} {base64 : Base64} {json : Json} {reader : FrameReader}
        {arith : NumberArith number}.

(** The queries that a client can make on a retriever. *)
Inductive Call :=
| Search (query : jsstring) (top_k : nat)
| SearchWithMetadata (query : jsstring) (top_k : nat)
| GetChunkById (chunkId : Z)
| GetContextWindow (chunkId windowSize : Z)
| PrefetchFrames (frameNumbers : list nat).

(** The retriever and the world that a query leaves behind, whether it
    returned or threw. *)
Definition perform (call : Call) (r : MemvidRetriever) (w : World)
    : MemvidRetriever * World :=
  match call with
  | Search query top_k =>
      (snd (fst (search query top_k r w)), snd (search query top_k r w))
  | SearchWithMetadata query top_k =>
      (snd (fst (searchWithMetadata query top_k r w)),
       snd (searchWithMetadata query top_k r w))
  | GetChunkById chunkId => (snd (getChunkById chunkId r), w)
  | GetContextWindow chunkId windowSize => (snd (getContextWindow chunkId windowSize r), w)
  | PrefetchFrames frameNumbers => (snd (prefetchFrames frameNumbers r), w)
  end.

Definition performAll (calls : list Call) (r : MemvidRetriever) (w : World)
    : MemvidRetriever * World :=
  fold_left (fun st call => perform call (fst st) (snd st)) calls (r, w).

(** How the frame cache of a retriever may differ after a query: same
    capacity, every entry still there with the same value, within the
    capacity if it was, and unchanged if it was full. *)
Definition cacheGrows (r r' : MemvidRetriever) : Prop :=
  _cacheSize r' = _cacheSize r
  /\ _frameCache r ⊆ _frameCache r'
  /\ (size (_frameCache r) <= _cacheSize r -> size (_frameCache r') <= _cacheSize r)
  /\ (_cacheSize r <= size (_frameCache r) -> _frameCache r' = _frameCache r).

(** What the extractions number [n], [n + 1], ... decode for the frames
    of a list. *)
Fixpoint fetchedFrom (n : nat) (video : list byte) (rate : nat)
    (frames : list (option nat)) : list (option nat * option jsstring) :=
  match frames with
  | [] => []
  | frameNum :: rest =>
      (frameNum, decodedAt n video rate frameNum) :: fetchedFrom (S n) video rate rest
  end.

(** Recording one fetched frame in [results] and, if there is room, in
    the cache. *)
Definition storeOne (capacity : nat)
    (st : gmap (option nat) (option jsstring) * gmap (option nat) (option jsstring))
    (entry : option nat * option jsstring)
    : gmap (option nat) (option jsstring) * gmap (option nat) (option jsstring) :=
  (<[fst entry := snd entry]> (fst st),
   if size (snd st) <? capacity then <[fst entry := snd entry]> (snd st) else snd st).

Definition withExtractions (r : MemvidRetriever) (frames : list (option nat))
    : MemvidRetriever :=
  fold_left withExtraction frames r.

(** The frames of a list that are not in a cache. *)
Definition uncached (cache : gmap (option nat) (option jsstring))
    (frames : list (option nat)) : list (option nat) :=
  List.filter (fun f => match cache !! f with None => true | Some _ => false end) frames.

(** The cache slots that a query takes before it first reaches a frame:
    one for each distinct frame of the results before it that is not in
    the cache yet. Results whose frame is cached, or was met earlier in
    the query, take none. *)
Definition slotsBefore (frameNumber : option nat)
    (cache : gmap (option nat) (option jsstring)) (frames : list (option nat)) : nat :=
  length (uncached cache (distinctFrames (framesBefore frameNumber frames))).

(** The retriever as a query finds it when it reaches the first result
    that refers to the frame. *)
Definition whenReaching (frameNumber : option nat)
    (results : list (@SearchResult number)) (r : MemvidRetriever) : MemvidRetriever :=
  snd (decodeLoop
         (firstn (length (framesBefore frameNumber (frameNumbers results))) results) r []).

(** What a query that takes the retriever from [r] to [r'] decodes for a
    frame: what the cache of [r] holds for it or, when it holds nothing,
    what one of the extractions made during the query decoded. *)
Definition decodedFor (r r' : MemvidRetriever) (video : list byte)
    (frameNumber : option nat) (decoded : option jsstring) : Prop :=
  _frameCache r !! frameNumber = Some decoded
  \/ (_frameCache r !! frameNumber = None
      /\ exists n, length (extractions r) <= n
                   /\ nth_error (extractions r') n = Some frameNumber
                   /\ decoded = decodedAt n video (fps r) frameNumber).

(** The text that [search] gives for a hit: that of its frame, from what
    was decoded for the frame. *)
Definition textOfHit (r r' : MemvidRetriever) (video : list byte)
    (hit : @SearchResult number) (text : option jsstring) : Prop :=
  exists decoded,
    decodedFor r r' video (meta_frame (metadata_of hit)) decoded
    /\ text = textOfFrame (meta_frame (metadata_of hit)) decoded.

(** The same when the frame reader is steady: the text of what the cache
    holds for the frame of the hit or, failing that, of what the frame
    decodes to. *)
Definition steadyText (r : MemvidRetriever) (video : list byte)
    (hit : @SearchResult number) : option jsstring :=
  let frameNum := meta_frame (metadata_of hit) in
  textOfFrame frameNum
    (match _frameCache r !! frameNum with
     | Some cached => cached
     | None => decodedAt 0 video (fps r) frameNum
     end).

(** The frame reader answers the same for a frame whenever it is asked. *)
Definition steadyReader (video : list byte) (rate : nat) : Prop :=
  forall n frameNum, readFrameQr n video rate frameNum = readFrameQr 0 video rate frameNum.

End RetrieverCalls.

Module Fixtures2.
Import Toy.

(** Integer arithmetic standing in for the arithmetic of doubles. *)
#[export] Instance toyArith : NumberArith Z :=
  {| numOne := 1%Z; numAdd := Z.add; numDiv := Z.div |}.

(** A retriever on the same index and video whose cache holds two
    frames, and the same after a query that hit frame 9 alone. *)
Definition tightConfig : Config.MemvidConfig :=
  {| Config.chunkSize := Config.chunkSize toyMemvidConfig;
     Config.overlap := Config.overlap toyMemvidConfig;
     Config.codec := Config.codec toyMemvidConfig;
     Config.codecParameters := Config.codecParameters toyMemvidConfig;
     Config.retrieval := {| Config.cache_size := 2; Config.max_workers := 4 |};
     Config.indexConfig := Config.indexConfig toyMemvidConfig;
     Config.llmConfig := Config.llmConfig toyMemvidConfig;
     Config.chatConfig := Config.chatConfig toyMemvidConfig;
     Config.qr := Config.qr toyMemvidConfig |}.

Definition tightRetriever : Retriever.MemvidRetriever :=
  Retriever.newRetriever (Retriever.VideoBytes []) (js "idx") tightConfig savedWorld.

Definition warmedRetriever : Retriever.MemvidRetriever :=
  snd (fst (Retriever.search (js "123456789") 1 tightRetriever savedWorld)).

(** What the index answers to a query of nine characters, for two
    neighbours: the chunk at frame 9, then the chunk at frame 8. *)
Definition hitsOfFrames98 : list (@IndexManager.SearchResult Z) :=
  [{| IndexManager.chunk_id := 2;
      IndexManager.metadata_of :=
        {| IndexManager.meta_id := 2; IndexManager.meta_frame := Some 9;
           IndexManager.meta_length := 9 |};
      IndexManager.distance := 0%Z |};
   {| IndexManager.chunk_id := 1;
      IndexManager.metadata_of :=
        {| IndexManager.meta_id := 1; IndexManager.meta_frame := Some 8;
           IndexManager.meta_length := 8 |};
      IndexManager.distance := 1%Z |}].

(** A world in which no index was saved. *)
Definition nothingSaved : IndexManager.World := emptyWorld.

End Fixtures2.

(* ===================================================================== *)
(** * Properties                                                           *)
(* ===================================================================== *)

(** ** Strings: trimming and white space *)

Lemma nonWhiteSpace_app a b :
  nonWhiteSpace (a ++ b) = nonWhiteSpace a ++ nonWhiteSpace b.
Proof. apply List.filter_app. Qed.

Lemma nonWhiteSpace_rev s : nonWhiteSpace (rev s) = rev (nonWhiteSpace s).
Proof.
  induction s as [|c s IH]; [reflexivity|].
  simpl rev. rewrite nonWhiteSpace_app, IH. simpl.
  destruct (isWhiteSpace c); simpl; [now rewrite app_nil_r | reflexivity].
Qed.

Lemma nonWhiteSpace_trimStart s : nonWhiteSpace (trimStart s) = nonWhiteSpace s.
Proof.
  induction s as [|c s IH]; [reflexivity|].
  simpl. destruct (isWhiteSpace c) eqn:E; simpl; [exact IH | now rewrite E].
Qed.

Lemma nonWhiteSpace_trim s : nonWhiteSpace (trim s) = nonWhiteSpace s.
Proof.
  unfold trim, trimEnd.
  rewrite nonWhiteSpace_rev, nonWhiteSpace_trimStart, nonWhiteSpace_rev.
  rewrite rev_involutive. apply nonWhiteSpace_trimStart.
Qed.

Lemma trimStart_blank s : nonWhiteSpace s = [] -> trimStart s = [].
Proof.
  induction s as [|c s IH]; [reflexivity|].
  simpl. destruct (isWhiteSpace c); simpl; [exact IH | discriminate].
Qed.

Lemma trim_blank s : nonWhiteSpace s = [] -> trim s = [].
Proof.
  intros H. unfold trim, trimEnd. now rewrite (trimStart_blank s H).
Qed.

Lemma length_trimStart s : length (trimStart s) <= length s.
Proof.
  induction s as [|c s IH]; simpl; [lia|].
  destruct (isWhiteSpace c); simpl; lia.
Qed.

Lemma length_trim s : length (trim s) <= length s.
Proof.
  unfold trim, trimEnd. rewrite length_rev.
  etransitivity; [apply length_trimStart|].
  rewrite length_rev. apply length_trimStart.
Qed.

Lemma trimStart_tight s : startsTight s = true -> trimStart s = s.
Proof.
  destruct s as [|c s]; [reflexivity|]. simpl.
  now destruct (isWhiteSpace c).
Qed.

Lemma startsTight_trimStart s : startsTight (trimStart s) = true.
Proof.
  induction s as [|c s IH]; [reflexivity|].
  simpl. destruct (isWhiteSpace c) eqn:E; [exact IH | simpl; now rewrite E].
Qed.

Lemma trim_idempotent s : trim (trim s) = trim s.
Proof.
  unfold trim, trimEnd.
  set (t := trimStart (rev (trimStart s))).
  assert (Ht : startsTight t = true) by apply startsTight_trimStart.
  (* [rev t] is a prefix of [trimStart s], whose head is not white space *)
  assert (Hpre : exists p, rev (trimStart s) = p ++ t).
  { subst t. generalize (rev (trimStart s)). intros l.
    induction l as [|c l [p Hp]]; [now exists []|].
    simpl. destruct (isWhiteSpace c).
    - exists (c :: p). simpl. now rewrite <- Hp.
    - now exists []. }
  destruct Hpre as [p Hp].
  assert (Hs : trimStart s = rev t ++ rev p).
  { rewrite <- rev_app_distr, <- Hp. now rewrite rev_involutive. }
  assert (Hh : startsTight (rev t) = true).
  { pose proof (startsTight_trimStart s) as H. rewrite Hs in H.
    destruct (rev t); [reflexivity | exact H]. }
  rewrite (trimStart_tight _ Hh), rev_involutive.
  now rewrite (trimStart_tight _ Ht).
Qed.

(** ** The sentence splitter consumes white space only *)

Import Utils.

Lemma countWhile_le p s : countWhile p s <= length s.
Proof. induction s as [|c s IH]; simpl; [lia|]. destruct (p c); simpl; lia. Qed.

Lemma countWhile_forallb p s : forallb p (firstn (countWhile p s) s) = true.
Proof.
  induction s as [|c s IH]; [reflexivity|].
  simpl. destruct (p c) eqn:E; simpl; [now rewrite E | reflexivity].
Qed.

Lemma isLF_isWhiteSpace c : isLF c = true -> isWhiteSpace c = true.
Proof. unfold isLF. intros H%N.eqb_eq. now subst c. Qed.

Lemma forallb_weaken (p q : N -> bool) s :
  (forall c, p c = true -> q c = true) -> forallb p s = true -> forallb q s = true.
Proof.
  intros Hpq. induction s as [|c s IH]; [reflexivity|].
  simpl. intros [Hc Hs]%andb_prop. now rewrite (Hpq c Hc), IH.
Qed.

Lemma matchAt_spec prev s n :
  matchAt prev s = Some n ->
  1 <= n /\ n <= length s /\ forallb isWhiteSpace (firstn n s) = true.
Proof.
  unfold matchAt.
  destruct (_ && (0 <? countWhile isWhiteSpace s)) eqn:E1.
  { apply andb_prop in E1 as [_ E1]. apply Nat.ltb_lt in E1.
    intros [= <-]. split; [lia|]. split; [apply countWhile_le|].
    apply countWhile_forallb. }
  destruct (2 <=? countWhile isLF s) eqn:E2.
  { apply Nat.leb_le in E2. intros [= <-]. split; [lia|].
    split; [apply countWhile_le|].
    apply (forallb_weaken isLF); [apply isLF_isWhiteSpace | apply countWhile_forallb]. }
  destruct s as [|c1 [|c2 [|c3 rest]]]; try discriminate.
  destruct ((c1 =? 13)%N && (c2 =? 10)%N && (c3 =? 13)%N
            && (1 <=? countWhile isLF rest)) eqn:E3; [|discriminate].
  apply andb_prop in E3 as [E3 _]. apply andb_prop in E3 as [E3 H3].
  apply andb_prop in E3 as [H1 H2].
  apply N.eqb_eq in H1, H2, H3. subst c1 c2 c3.
  intros [= <-]. pose proof (countWhile_le isLF rest).
  split; [lia|]. split; [simpl; lia|].
  change (3 + countWhile isLF rest) with (S (S (S (countWhile isLF rest)))).
  simpl firstn. simpl forallb.
  apply (forallb_weaken isLF); [apply isLF_isWhiteSpace | apply countWhile_forallb].
Qed.

Lemma splitLoop_weight s : forall prev skip cur,
  weight (splitLoop prev skip cur s) <= length cur + length s + 1.
Proof.
  induction s as [|c rest IH]; intros prev skip cur.
  - unfold weight. simpl. lia.
  - simpl. destruct skip as [|k].
    + destruct (matchAt prev (c :: rest)) as [[|k]|].
      * specialize (IH (Some c) 0 (cur ++ [c])). rewrite length_app in IH. simpl in IH. lia.
      * specialize (IH (Some c) k []). unfold weight in *. simpl in *. lia.
      * specialize (IH (Some c) 0 (cur ++ [c])). rewrite length_app in IH. simpl in IH. lia.
    + specialize (IH (Some c) k cur). lia.
Qed.

Lemma nonWhiteSpace_cons c s :
  nonWhiteSpace (c :: s) = nonWhiteSpace [c] ++ nonWhiteSpace s.
Proof. apply (nonWhiteSpace_app [c] s). Qed.

Lemma nonWhiteSpace_cons_ws c s :
  isWhiteSpace c = true -> nonWhiteSpace (c :: s) = nonWhiteSpace s.
Proof. intros H. unfold nonWhiteSpace. simpl. now rewrite H. Qed.

Lemma splitLoop_nonWhiteSpace s : forall prev skip cur,
  forallb isWhiteSpace (firstn skip s) = true ->
  nonWhiteSpace (concat (splitLoop prev skip cur s))
  = nonWhiteSpace cur ++ nonWhiteSpace s.
Proof.
  induction s as [|c rest IH]; intros prev skip cur Hskip.
  - simpl. now rewrite !app_nil_r.
  - simpl splitLoop. destruct skip as [|k].
    + destruct (matchAt prev (c :: rest)) as [[|k]|] eqn:E.
      * rewrite IH by reflexivity.
        now rewrite nonWhiteSpace_app, <- app_assoc, <- nonWhiteSpace_cons.
      * apply matchAt_spec in E as (_ & _ & Hws). simpl in Hws.
        apply andb_prop in Hws as [Hc Hws].
        simpl concat. rewrite nonWhiteSpace_app, IH by exact Hws.
        now rewrite (nonWhiteSpace_cons_ws c rest Hc).
      * rewrite IH by reflexivity.
        now rewrite nonWhiteSpace_app, <- app_assoc, <- nonWhiteSpace_cons.
    + simpl in Hskip. apply andb_prop in Hskip as [Hc Hws].
      rewrite IH by exact Hws. now rewrite (nonWhiteSpace_cons_ws c rest Hc).
Qed.

Lemma splitSentences_nonWhiteSpace text :
  nonWhiteSpace (concat (splitSentences text)) = nonWhiteSpace text.
Proof. unfold splitSentences. now rewrite splitLoop_nonWhiteSpace. Qed.

Lemma splitSentences_weight text :
  weight (splitSentences text) <= length text + 1.
Proof. unfold splitSentences. pose proof (splitLoop_weight text None 0 []). simpl in *. lia. Qed.

(** ** The chunker on the inputs of the repository's tests *)

Example simpleChunkText_by_character_limits :
  simpleChunkText (js "abcdefghijklmnopqrstuvwxyz") 10 2
  = [js "abcdefghij"; js "ijklmnopqr"; js "qrstuvwxyz"; js "yz"].
Proof. vm_compute. reflexivity. Qed.

Example simpleChunkText_zero_overlap :
  simpleChunkText (js "abcdefghijkl") 4 0 = [js "abcd"; js "efgh"; js "ijkl"].
Proof. vm_compute. reflexivity. Qed.

Example simpleChunkText_overlap :
  simpleChunkText (js "abcdefghijkl") 5 2
  = [js "abcde"; js "defgh"; js "ghijk"; js "jkl"].
Proof. vm_compute. reflexivity. Qed.

Example simpleChunkText_short_and_empty :
  simpleChunkText (js "abc") 5 1 = [js "abc"]
  /\ simpleChunkText [] 5 1 = []
  /\ simpleChunkText (js "abc") 1 0 = [js "a"; js "b"; js "c"].
Proof. repeat split; vm_compute; reflexivity. Qed.

Example chunkText_short_text : chunkText (js "Short text.") 100 10 = [js "Short text."].
Proof. vm_compute. reflexivity. Qed.

Example chunkText_empty_and_blank :
  chunkText [] 100 10 = []
  /\ chunkText (js "   " ++ [10; 32; 9; 32]%N) 100 10 = [].
Proof. split; vm_compute; reflexivity. Qed.

Example chunkText_punctuation_and_newlines :
  chunkText (js "First sentence." ++ [10; 10]%N ++ js "Second sentence? Yes! Third sentence"
             ++ [10%N] ++ js "ends here. Fourth one.") 30 5
  = [js "First sentence."; js "Second sentence? Yes!";
     js "Third sentence" ++ [10%N] ++ js "ends here."; js "Fourth one."].
Proof. vm_compute. reflexivity. Qed.

Example chunkText_exactly_at_chunk_size :
  chunkText (js "This is exactly thirty characters.") 30 5
  = [js "This is exactly thirty charact"; js "aracters."].
Proof. vm_compute. reflexivity. Qed.

(** ** The character splitter terminates within its fuel *)

(** The loop index grows by at least one half per iteration, so
    [2 * length text] iterations always reach the end of the text: more
    fuel changes nothing. *)
Lemma simpleChunkLoop_enough_fuel text size2 step2 :
  (0 < size2)%Z -> (0 < step2)%Z ->
  forall fuel i2 chunks extra,
    (2 * Z.of_nat (length text) - i2 <= Z.of_nat fuel)%Z ->
    simpleChunkLoop (fuel + extra) text size2 step2 i2 chunks
    = simpleChunkLoop fuel text size2 step2 i2 chunks.
Proof.
  intros Hsize Hstep. induction fuel as [|fuel IH]; intros i2 chunks extra Hfuel.
  - simpl. destruct extra as [|extra]; [reflexivity|]. simpl.
    assert (E : (i2 <? 2 * Z.of_nat (length text))%Z = false) by (apply Z.ltb_ge; lia).
    now rewrite E.
  - cbn [Nat.add simpleChunkLoop].
    destruct (i2 <? 2 * Z.of_nat (length text))%Z eqn:E; [|reflexivity].
    apply Z.ltb_lt in E. apply IH.
    destruct ((Z.min (i2 + size2) (2 * Z.of_nat (length text)) <=? i2 + step2)%Z
              && (Z.min (i2 + size2) (2 * Z.of_nat (length text))
                  <? 2 * Z.of_nat (length text))%Z); lia.
Qed.

Lemma simpleChunkText_fuel text size overlap extra :
  simpleChunkText text size overlap
  = match text with
    | [] => []
    | _ =>
        if (size <=? 0)%Z then []
        else
          let overlap2 := if (size <=? overlap)%Z then size else (2 * overlap)%Z in
          List.filter (fun chunk => 0 <? length chunk)
            (simpleChunkLoop (2 * length text + extra) text (2 * size)
                             (2 * size - overlap2) 0 [])
    end.
Proof.
  unfold simpleChunkText. destruct text as [|c text]; [reflexivity|].
  destruct (size <=? 0)%Z eqn:Es; [reflexivity|]. apply Z.leb_gt in Es.
  cbv zeta. rewrite simpleChunkLoop_enough_fuel; [reflexivity | lia | | lia].
  destruct (size <=? overlap)%Z eqn:Eo; [lia|]. apply Z.leb_gt in Eo. lia.
Qed.

(** ** A text that fits in one chunk *)

Lemma tweight_filter_le pieces :
  tweight (List.filter isSentence pieces) <= weight pieces.
Proof.
  unfold tweight, weight.
  induction pieces as [|x l IH]; simpl; [lia|].
  pose proof (length_trim x).
  destruct (isSentence x); simpl; lia.
Qed.

Lemma occupied_joinStep cur x :
  occupied (joinStep cur x) <= occupied cur + S (length (trim x)).
Proof.
  unfold joinStep. destruct cur as [|c cur].
  - simpl. unfold occupied. destruct (trim x); simpl; lia.
  - assert (E : (0 <? strLen (c :: cur))%Z = true)
      by (apply Z.ltb_lt; unfold strLen; simpl; lia).
    rewrite E. unfold occupied. simpl. rewrite !length_app. simpl. lia.
Qed.

Lemma occupied_fold_joinStep l : forall cur,
  occupied (fold_left joinStep l cur) <= occupied cur + tweight l.
Proof.
  unfold tweight.
  induction l as [|x l IH]; intros cur; simpl; [lia|].
  specialize (IH (joinStep cur x)).
  pose proof (occupied_joinStep cur x). lia.
Qed.

Lemma nonWhiteSpace_joinStep cur x :
  nonWhiteSpace (joinStep cur x) = nonWhiteSpace cur ++ nonWhiteSpace x.
Proof.
  unfold joinStep.
  destruct (0 <? strLen cur)%Z;
    rewrite ?nonWhiteSpace_app, nonWhiteSpace_trim; [|reflexivity].
  change (nonWhiteSpace (js " ")) with (@nil N). now rewrite app_nil_r.
Qed.

Lemma nonWhiteSpace_fold_joinStep l : forall cur,
  nonWhiteSpace (fold_left joinStep l cur)
  = nonWhiteSpace cur ++ nonWhiteSpace (concat l).
Proof.
  induction l as [|x l IH]; intros cur; simpl; [now rewrite app_nil_r|].
  now rewrite IH, nonWhiteSpace_joinStep, nonWhiteSpace_app, app_assoc.
Qed.

Lemma nonWhiteSpace_filter_isSentence pieces :
  nonWhiteSpace (concat (List.filter isSentence pieces))
  = nonWhiteSpace (concat pieces).
Proof.
  induction pieces as [|x l IH]; [reflexivity|].
  simpl. destruct (isSentence x) eqn:E; simpl.
  - now rewrite !nonWhiteSpace_app, IH.
  - rewrite nonWhiteSpace_app, IH.
    assert (Hx : nonWhiteSpace x = []); [|now rewrite Hx].
    unfold isSentence in E. apply andb_false_iff in E as [E|E];
      apply Nat.ltb_ge in E.
    + now destruct x; [|simpl in E; lia].
    + rewrite <- nonWhiteSpace_trim. now destruct (trim x); [|simpl in E; lia].
Qed.

Lemma chunkStep_fits s o cur x :
  isSentence x = true ->
  (Z.of_nat (occupied cur + S (length (trim x))) <= s + 1)%Z ->
  chunkStep s o ([], cur) x = ([], joinStep cur x).
Proof.
  intros Hx Hfit.
  unfold isSentence in Hx. apply andb_prop in Hx as [_ Hx]. apply Nat.ltb_lt in Hx.
  unfold chunkStep.
  assert (E0 : (strLen (trim x) =? 0)%Z = false) by (apply Z.eqb_neq; unfold strLen; lia).
  assert (E1 : (s <? strLen (trim x))%Z = false) by (apply Z.ltb_ge; unfold strLen; lia).
  rewrite E0, E1.
  assert (E2 : ((s <? strLen cur + (if (0 <? strLen cur)%Z then 1 else 0)
                       + strLen (trim x))%Z && (0 <? strLen cur)%Z) = false).
  { apply andb_false_iff. left. apply Z.ltb_ge. unfold strLen, occupied in *.
    destruct cur; simpl in *; lia. }
  rewrite E2. reflexivity.
Qed.

(** While everything still to come fits, the loop never flushes and never
    falls back to the character splitter. *)
Lemma fold_chunkStep_fits s o l : forall cur,
  forallb isSentence l = true ->
  (Z.of_nat (occupied cur + tweight l) <= s + 1)%Z ->
  fold_left (chunkStep s o) l ([], cur) = ([], fold_left joinStep l cur).
Proof.
  induction l as [|x l IH]; intros cur Hl Hfit; [reflexivity|].
  simpl in Hl. apply andb_prop in Hl as [Hx Hl].
  pose proof (occupied_joinStep cur x) as Hocc.
  unfold tweight in Hfit. simpl in Hfit. fold (tweight l) in Hfit.
  cbn [fold_left]. rewrite chunkStep_fits; [|exact Hx|lia].
  apply IH; [exact Hl | lia].
Qed.

Lemma trim_nonempty_iff s : trim s <> [] <-> nonWhiteSpace s <> [].
Proof.
  split; intros H E; apply H.
  - now apply trim_blank.
  - now rewrite <- nonWhiteSpace_trim, E.
Qed.

Lemma chunkText_fits text s o :
  trim text <> [] -> (strLen text <= s)%Z ->
  chunkText text s o = [joinSentences text].
Proof.
  intros Hne Hlen.
  assert (Hnws : nonWhiteSpace text <> []) by now apply trim_nonempty_iff.
  unfold chunkText.
  destruct text as [|c0 text0] eqn:Etext; [now destruct Hne|]. rewrite <- Etext in *.
  assert (E1 : (length (trim text) =? 0) = false).
  { apply Nat.eqb_neq. now destruct (trim text). }
  assert (E2 : (s <=? 0)%Z = false).
  { apply Z.leb_gt. unfold strLen in Hlen. rewrite Etext in Hlen. simpl length in Hlen. lia. }
  rewrite E1, E2. fold isSentence.
  set (sentences := List.filter isSentence (splitSentences text)).
  set (o' := if (s <=? _)%Z then _ else _). clearbody o'.
  assert (Hcat : nonWhiteSpace (concat sentences) = nonWhiteSpace text).
  { subst sentences. now rewrite nonWhiteSpace_filter_isSentence, splitSentences_nonWhiteSpace. }
  destruct sentences as [|x l] eqn:Es; [simpl in Hcat; congruence|]. rewrite <- Es in *.
  rewrite fold_chunkStep_fits.
  - fold (joinSentences text).
    assert (Hj : nonWhiteSpace (joinSentences text) <> []).
    { unfold joinSentences. fold sentences.
      now rewrite nonWhiteSpace_trim, nonWhiteSpace_fold_joinStep, Hcat. }
    unfold joinSentences in *. fold sentences in Hj |- *.
    destruct (trim (fold_left joinStep sentences [])) as [|c t]; [now destruct Hj|].
    reflexivity.
  - subst sentences. apply forallb_forall. intros y Hy.
    now apply List.filter_In in Hy.
  - pose proof (tweight_filter_le (splitSentences text)).
    pose proof (splitSentences_weight text).
    fold sentences in H. unfold occupied, strLen in *. simpl. lia.
Qed.

(** [C7] (as amended). For every text whose trimmed form is non-empty and
    whose length is at most s (s > 0), [chunkText text s o] returns exactly
    one chunk. The chunk is made of the sentences of the text, trimmed and
    joined by single spaces: it has exactly the non-white-space characters
    of the text in their order, it is at most s long, and it equals
    [trim text] when the text contains no sentence break. *)
Theorem chunkText_short_text_single_chunk (text : jsstring) (s o : Z) :
  trim text <> [] -> (strLen text <= s)%Z -> (0 < s)%Z ->
  exists chunk,
    chunkText text s o = [chunk]
    /\ chunk = joinSentences text
    /\ nonWhiteSpace chunk = nonWhiteSpace text
    /\ (strLen chunk <= s)%Z
    /\ (splitSentences text = [text] -> chunk = trim text).
Proof.
  intros Hne Hlen _. exists (joinSentences text).
  split; [now apply chunkText_fits|]. split; [reflexivity|].
  assert (Hcat : nonWhiteSpace (joinSentences text) = nonWhiteSpace text).
  { unfold joinSentences.
    now rewrite nonWhiteSpace_trim, nonWhiteSpace_fold_joinStep,
      nonWhiteSpace_filter_isSentence, splitSentences_nonWhiteSpace. }
  split; [exact Hcat|]. split.
  - unfold joinSentences.
    set (c := fold_left joinStep _ []).
    pose proof (length_trim c) as Ht.
    pose proof (occupied_fold_joinStep
                  (List.filter isSentence (splitSentences text)) []) as Ho.
    fold c in Ho.
    pose proof (tweight_filter_le (splitSentences text)).
    pose proof (splitSentences_weight text).
    unfold occupied, strLen in *. simpl in Ho.
    destruct c; simpl in *; lia.
  - intros Hsplit. unfold joinSentences. rewrite Hsplit. simpl.
    assert (Hs : isSentence text = true).
    { unfold isSentence. apply andb_true_intro.
      split; apply Nat.ltb_lt.
      - destruct text; [now destruct Hne | simpl; lia].
      - destruct (trim text); [now destruct Hne | simpl; lia]. }
    rewrite Hs. simpl. unfold joinStep. simpl. apply trim_idempotent.
Qed.

Lemma chunkText_short_text_single_chunk_witness :
  exists chunk,
    chunkText (js "A.  B.") 100 10 = [chunk]
    /\ chunk = joinSentences (js "A.  B.")
    /\ nonWhiteSpace chunk = nonWhiteSpace (js "A.  B.")
    /\ (strLen chunk <= 100)%Z
    /\ (splitSentences (js "A.  B.") = [js "A.  B."] -> chunk = trim (js "A.  B.")).
Proof.
  apply (chunkText_short_text_single_chunk (js "A.  B.") 100 10).
  - vm_compute. discriminate.
  - vm_compute. discriminate.
  - lia.
Defined.

(** [C7] as stated fails: two spaces after a full stop are a sentence
    break, and the two sentences come back joined by one space. *)
Lemma chunkText_short_text_not_trim :
  ~ (forall (text : jsstring) (s o : Z),
       trim text <> [] -> (strLen text <= s)%Z -> (0 < s)%Z ->
       chunkText text s o = [trim text]).
Proof.
  intros H. specialize (H (js "A.  B.") 100%Z 10%Z).
  assert (Hc : chunkText (js "A.  B.") 100 10 = [js "A. B."]) by (vm_compute; reflexivity).
  rewrite Hc in H.
  assert (Ht : trim (js "A.  B.") = js "A.  B.") by (vm_compute; reflexivity).
  rewrite Ht in H.
  assert (Hfalse : [js "A. B."] = [js "A.  B."]).
  { apply H; [vm_compute; discriminate | vm_compute; discriminate | lia]. }
  vm_compute in Hfalse. discriminate.
Qed.

(* ===================================================================== *)
(** ** JavaScript maps                                                     *)
(* ===================================================================== *)

Section JsMapFacts.
Context {V : Type}.
Implicit Types (m : list (nat * V)) (k : nat) (v : V).

Lemma mapGet_mapSet_eq m k v : mapGet k (mapSet k v m) = Some v.
Proof.
  induction m as [|[k' v'] m IH]; simpl.
  - now rewrite Nat.eqb_refl.
  - destruct (k' =? k) eqn:E; simpl; [now rewrite Nat.eqb_refl | now rewrite E].
Qed.

Lemma mapGet_mapSet_ne m k k' v : k <> k' -> mapGet k' (mapSet k v m) = mapGet k' m.
Proof.
  intros Hne. induction m as [|[k0 v0] m IH]; simpl.
  - destruct (k =? k') eqn:E; [apply Nat.eqb_eq in E; congruence | reflexivity].
  - destruct (k0 =? k) eqn:E; simpl.
    + apply Nat.eqb_eq in E. subst k0.
      destruct (k =? k') eqn:E'; [apply Nat.eqb_eq in E'; congruence | reflexivity].
    + destruct (k0 =? k'); [reflexivity | exact IH].
Qed.

Lemma mapSet_fresh m k v : ~ In k (map fst m) -> mapSet k v m = m ++ [(k, v)].
Proof.
  induction m as [|[k' v'] m IH]; simpl; [reflexivity|].
  intros Hnin. destruct (k' =? k) eqn:E.
  - apply Nat.eqb_eq in E. tauto.
  - f_equal. apply IH. tauto.
Qed.

Lemma mapSet_keys m k v :
  forall k', In k' (map fst (mapSet k v m)) <-> k' = k \/ In k' (map fst m).
Proof.
  intros k'. induction m as [|[k0 v0] m IH]; simpl; [intuition congruence|].
  destruct (k0 =? k) eqn:E; simpl.
  - apply Nat.eqb_eq in E. subst k0. intuition congruence.
  - rewrite IH. intuition congruence.
Qed.

Lemma mapSet_NoDup m k v : List.NoDup (map fst m) -> List.NoDup (map fst (mapSet k v m)).
Proof.
  induction m as [|[k0 v0] m IH]; simpl; intros Hnd.
  - constructor; [simpl; tauto | constructor].
  - inversion Hnd as [|? ? Hnin Hnd']; subst.
    destruct (k0 =? k) eqn:E; simpl.
    + apply Nat.eqb_eq in E. subst k0. now constructor.
    + constructor; [|now apply IH].
      rewrite mapSet_keys. apply Nat.eqb_neq in E. intros [->|Hin]; [congruence | tauto].
Qed.

(** [new Map(m.entries())] is [m] again, order included. *)
Lemma mapOfEntries_entries m : List.NoDup (map fst m) -> mapOfEntries m = m.
Proof.
  unfold mapOfEntries.
  assert (Hgen : forall l acc,
             List.NoDup (map fst (acc ++ l)) ->
             fold_left (fun m0 kv => mapSet (fst kv) (snd kv) m0) l acc = acc ++ l).
  { induction l as [|[k v] l IH]; intros acc Hnd; simpl.
    - now rewrite app_nil_r.
    - rewrite mapSet_fresh.
      + rewrite IH; rewrite <- app_assoc; [reflexivity | exact Hnd].
      + rewrite map_app in Hnd. simpl in Hnd.
        apply List.NoDup_remove_2 in Hnd. rewrite in_app_iff in Hnd. tauto. }
  intros Hnd. now apply (Hgen m []).
Qed.

Lemma mapOfEntries_NoDup (l : list (nat * V)) : List.NoDup (map fst (mapOfEntries l)).
Proof.
  unfold mapOfEntries.
  assert (Hgen : forall l acc, List.NoDup (map fst acc) ->
             List.NoDup (map fst (fold_left (fun m0 kv => mapSet (fst kv) (snd kv) m0) l acc))).
  { clear l. induction l as [|[k v] l IH]; intros acc Hnd; simpl; [exact Hnd|].
    apply IH. now apply mapSet_NoDup. }
  apply Hgen. constructor.
Qed.

End JsMapFacts.

(* ===================================================================== *)
(** ** The index manager                                                   *)
(* ===================================================================== *)

Import IndexManager.

Section ManagerFacts.
Context {number : Type} {model : EmbeddingModel number} {hnsw : HNSW number}.
Implicit Types (m : HNSWIndexManager) (w : World).

Lemma addOne_spec chunks frames i embedding m m' added :
  addOne chunks frames i embedding m = (m', added) ->
  config m' = config m /\ dimension m' = dimension m
  /\ (index m <> None -> index m' <> None)
  /\ nextChunkId m <= nextChunkId m'
  /\ match added with
     | Some chunkId =>
         chunkId = nextChunkId m /\ nextChunkId m' = S chunkId
         /\ exists chunk,
              nth_error chunks i = Some chunk
              /\ metadata m' =
                 mapSet chunkId {| meta_id := chunkId;
                                   meta_frame := nth_error frames i;
                                   meta_length := length chunk |} (metadata m)
     | None => metadata m' = metadata m
     end.
Proof.
  unfold addOne.
  destruct (negb (length embedding =? dimension m)).
  { intros [= <- <-]. repeat split; auto. }
  simpl index. destruct (index m) as [g|].
  2:{ intros [= <- <-]. simpl. repeat split; auto. }
  destruct (addPoint g (nextChunkId m) embedding) as [g' completed].
  destruct completed.
  2:{ intros [= <- <-]. simpl. repeat split; auto; discriminate. }
  destruct (nth_error chunks i) as [chunk|].
  2:{ intros [= <- <-]. simpl. repeat split; auto; discriminate. }
  intros [= <- <-]. simpl. repeat split; auto; try discriminate.
  now exists chunk.
Qed.

Lemma addLoop_spec chunks frames embeddings : forall i m addedIds m' ids,
  addLoop chunks frames i embeddings m addedIds = (m', ids) ->
  config m' = config m /\ dimension m' = dimension m
  /\ (index m <> None -> index m' <> None)
  /\ nextChunkId m <= nextChunkId m'
  /\ (List.NoDup (map fst (metadata m)) -> List.NoDup (map fst (metadata m')))
  /\ exists new,
       ids = addedIds ++ new
       /\ Forall (fun chunkId => nextChunkId m <= chunkId < nextChunkId m') new
       /\ StronglySorted lt new
       /\ Forall (fun chunkId =>
                    exists meta, mapGet chunkId (metadata m') = Some meta
                                 /\ meta_id meta = chunkId) new
       /\ (forall k, ~ In k new -> mapGet k (metadata m') = mapGet k (metadata m)).
Proof.
  induction embeddings as [|embedding rest IH]; intros i m addedIds m' ids; simpl.
  - intros [= <- <-]. repeat split; auto.
    exists []. rewrite app_nil_r. repeat split; auto; constructor.
  - destruct (addOne chunks frames i embedding m) as [m1 added] eqn:E1.
    apply addOne_spec in E1 as (Hc1 & Hd1 & Hi1 & Hn1 & Hadd).
    intros E2. apply IH in E2 as (Hc2 & Hd2 & Hi2 & Hn2 & Hnd2 & new & -> & Hrange & Hsorted & Hmeta & Hold).
    split; [congruence|]. split; [congruence|]. split; [auto|]. split; [lia|].
    destruct added as [chunkId|].
    + destruct Hadd as (-> & Hnext & chunk & Hchunk & Hmd).
      split.
      { intros Hnd. apply Hnd2. rewrite Hmd. now apply mapSet_NoDup. }
      exists (nextChunkId m :: new). rewrite <- app_assoc. simpl.
      split; [reflexivity|]. split.
      { constructor; [lia|]. eapply List.Forall_impl; [|exact Hrange]. simpl. lia. }
      split.
      { constructor; [exact Hsorted|].
        eapply List.Forall_impl; [|exact Hrange]. simpl. lia. }
      assert (Hfresh : ~ In (nextChunkId m) new).
      { intros Hin. rewrite Forall_forall in Hrange.
        apply list_elem_of_In in Hin. specialize (Hrange _ Hin). lia. }
      split.
      { constructor; [|exact Hmeta].
        rewrite Hold by exact Hfresh. rewrite Hmd, mapGet_mapSet_eq. eauto. }
      intros k Hk. simpl in Hk. rewrite Hold by tauto. rewrite Hmd.
      apply mapGet_mapSet_ne. tauto.
    + split; [intros Hnd; apply Hnd2; now rewrite Hadd|].
      exists new. split; [reflexivity|]. split.
      { eapply List.Forall_impl; [|exact Hrange]. simpl. lia. }
      split; [exact Hsorted|]. split; [exact Hmeta|].
      intros k Hk. rewrite Hold by exact Hk. now rewrite Hadd.
Qed.

Lemma skipn_cons_inv {A} (l : list A) i x l' :
  skipn i l = x :: l' -> nth_error l i = Some x /\ skipn (S i) l = l'.
Proof.
  revert l. induction i as [|i IH]; intros [|y l]; simpl; try discriminate.
  - now intros [= -> ->].
  - intros E. now apply IH in E.
Qed.

Lemma addLoop_exact chunks frames embeddings : forall i m addedIds,
  index m <> None -> addPointCompletes (dimension m) ->
  length (skipn i chunks) = length embeddings ->
  length (skipn i frames) = length embeddings ->
  let inserted :=
    List.filter (fitsDimension (dimension m))
                (combine (combine (skipn i chunks) (skipn i frames)) embeddings) in
  exists m',
    addLoop chunks frames i embeddings m addedIds
    = (m', addedIds ++ seq (nextChunkId m) (length inserted))
    /\ metadata m' = recordItems (nextChunkId m) inserted (metadata m)
    /\ nextChunkId m' = nextChunkId m + length inserted.
Proof.
  induction embeddings as [|embedding rest IH]; intros i m addedIds Hidx Hadd Hc Hf.
  - simpl. rewrite combine_nil. simpl. exists m. rewrite app_nil_r.
    repeat split; auto.
  - destruct (skipn i chunks) as [|chunk cs] eqn:Ec; [discriminate|].
    destruct (skipn i frames) as [|frame fs] eqn:Ef; [discriminate|].
    apply skipn_cons_inv in Ec as [Hchunk Ec]. apply skipn_cons_inv in Ef as [Hframe Ef].
    simpl in Hc, Hf. injection Hc as Hc. injection Hf as Hf. subst cs fs.
    cbn [combine List.filter addLoop].
    change (fitsDimension (dimension m) (chunk, frame, embedding))
      with (length embedding =? dimension m).
    unfold addOne.
    destruct (length embedding =? dimension m) eqn:Edim; cbn [negb].
    + destruct (index m) as [g|] eqn:Eg; [|congruence]. simpl index. rewrite Eg.
      pose proof (Hadd g (nextChunkId m) embedding) as Hok.
      apply Nat.eqb_eq in Edim. specialize (Hok Edim).
      destruct (addPoint g (nextChunkId m) embedding) as [g' completed].
      simpl in Hok. subst completed. rewrite Hchunk, Hframe.
      match goal with |- context [addLoop _ _ _ _ ?m1 _] => set (m1' := m1) end.
      destruct (IH (S i) m1' (addedIds ++ [nextChunkId m])) as (m' & E & Hmd & Hnext);
        [discriminate | exact Hadd | exact Hc | exact Hf |].
      simpl in E, Hmd, Hnext.
      exists m'. rewrite E. cbn [length seq recordItems].
      rewrite <- app_assoc. simpl. repeat split; auto. lia.
    + destruct (IH (S i) m addedIds Hidx Hadd Hc Hf) as (m' & E & Hmd & Hnext).
      exists m'. now rewrite E.
Qed.

End ManagerFacts.

Section ManagerTheorems.
Context {number : Type} {model : EmbeddingModel number} {hnsw : HNSW number}.
Implicit Types (m : HNSWIndexManager) (w : World).

Lemma addLoop_ids_exact chunks frames embeddings : forall i m addedIds,
  index m <> None -> addPointCompletes (dimension m) ->
  forallb (fun v => length v =? dimension m) embeddings = true ->
  i + length embeddings <= length chunks ->
  exists m',
    addLoop chunks frames i embeddings m addedIds
    = (m', addedIds ++ seq (nextChunkId m) (length embeddings))
    /\ nextChunkId m' = nextChunkId m + length embeddings.
Proof.
  induction embeddings as [|embedding rest IH]; intros i m addedIds Hidx Hadd Hdim Hlen.
  - simpl. exists m. rewrite app_nil_r. split; [reflexivity | lia].
  - simpl in Hdim, Hlen. apply andb_prop in Hdim as [Edim Hdim].
    cbn [addLoop]. unfold addOne. rewrite Edim. cbn [negb].
    destruct (index m) as [g|] eqn:Eg; [|congruence]. simpl index. rewrite Eg.
    pose proof (Hadd g (nextChunkId m) embedding) as Hok.
    apply Nat.eqb_eq in Edim. specialize (Hok Edim).
    destruct (addPoint g (nextChunkId m) embedding) as [g' completed].
    simpl in Hok. subst completed.
    destruct (nth_error chunks i) as [chunk|] eqn:Echunk;
      [|apply nth_error_None in Echunk; lia].
    match goal with |- context [addLoop _ _ _ _ ?m1 _] => set (m1' := m1) end.
    destruct (IH (S i) m1' (addedIds ++ [nextChunkId m])) as (m' & E & Hnext);
      [discriminate | exact Hadd | exact Hdim | lia |].
    simpl in E, Hnext. exists m'. rewrite E, <- app_assoc. simpl.
    split; [reflexivity | lia].
Qed.

(** What one [addChunks] call does on an initialized manager when the
    embedding model answers. *)
Lemma addChunks_returns texts frames m w embeddings :
  index m <> None -> embed texts = Some embeddings ->
  exists ids m' w',
    addChunks texts frames m w = (Returned ids, m', w')
    /\ config m' = config m /\ dimension m' = dimension m
    /\ index m' <> None
    /\ nextChunkId m <= nextChunkId m'
    /\ (wellFormed m -> wellFormed m')
    /\ Forall (fun chunkId => nextChunkId m <= chunkId < nextChunkId m') ids
    /\ StronglySorted lt ids
    /\ Forall (fun chunkId =>
                 exists meta, mapGet chunkId (metadata m') = Some meta
                              /\ meta_id meta = chunkId) ids
    /\ (forall k, ~ In k ids -> mapGet k (metadata m') = mapGet k (metadata m)).
Proof.
  intros Hidx Hemb. unfold addChunks.
  destruct (index m) as [g|] eqn:Eg; [|congruence].
  destruct texts as [|t texts].
  { exists [], m, w. rewrite Eg. repeat split; auto; try constructor; discriminate. }
  unfold callEmbed. rewrite Hemb.
  destruct (addLoop (t :: texts) frames 0 embeddings m []) as [m' ids] eqn:E.
  apply addLoop_spec in E as (Hc & Hd & Hi & Hn & Hnd & new & -> & Hr & Hs & Hm & Hold).
  simpl app. eexists new, m', _. split; [reflexivity|].
  rewrite Eg in Hi. repeat split; auto; try (apply Hi; discriminate).
Qed.

Lemma embedsAt_inv dim texts :
  embedsAt dim texts = true ->
  exists embeddings,
    embed texts = Some embeddings /\ length embeddings = length texts
    /\ forallb (fun v => length v =? dim) embeddings = true.
Proof.
  unfold embedsAt. destruct (embed texts) as [vs|]; [|discriminate].
  intros [E1 E2]%andb_prop. apply Nat.eqb_eq in E1. now exists vs.
Qed.

Lemma addChunks_exact_ids texts frames m w :
  index m <> None -> embedsAt (dimension m) texts = true ->
  addPointCompletes (dimension m) ->
  exists m' w',
    addChunks texts frames m w
    = (Returned (seq (nextChunkId m) (length texts)), m', w')
    /\ nextChunkId m' = nextChunkId m + length texts.
Proof.
  intros Hidx (embeddings & Hemb & Hlen & Hdim)%embedsAt_inv Hadd.
  unfold addChunks. destruct (index m) as [g|] eqn:Eg; [|congruence].
  destruct texts as [|t texts].
  { exists m, w. simpl. split; [reflexivity | lia]. }
  unfold callEmbed. rewrite Hemb.
  destruct (addLoop_ids_exact (t :: texts) frames embeddings 0 m [])
    as (m' & E & Hnext); auto; [congruence | lia |].
  rewrite E. simpl app. rewrite Hlen in *. eexists m', _. split; [reflexivity | exact Hnext].
Qed.

Lemma addChunks_skips_fit texts frames m w embeddings :
  index m <> None -> length frames = length texts ->
  embed texts = Some embeddings -> length embeddings = length texts ->
  addPointCompletes (dimension m) ->
  let inserted :=
    List.filter (fitsDimension (dimension m))
                (combine (combine texts frames) embeddings) in
  exists m' w',
    addChunks texts frames m w
    = (Returned (seq (nextChunkId m) (length inserted)), m', w')
    /\ metadata m' = recordItems (nextChunkId m) inserted (metadata m)
    /\ nextChunkId m' = nextChunkId m + length inserted.
Proof.
  intros Hidx Hframes Hemb Hlen Hadd. cbv zeta. unfold addChunks.
  destruct (index m) as [g|] eqn:Eg; [|congruence].
  destruct texts as [|t texts].
  - destruct embeddings; [|discriminate]. exists m, w. simpl.
    repeat split; auto.
  - unfold callEmbed. rewrite Hemb.
    destruct (addLoop_exact (t :: texts) frames embeddings 0 m [])
      as (m1 & E1 & Hmd & Hnext);
      [congruence | exact Hadd | rewrite skipn_O; simpl in *; lia
       | rewrite skipn_O; simpl in *; lia |].
    rewrite !skipn_O in E1, Hmd, Hnext. rewrite E1.
    eexists m1, _. repeat split; auto.
Qed.

Lemma addMany_spec calls : forall m w,
  index m <> None ->
  forallb (fun call => embedsAt (dimension m) (fst call)) calls = true ->
  exists ids m' w',
    addMany calls m w = (Returned ids, m', w')
    /\ config m' = config m /\ dimension m' = dimension m
    /\ index m' <> None
    /\ nextChunkId m <= nextChunkId m'
    /\ Forall (fun chunkId => nextChunkId m <= chunkId < nextChunkId m') ids
    /\ StronglySorted lt ids
    /\ (addPointCompletes (dimension m) ->
        ids = seq (nextChunkId m) (length (concat (map fst calls)))
        /\ nextChunkId m' = nextChunkId m + length (concat (map fst calls))).
Proof.
  induction calls as [|[texts frames] calls IH]; intros m w Hidx Hcalls.
  - exists [], m, w. simpl. repeat split; auto; constructor.
  - simpl in Hcalls. apply andb_prop in Hcalls as [Hcall Hcalls].
    pose proof Hcall as (embeddings & Hemb & _)%embedsAt_inv.
    destruct (addChunks_returns texts frames m w embeddings Hidx Hemb)
      as (ids & m1 & w1 & E1 & Hc1 & Hd1 & Hi1 & Hn1 & _ & Hr1 & Hs1 & _).
    destruct (IH m1 w1 Hi1) as (ids' & m2 & w2 & E2 & Hc2 & Hd2 & Hi2 & Hn2 & Hr2 & Hs2 & Hex2).
    { now rewrite Hd1. }
    exists (ids ++ ids'), m2, w2. cbn [addMany]. rewrite E1, E2.
    split; [reflexivity|]. split; [congruence|]. split; [congruence|].
    split; [exact Hi2|]. split; [lia|]. split.
    { apply Forall_app. split; (eapply List.Forall_impl; [|eassumption]); simpl; lia. }
    split.
    { apply StronglySorted_app_2; auto.
      intros x1 x2 H1%list_elem_of_In H2%list_elem_of_In.
      rewrite Forall_forall in Hr1, Hr2.
      apply list_elem_of_In in H1, H2.
      specialize (Hr1 x1 H1). specialize (Hr2 x2 H2). lia. }
    intros Hadd.
    destruct (addChunks_exact_ids texts frames m w Hidx Hcall Hadd)
      as (m1' & w1' & E1' & Hnext).
    rewrite E1 in E1'. injection E1' as -> <- <-.
    rewrite Hd1 in Hex2. destruct (Hex2 Hadd) as [-> Hnext2]. rewrite Hnext2, Hnext.
    cbn [map fst concat]. rewrite length_app. split; [|lia].
    symmetry. apply seq_app.
Qed.

End ManagerTheorems.

Section ManagerClaims.
Context {number : Type} {model : EmbeddingModel number} {hnsw : HNSW number}.
Implicit Types (m : HNSWIndexManager) (w : World).

Lemma hnsw_meta_paths_differ base : hnswFilePath base <> metaFilePath base.
Proof.
  unfold hnswFilePath, metaFilePath. intros E%app_inv_head. vm_compute in E. discriminate.
Qed.

Lemma save_then_load p m other w g g' :
  index m = Some g -> resolvePath p other = resolvePath p m ->
  fromJSON (toJSON g) = Some g' ->
  exists w',
    save p m w = (Returned tt, w')
    /\ embedCalls w' = embedCalls w
    /\ files w' !! metaFilePath (resolvePath p m)
       = Some (MetaFile (nextChunkId m) (metadata m))
    /\ files w' !! hnswFilePath (resolvePath p m) = Some (HnswFile (toJSON g))
    /\ load p other w'
       = (Returned tt,
          withIndex (withNextChunkId (withMetadata other (mapOfEntries (metadata m)))
                                     (nextChunkId m)) (Some g')).
Proof.
  intros Hidx Hpath Hjson. unfold save. rewrite Hidx.
  eexists. split; [reflexivity|]. split; [reflexivity|].
  assert (Hmeta : files (writeFile (metaFilePath (resolvePath p m))
                           (MetaFile (nextChunkId m) (metadata m))
                           (writeFile (hnswFilePath (resolvePath p m))
                                      (HnswFile (toJSON g)) w))
                  !! metaFilePath (resolvePath p m)
                  = Some (MetaFile (nextChunkId m) (metadata m))).
  { simpl. apply lookup_insert_eq. }
  assert (Hhnsw : files (writeFile (metaFilePath (resolvePath p m))
                           (MetaFile (nextChunkId m) (metadata m))
                           (writeFile (hnswFilePath (resolvePath p m))
                                      (HnswFile (toJSON g)) w))
                  !! hnswFilePath (resolvePath p m)
                  = Some (HnswFile (toJSON g))).
  { simpl. rewrite lookup_insert_ne.
    - apply lookup_insert_eq.
    - intros E. symmetry in E. now apply hnsw_meta_paths_differ in E. }
  split; [exact Hmeta|]. split; [exact Hhnsw|].
  unfold load. rewrite Hpath, Hmeta, Hhnsw, Hjson. reflexivity.
Qed.

(** [C2]. On a fresh initialized manager, when every embedding succeeds at
    the configured dimension, the ids returned by a run of [addChunks]
    calls are strictly increasing; after [save p] and [load p] (into a
    manager of the same dimension) [nextChunkId] is restored exactly, and
    the ids returned by the calls that follow are strictly greater than
    every id returned before. When moreover the graph accepts every point
    of that dimension, the ids are exactly 0, 1, 2, ... *)
Theorem addChunks_ids_increase_across_reload
    (cfg : IndexConfig) (calls1 calls2 : list (list jsstring * list nat))
    (p : option jsstring) (w : World) (other : HNSWIndexManager) :
  forallb (fun call => embedsAt (embeddingDimension cfg) (fst call))
          (calls1 ++ calls2) = true ->
  dimension other = embeddingDimension cfg ->
  resolvePath p other = resolvePath p (newManager cfg) ->
  (forall g : Graph, fromJSON (toJSON g) <> None) ->
  exists ids1 m1 w1 w2 m2 ids2 m3 w3,
    addMany calls1 (initIndex (newManager cfg)) w = (Returned ids1, m1, w1)
    /\ save p m1 w1 = (Returned tt, w2)
    /\ load p other w2 = (Returned tt, m2)
    /\ nextChunkId m2 = nextChunkId m1
    /\ addMany calls2 m2 w2 = (Returned ids2, m3, w3)
    /\ StronglySorted lt (ids1 ++ ids2)
    /\ (forall old new, In old ids1 -> In new ids2 -> old < new)
    /\ (addPointCompletes (embeddingDimension cfg) ->
        ids1 ++ ids2 = seq 0 (length (concat (map fst (calls1 ++ calls2))))).
Proof.
  intros Hcalls Hdim Hpath Hjson.
  rewrite forallb_app in Hcalls. apply andb_prop in Hcalls as [Hcalls1 Hcalls2].
  destruct (addMany_spec calls1 (initIndex (newManager cfg)) w)
    as (ids1 & m1 & w1 & E1 & Hc1 & Hd1 & Hi1 & Hn1 & Hr1 & Hs1 & Hex1);
    [discriminate | exact Hcalls1 |].
  simpl in Hc1, Hd1, Hn1, Hr1, Hex1.
  destruct (index m1) as [g|] eqn:Eg; [|congruence].
  destruct (fromJSON (toJSON g)) as [g'|] eqn:Ej; [|now apply Hjson in Ej].
  destruct (save_then_load p m1 other w1 g g' Eg) as (w2 & Es & _ & _ & _ & El);
    [|exact Ej|].
  { rewrite Hpath. unfold resolvePath. now rewrite Hc1. }
  set (m2 := withIndex _ _) in El.
  destruct (addMany_spec calls2 m2 w2)
    as (ids2 & m3 & w3 & E2 & Hc2 & Hd2 & Hi2 & Hn2 & Hr2 & Hs2 & Hex2);
    [discriminate | simpl; now rewrite Hdim |].
  simpl in Hd2, Hn2, Hr2, Hex2.
  assert (Hlt : forall old new, In old ids1 -> In new ids2 -> old < new).
  { intros old new H1 H2. rewrite Forall_forall in Hr1, Hr2.
    apply list_elem_of_In in H1, H2.
    specialize (Hr1 old H1). specialize (Hr2 new H2). lia. }
  exists ids1, m1, w1, w2, m2, ids2, m3, w3.
  repeat split; auto.
  - apply StronglySorted_app_2; auto.
    intros x1 x2 H1%list_elem_of_In H2%list_elem_of_In. now apply Hlt.
  - intros Hadd. rewrite Hdim in Hex2.
    destruct (Hex1 Hadd) as [-> Hnext1]. destruct (Hex2 Hadd) as [-> _].
    simpl nextChunkId. rewrite Hnext1. simpl.
    rewrite map_app, concat_app, length_app. symmetry. apply seq_app.
Qed.

(** [C5]. [save p] followed by [load p] restores exactly the id to
    IndexEntry map (order of entries included) and [nextChunkId] that the
    manager held when it was saved; the metadata artifact written is
    [{nextChunkId, metadata: list of [id, IndexEntry]}]. *)
Theorem save_load_restores_metadata
    (p : option jsstring) (m other : HNSWIndexManager) (w : World) :
  index m <> None -> wellFormed m ->
  resolvePath p other = resolvePath p m ->
  (forall g, index m = Some g -> fromJSON (toJSON g) <> None) ->
  exists w' m',
    save p m w = (Returned tt, w')
    /\ files w' !! metaFilePath (resolvePath p m)
       = Some (MetaFile (nextChunkId m) (metadata m))
    /\ load p other w' = (Returned tt, m')
    /\ metadata m' = metadata m
    /\ nextChunkId m' = nextChunkId m.
Proof.
  intros Hidx Hwf Hpath Hjson.
  destruct (index m) as [g|] eqn:Eg; [|congruence].
  destruct (fromJSON (toJSON g)) as [g'|] eqn:Ej; [|now apply (Hjson g) in Ej].
  destruct (save_then_load p m other w g g' Eg Hpath Ej) as (w' & Es & _ & Hfile & _ & El).
  eexists w', _. split; [exact Es|]. split; [exact Hfile|]. split; [exact El|].
  simpl. split; [|reflexivity]. now apply mapOfEntries_entries.
Qed.

(** The managers that the operations produce are well formed. *)
Lemma newManager_wellFormed cfg : wellFormed (initIndex (newManager cfg)).
Proof. unfold wellFormed. simpl. constructor. Qed.

Lemma addChunks_wellFormed texts frames m w r m' w' :
  wellFormed m -> addChunks texts frames m w = (r, m', w') -> wellFormed m'.
Proof.
  intros Hwf. unfold addChunks.
  destruct (index m); [|now intros [= <- <- <-]].
  destruct texts as [|t texts]; [now intros [= <- <- <-]|].
  unfold callEmbed. destruct (embed (t :: texts)) as [embeddings|];
    [|now intros [= <- <- <-]].
  destruct (addLoop _ _ _ _ _ _) as [m1 ids] eqn:E.
  apply addLoop_spec in E as (_ & _ & _ & _ & Hnd & _).
  intros [= <- <- <-]. now apply Hnd.
Qed.

Lemma load_wellFormed p m w r m' :
  wellFormed m -> load p m w = (r, m') -> wellFormed m'.
Proof.
  intros Hwf. unfold load.
  destruct (files w !! _) as [[next entries|]|]; try now intros [= <- <-].
  destruct (files w !! _) as [[|indexJson]|];
    try (intros [= <- <-]; apply mapOfEntries_NoDup).
  destruct (fromJSON indexJson); intros [= <- <-]; apply mapOfEntries_NoDup.
Qed.

(** [C10]. On an initialized manager [addChunks([], frames)], and so
    [addChunks([], [])], returns the empty array and changes nothing: the
    manager is the same (metadata, nextChunkId, graph) and so is the world
    (no call to the embedding model is recorded). *)
Theorem addChunks_empty_is_noop (frames : list nat) (m : HNSWIndexManager) (w : World) :
  index m <> None ->
  addChunks [] frames m w = (Returned [], m, w).
Proof.
  intros Hidx. unfold addChunks. destruct (index m); [reflexivity | congruence].
Qed.


Section Search.
Variable nle : number -> number -> Prop.
Variable nzero : number.

Lemma joinHits_Forall (P : number -> Prop) md (hits : list (nat * number)) :
  Forall (fun hit => P (snd hit)) hits ->
  Forall (fun r => P (distance r)) (joinHits md hits).
Proof.
  induction 1 as [|[chunkId dist] hits Hh _ IH]; simpl; [constructor|].
  destruct (mapGet chunkId md); [constructor|]; auto.
Qed.

Lemma joinHits_length md (hits : list (nat * number)) : length (joinHits md hits) <= length hits.
Proof.
  induction hits as [|[chunkId dist] hits IH]; simpl; [lia|].
  destruct (mapGet chunkId md); simpl; lia.
Qed.

Lemma joinHits_metadata md (hits : list (nat * number)) :
  Forall (fun r => mapGet (chunk_id r) md = Some (metadata_of r)) (joinHits md hits).
Proof.
  induction hits as [|[chunkId dist] hits IH]; simpl; [constructor|].
  destruct (mapGet chunkId md) eqn:E; [constructor|]; auto.
Qed.

Lemma joinHits_StronglySorted md (hits : list (nat * number)) :
  StronglySorted (fun a b => nle (snd a) (snd b)) hits ->
  StronglySorted (fun a b => nle (distance a) (distance b)) (joinHits md hits).
Proof.
  induction 1 as [|[chunkId dist] hits _ IH Hall]; simpl; [constructor|].
  destruct (mapGet chunkId md); [|exact IH].
  constructor; [exact IH|]. simpl.
  now apply (joinHits_Forall (nle dist)).
Qed.

Lemma joinHits_scores md (hits : list (nat * number)) :
  map (fun r => (chunk_id r, distance r)) (joinHits md hits) = List.filter (known md) hits.
Proof.
  induction hits as [|[chunkId dist] hits IH]; [reflexivity|].
  cbn [joinHits List.filter]. unfold known at 1. cbn [fst].
  destruct (mapGet chunkId md); [|exact IH].
  cbn [map chunk_id distance]. now rewrite IH.
Qed.

Lemma Sorted_map_iff {A B : Type} (f : A -> B) (R : B -> B -> Prop) (l : list A) :
  Sorted (fun a b => R (f a) (f b)) l <-> Sorted R (map f l).
Proof.
  induction l as [|a l IH]; cbn [map].
  - split; constructor.
  - split; intros H; inversion H as [|? ? Hs Hhd]; subst; constructor;
      try (now apply IH); destruct l; cbn [map] in *; constructor;
      now inversion Hhd.
Qed.

(** When the graph's answer to a query for the [k] nearest points has at
    most [k] hits, nearest first, with no negative score, what [search]
    returns has these properties too: dropping the hits that have no
    metadata keeps them. *)
Lemma search_keeps_the_contract_of_the_graph (query : jsstring) (k : nat)
    (m : HNSWIndexManager) (w : World) :
  (forall a b c, nle a b -> nle b c -> nle a c) ->
  (forall g queryEmbedding rest hits,
      index m = Some g -> embed [query] = Some (queryEmbedding :: rest) ->
      searchKNN g queryEmbedding k = Some hits ->
      knnContract nle nzero k hits) ->
  forall results w',
    search query k m w = (Returned results, w') ->
    length results <= k
    /\ Forall (fun r => mapGet (chunk_id r) (metadata m) = Some (metadata_of r)
                        /\ nle nzero (distance r)) results
    /\ Sorted (fun a b => nle (distance a) (distance b)) results.
Proof.
  intros Htrans Hknn. unfold search.
  destruct (index m) as [g|] eqn:Eg; [|discriminate].
  destruct query as [|c query].
  { intros results w' [= <- <-]. simpl. split; [lia|]. split; constructor. }
  unfold callEmbed.
  destruct (embed [c :: query]) as [[|queryEmbedding rest]|] eqn:Eemb; [| |discriminate].
  - intros results w' [= <- <-]. simpl. split; [lia|]. split; constructor.
  - destruct (negb (length queryEmbedding =? dimension m)).
    + intros results w' [= <- <-]. simpl. split; [lia|]. split; constructor.
    + destruct (searchKNN g queryEmbedding k) as [hits|] eqn:Eknn; [|discriminate].
      intros results w' [= <- <-].
      destruct (Hknn g queryEmbedding rest hits eq_refl eq_refl Eknn)
        as (Hlen & Hpos & Hsorted).
      split.
      { etransitivity; [apply joinHits_length | exact Hlen]. }
      split.
      { pose proof (joinHits_metadata (metadata m) hits) as H1.
        pose proof (joinHits_Forall (nle nzero) (metadata m) _ Hpos) as H2.
        rewrite Forall_forall in *. intros r Hr. split; auto. }
      apply StronglySorted_Sorted, joinHits_StronglySorted.
      apply Sorted_StronglySorted; [|exact Hsorted].
      intros a b c0. apply Htrans.
Qed.

(** [search] throws when the graph does: nothing catches it. *)
Lemma search_throws_when_the_graph_does (query : jsstring) (k : nat)
    (m : HNSWIndexManager) (w : World) g queryEmbedding rest :
  index m = Some g -> query <> [] ->
  embed [query] = Some (queryEmbedding :: rest) ->
  length queryEmbedding = dimension m ->
  searchKNN g queryEmbedding k = None ->
  exists msg, search query k m w = (Thrown msg, snd (callEmbed [query] w)).
Proof.
  intros Eg Hq Eemb Hdim Eknn. unfold search. rewrite Eg.
  destruct query as [|c query]; [congruence|].
  unfold callEmbed. rewrite Eemb. cbn [snd].
  apply Nat.eqb_eq in Hdim. rewrite Hdim. cbn [negb]. rewrite Eknn. eauto.
Qed.

(** [C3] fails on the code: [search] neither sorts nor truncates nor
    looks at the sign of what the graph library answers. It copies the
    library's [score] into [distance], hit by hit in the library's order,
    and only drops the hits that have no metadata. So its results are in
    non-decreasing order of [distance] exactly when the library's scores
    are; and the [score] of the [hnsw] package is a similarity, highest
    for the nearest point. *)
Theorem search_reports_the_score_as_distance (query : jsstring) (k : nat)
    (m : HNSWIndexManager) (w : World) (g : Graph) (queryEmbedding : list number)
    (rest : list (list number)) (hits : list (nat * number)) :
  index m = Some g -> query <> [] ->
  embed [query] = Some (queryEmbedding :: rest) ->
  length queryEmbedding = dimension m ->
  searchKNN g queryEmbedding k = Some hits ->
  exists results,
    search query k m w = (Returned results, snd (callEmbed [query] w))
    /\ map (fun r => (chunk_id r, distance r)) results
       = List.filter (known (metadata m)) hits
    /\ Forall (fun r => mapGet (chunk_id r) (metadata m) = Some (metadata_of r)) results
    /\ forall R : number -> number -> Prop,
         Sorted (fun a b => R (distance a) (distance b)) results
         <-> Sorted (fun a b => R (snd a) (snd b)) (List.filter (known (metadata m)) hits).
Proof.
  intros Eg Hq Eemb Hdim Eknn.
  exists (joinHits (metadata m) hits). split.
  { unfold search. rewrite Eg.
    destruct query as [|c query]; [congruence|].
    unfold callEmbed. rewrite Eemb. cbn [snd].
    apply Nat.eqb_eq in Hdim. rewrite Hdim. cbn [negb]. now rewrite Eknn. }
  split; [apply joinHits_scores|].
  split; [apply joinHits_metadata|].
  intros R. rewrite <- (joinHits_scores (metadata m) hits).
  rewrite (Sorted_map_iff (fun r => distance r) R).
  rewrite (Sorted_map_iff (fun hit : nat * number => snd hit) R).
  now rewrite map_map.
Qed.

End Search.

End ManagerClaims.

(** *** The claims on the index manager, at the small instance *)

Section ManagerWitnesses.
Import Toy.

Example addChunks_skips_the_mismatched_item :
  fst (fst (addChunks [js "a"; js "!bad"; js "cc"] [0; 1; 2] toyManager emptyWorld))
  = Returned [0; 1]
  /\ metadata (snd (fst (addChunks [js "a"; js "!bad"; js "cc"] [0; 1; 2]
                                    toyManager emptyWorld)))
     = [(0, {| meta_id := 0; meta_frame := Some 0; meta_length := 1 |});
        (1, {| meta_id := 1; meta_frame := Some 2; meta_length := 2 |})].
Proof. split; vm_compute; reflexivity. Qed.

Lemma addChunks_ids_increase_across_reload_witness :
  let calls1 := [([js "one"; js "two"], [0; 1]); ([js "three"], [2])] in
  let calls2 := [([js "four"; js "five"], [3; 4])] in
  exists ids1 m1 w1 w2 m2 ids2 m3 w3,
    addMany calls1 (initIndex (newManager toyConfig)) emptyWorld = (Returned ids1, m1, w1)
    /\ save (Some (js "idx")) m1 w1 = (Returned tt, w2)
    /\ load (Some (js "idx")) (newManager toyConfig) w2 = (Returned tt, m2)
    /\ nextChunkId m2 = nextChunkId m1
    /\ addMany calls2 m2 w2 = (Returned ids2, m3, w3)
    /\ StronglySorted lt (ids1 ++ ids2)
    /\ (forall old new, In old ids1 -> In new ids2 -> old < new)
    /\ (addPointCompletes (embeddingDimension toyConfig) ->
        ids1 ++ ids2 = seq 0 (length (concat (map fst (calls1 ++ calls2))))).
Proof.
  apply (addChunks_ids_increase_across_reload toyConfig).
  - vm_compute. reflexivity.
  - reflexivity.
  - reflexivity.
  - intros g. simpl. discriminate.
Defined.

Lemma save_load_restores_metadata_witness :
  exists w' m',
    save (Some (js "idx")) populated emptyWorld = (Returned tt, w')
    /\ files w' !! metaFilePath (resolvePath (Some (js "idx")) populated)
       = Some (MetaFile (nextChunkId populated) (metadata populated))
    /\ load (Some (js "idx")) (newManager toyConfig) w' = (Returned tt, m')
    /\ metadata m' = metadata populated
    /\ nextChunkId m' = nextChunkId populated.
Proof.
  apply save_load_restores_metadata.
  - vm_compute. discriminate.
  - unfold wellFormed. vm_compute.
    repeat constructor; simpl; intuition discriminate.
  - reflexivity.
  - intros g _. simpl. discriminate.
Defined.

Lemma addChunks_empty_is_noop_witness :
  addChunks [] [] populated emptyWorld = (Returned [], populated, emptyWorld).
Proof.
  apply addChunks_empty_is_noop. vm_compute. discriminate.
Defined.


Lemma search_reports_the_score_as_distance_witness :
  exists results,
    @search Z toyModel similarityHNSW (js "alpha") 2 populatedBySimilarity noFiles
    = (Returned results, snd (callEmbed [js "alpha"] noFiles))
    /\ map (fun r => (chunk_id r, distance r)) results
       = List.filter (known (metadata populatedBySimilarity)) [(0, 26%Z); (1, 11%Z)]
    /\ Forall (fun r => mapGet (chunk_id r) (metadata populatedBySimilarity)
                        = Some (metadata_of r)) results
    /\ forall R : Z -> Z -> Prop,
         Sorted (fun a b => R (distance a) (distance b)) results
         <-> Sorted (fun a b => R (snd a) (snd b))
               (List.filter (known (metadata populatedBySimilarity))
                            [(0, 26%Z); (1, 11%Z)]).
Proof.
  apply (@search_reports_the_score_as_distance Z toyModel similarityHNSW
           (js "alpha") 2 populatedBySimilarity noFiles
           [(0, [5%Z; 1%Z]); (1, [2%Z; 1%Z])] [5%Z; 1%Z] []).
  - reflexivity.
  - discriminate.
  - reflexivity.
  - reflexivity.
  - reflexivity.
Defined.

(** The query is the first chunk itself. The chunk comes back first, as
    the most similar, and carries the largest [distance]: the results are
    not in non-decreasing order of distance. *)
Example most_similar_chunk_gets_the_largest_distance :
  exists r0 r1 w',
    @search Z toyModel similarityHNSW (js "alpha") 2 populatedBySimilarity noFiles
    = (Returned [r0; r1], w')
    /\ chunk_id r0 = 0 /\ distance r0 = 26%Z
    /\ chunk_id r1 = 1 /\ distance r1 = 11%Z
    /\ ~ Sorted (fun a b => (distance a <= distance b)%Z) [r0; r1].
Proof.
  eexists _, _, _. split; [vm_compute; reflexivity|].
  cbn [chunk_id distance]. repeat (split; [reflexivity|]).
  intros H. inversion H as [|? ? _ Hhd]; subst.
  inversion Hhd as [|? ? Hle]; subst. cbn in Hle. lia.
Qed.

(** On an initialized index without chunks this graph throws, and so does
    [search]. *)
Example search_on_an_empty_graph_throws :
  exists msg w',
    @search Z toyModel similarityHNSW (js "alpha") 2 emptyBySimilarity noFiles
    = (Thrown msg, w').
Proof. eexists _, _. vm_compute. reflexivity. Qed.

(** With a graph that scores by distance, nearest first, the same query
    comes back in non-decreasing order. *)
Example search_with_distances_is_sorted :
  exists r0 w',
    search (js "beta") 1 populated emptyWorld = (Returned [r0], w')
    /\ chunk_id r0 = 0 /\ distance r0 = 1%Z.
Proof. eexists _, _. split; [vm_compute; reflexivity|]. split; reflexivity. Qed.

End ManagerWitnesses.

(* ===================================================================== *)
(** ** The encoder                                                         *)
(* ===================================================================== *)

Section EncoderLemmas.
Import Utils Config Encoder.
Context {number : Type} {model : EmbeddingModel number} {hnsw : HNSW number}
        {pako : Pako} {base64 : Base64} {qrcode : QrCode} {json : Json}
        {ffmpeg : VideoEncoder}.

Lemma filter_all {A} (p : A -> bool) (l : list A) :
  forallb p l = true -> List.filter p l = l.
Proof.
  induction l as [|x l IH]; simpl; [reflexivity|].
  intros [Hx Hl]%andb_prop. now rewrite Hx, IH.
Qed.

Lemma recordItems_entriesAt (texts : list jsstring) :
  forall (frames : list nat) (embeddings : list (list number)) next md,
    length frames = length texts -> length embeddings = length texts ->
    Forall (fun k => k < next) (map fst md) ->
    recordItems next (combine (combine texts frames) embeddings) md
    = md ++ entriesAt next texts frames.
Proof.
  induction texts as [|text texts IH]; intros [|frame frames] [|e embeddings] next md;
    simpl; intros Hf He Hkeys; try discriminate; try now rewrite app_nil_r.
  rewrite mapSet_fresh.
  - rewrite IH; [now rewrite <- app_assoc | lia | lia |].
    rewrite map_app, Forall_app. split; [|repeat constructor].
    eapply List.Forall_impl; [|exact Hkeys]. simpl. lia.
  - intros Hin. rewrite Forall_forall in Hkeys.
    apply list_elem_of_In in Hin. specialize (Hkeys _ Hin). lia.
Qed.

Lemma entriesAt_keys (texts : list jsstring) : forall frames next,
  Forall (fun k => next <= k < next + length texts)
         (map fst (entriesAt next texts frames)).
Proof.
  induction texts as [|text texts IH]; intros [|frame frames] next; simpl;
    try constructor; [lia|].
  eapply List.Forall_impl; [|apply IH]. simpl. lia.
Qed.

(** A batch in which every item fits is appended whole. *)
Lemma addChunks_all_fit texts frames (m : HNSWIndexManager) (w : World) :
  IndexManager.index m <> None -> embedsAt (dimension m) texts = true ->
  addPointCompletes (dimension m) ->
  length frames = length texts -> keysBelowNext m ->
  exists m' w',
    addChunks texts frames m w
    = (Returned (seq (nextChunkId m) (length texts)), m', w')
    /\ metadata m' = metadata m ++ entriesAt (nextChunkId m) texts frames
    /\ nextChunkId m' = nextChunkId m + length texts
    /\ IndexManager.index m' <> None /\ dimension m' = dimension m /\ keysBelowNext m'.
Proof.
  intros Hidx Hemb Hadd Hframes Hkeys.
  pose proof Hemb as (embeddings & Eemb & Hlen & Hdim)%embedsAt_inv.
  destruct (addChunks_returns texts frames m w embeddings Hidx Eemb)
    as (ids & m' & w' & E & _ & Hd & Hi & _).
  destruct (addChunks_skips_fit texts frames m w embeddings Hidx Hframes Eemb Hlen Hadd)
    as (m1 & w1 & E1 & Hmd & Hnext).
  rewrite E in E1. injection E1 as -> <- <-.
  assert (Hall : List.filter (fitsDimension (dimension m))
                             (combine (combine texts frames) embeddings)
                 = combine (combine texts frames) embeddings).
  { apply filter_all. apply forallb_forall. intros [[t fr] v] Hin.
    apply in_combine_r in Hin. unfold fitsDimension. simpl.
    rewrite forallb_forall in Hdim. now apply Hdim. }
  rewrite Hall in *.
  assert (Hcount : length (combine (combine texts frames) embeddings) = length texts).
  { rewrite !length_combine. lia. }
  rewrite Hcount in *.
  rewrite recordItems_entriesAt in Hmd by assumption.
  exists m', w'. repeat split; auto.
  unfold keysBelowNext. rewrite Hmd, Hnext, map_app, Forall_app. split.
  - eapply List.Forall_impl; [|exact Hkeys]. simpl. lia.
  - eapply List.Forall_impl; [|apply entriesAt_keys]. simpl. lia.
Qed.

Lemma frameLoop_all_frames cfg (remaining : list jsstring) :
  forall i frameFiles (m : HNSWIndexManager) (w : World),
    IndexManager.index m <> None -> addPointCompletes (dimension m) -> keysBelowNext m ->
    (forall j chunk, nth_error remaining j = Some chunk ->
                     generateQrBuffer (chunkPayload chunk (i + j)) (qrConfigOf cfg) <> None) ->
    forallb (fun chunk => embedsAt (dimension m) [chunk]) remaining = true ->
    exists frameFiles' m' w',
      frameLoop cfg i remaining frameFiles m w = (Returned frameFiles', m', w')
      /\ length frameFiles' = length frameFiles + length remaining
      /\ metadata m'
         = metadata m ++ entriesAt (nextChunkId m) remaining (seq i (length remaining))
      /\ nextChunkId m' = nextChunkId m + length remaining
      /\ IndexManager.index m' <> None /\ dimension m' = dimension m /\ keysBelowNext m'.
Proof.
  induction remaining as [|chunk rest IH]; intros i frameFiles m w Hidx Hadd Hkeys Hqr Hemb.
  - exists frameFiles, m, w. simpl. rewrite app_nil_r. repeat split; auto; lia.
  - simpl in Hemb. apply andb_prop in Hemb as [Hemb1 Hemb].
    cbn [frameLoop].
    pose proof (Hqr 0 chunk eq_refl) as Hq. rewrite Nat.add_0_r in Hq.
    destruct (generateQrBuffer (chunkPayload chunk i) (qrConfigOf cfg)) as [qrBuffer|];
      [|congruence].
    destruct (addChunks_all_fit [chunk] [i] m w Hidx Hemb1 Hadd eq_refl Hkeys)
      as (m1 & w1 & E1 & Hmd1 & Hn1 & Hi1 & Hd1 & Hk1).
    rewrite E1.
    destruct (IH (S i) (frameFiles ++ [(i, qrBuffer)]) m1 w1)
      as (files' & m2 & w2 & E2 & Hlen2 & Hmd2 & Hn2 & Hi2 & Hd2 & Hk2);
      auto; try (now rewrite Hd1).
    { intros j c Hj. replace (S i + j) with (i + S j) by lia. now apply Hqr. }
    exists files', m2, w2. rewrite E2. split; [reflexivity|].
    rewrite length_app in Hlen2. simpl in *.
    repeat split; auto; try lia; try congruence.
    rewrite Hmd2, Hmd1, Hn1, <- app_assoc. simpl.
    now replace (nextChunkId m + 1) with (S (nextChunkId m)) by lia.
Qed.

(** What [buildVideo] leaves in the index of a fresh encoder holding N
    chunks (N >= 1) when every QR generation and every embedding succeeds
    and the build completes: 2N entries, the N chunks at frames 0..N-1
    under the ids 0..N-1 (the frame loop) and the same N chunks at the
    same frames again under the ids N..2N-1 (the batch). *)
Lemma buildVideo_indexes_every_chunk_twice
    (outputFileNameSuggestion : option jsstring) (e e' : MemvidEncoder)
    (w w' : World) (built : BuildResult) :
  let dim := embeddingDimension (indexConfig (config e)) in
  let N := length (chunks e) in
  chunks e <> [] ->
  index e = newManager (indexConfig (config e)) ->
  (forall i chunk, nth_error (chunks e) i = Some chunk ->
                   generateQrBuffer (chunkPayload chunk i) (qrConfigOf (config e)) <> None) ->
  forallb (fun chunk => embedsAt dim [chunk]) (chunks e) = true ->
  embedsAt dim (chunks e) = true ->
  addPointCompletes dim ->
  buildVideo outputFileNameSuggestion e w = (Returned built, e', w') ->
  metadata (index e')
  = entriesAt 0 (chunks e) (seq 0 N) ++ entriesAt N (chunks e) (seq 0 N)
  /\ length (metadata (index e')) = 2 * N
  /\ frameCount built = N.
Proof.
  intros dim N. subst dim N. intros Hne Hfresh Hqr Hemb1 Hemb Hadd. unfold buildVideo.
  destruct (chunks e) as [|c0 cs] eqn:Ec; [congruence|]. rewrite <- Ec in *.
  set (dim := embeddingDimension (indexConfig (config e))) in *.
  set (N := length (chunks e)) in *.
  set (m0 := initIndex (index e)).
  assert (Hm0 : IndexManager.index m0 <> None /\ dimension m0 = dim /\ metadata m0 = []
                /\ nextChunkId m0 = 0).
  { subst m0 dim. rewrite Hfresh. simpl. repeat split. discriminate. }
  destruct Hm0 as (Hi0 & Hd0 & Hmd0 & Hn0).
  destruct (frameLoop_all_frames (config e) (chunks e) 0 [] m0 w)
    as (frameFiles & m1 & w1 & E1 & Hlen1 & Hmd1 & Hn1 & Hi1 & Hd1 & Hk1); auto;
    try (now rewrite Hd0).
  { unfold keysBelowNext. rewrite Hmd0. constructor. }
  rewrite E1.
  destruct (match getCodecParameters (config e) (Some (codec (config e))) with
            | Some c => Some c
            | None => getCodecParameters (config e) (Some (js "h264Wasm"))
            end) as [codecConfig|]; [|discriminate].
  destruct (encodeVideo frameFiles codecConfig _) as [videoData|]; [|discriminate].
  destruct (addChunks_all_fit (chunks e) (seq 0 N) m1 w1)
    as (m2 & w2 & E2 & Hmd2 & Hn2 & Hi2 & Hd2 & Hk2); auto;
    try (now rewrite Hd1, Hd0); try apply length_seq.
  rewrite E2.
  destruct (match indexPath (indexConfig (config e)) with
            | Some (c :: path) => save (Some (c :: path)) m2 w2
            | _ => (Returned (), w2)
            end) as [[u|msg] w3]; [|discriminate].
  destruct (serializeIndex m2) as [buffer|msg]; [|discriminate].
  intros [= <- <- <-]. cbn [Encoder.index withChunks withManager frameCount].
  rewrite Hmd2, Hmd1, Hmd0, Hn1, Hn0. cbn [app Nat.add].
  split; [reflexivity|]. split; [|simpl in Hlen1; exact Hlen1].
  rewrite length_app.
  assert (Hcount : forall (l : list jsstring) next first,
             length (entriesAt next l (seq first (length l))) = length l).
  { induction l as [|c l IHl]; intros next first; simpl; [reflexivity|].
    now rewrite IHl. }
  subst N. rewrite !Hcount. lia.
Qed.

End EncoderLemmas.

Section EncoderFacts.
Import Toy Encoder.

(** [C1] fails on the code: [buildVideo] adds every chunk to the index
    twice, once in the frame loop and once more in the batch that follows
    the video encoding. With the three chunks ["a"], ["b"], ["c"], every QR
    generation and every embedding succeeding, the index holds six
    entries, ids 0 to 5, at frames 0, 1, 2, 0, 1, 2. *)
Example buildVideo_three_chunks_indexes_each_twice :
  let '(result, e', _) := buildVideo None threeChunks emptyWorld in
  (exists built, result = Returned built /\ frameCount built = 3)
  /\ map fst (metadata (index e')) = [0; 1; 2; 3; 4; 5]
  /\ map (fun entry => meta_frame (snd entry)) (metadata (index e'))
     = [Some 0; Some 1; Some 2; Some 0; Some 1; Some 2]
  /\ chunks e' = [].
Proof.
  vm_compute. split; [eexists; split; reflexivity|]. repeat split.
Qed.

End EncoderFacts.

(* ===================================================================== *)
(** ** QR payloads                                                         *)
(* ===================================================================== *)

Section QrPayloadFacts.
Import Utils Encoder.
Context {pako : Pako} {base64 : Base64} {json : Json}.

Lemma toUint8_to_N b : toUint8 (Byte.to_N b) = b.
Proof.
  unfold toUint8. pose proof (Byte.to_N_bounded b) as Hb.
  rewrite N.mod_small by lia. now rewrite Byte.of_to_N.
Qed.

Lemma toUint8_binaryString bytes : map toUint8 (binaryString bytes) = bytes.
Proof.
  unfold binaryString. rewrite map_map.
  induction bytes as [|b bytes IH]; simpl; [reflexivity|].
  now rewrite toUint8_to_N, IH.
Qed.

(** A string that does not itself start with the marker survives the
    compression step and [processQrText], whenever pako and atob undo what
    gzip and btoa did to it. *)
Lemma processQrText_compressPayload (s : jsstring) :
  startsWith s (js "GZ:") = false ->
  (forall compressed, gzip s = Some compressed -> ungzip compressed = Some s) ->
  (forall compressed encoded,
      gzip s = Some compressed -> btoa (binaryString compressed) = Some encoded ->
      atob encoded = Some (binaryString compressed)) ->
  processQrText (compressPayload s) = s.
Proof.
  intros Hplain Hgzip Hb64.
  assert (Hs : processQrText s = s) by (unfold processQrText; now rewrite Hplain).
  unfold compressPayload.
  destruct (100 <? length s); [|exact Hs].
  destruct (gzip s) as [compressed|] eqn:Eg; [|exact Hs].
  destruct (btoa (binaryString compressed)) as [encoded|] eqn:Eb; [|exact Hs].
  unfold processQrText.
  change (startsWith (js "GZ:" ++ encoded) (js "GZ:")) with true.
  change (skipn 3 (js "GZ:" ++ encoded)) with encoded.
  rewrite (Hb64 compressed encoded eq_refl Eb), toUint8_binaryString.
  now rewrite (Hgzip compressed eq_refl).
Qed.

Lemma chunkPayload_not_marked chunk frameForChunk :
  startsWith (chunkPayload chunk frameForChunk) (js "GZ:") = false.
Proof. reflexivity. Qed.

(** [C8]. For every frame payload [s = JSON.stringify({text, frame})],
    with pako and atob undoing what gzip and btoa did to it:
    [processQrText] recovers [s] from what the compression step of the
    encoder emits for it; that is ["GZ:" + base64(gzip(s))] when
    [len(s) > 100] (and compression goes through) and [s] itself when
    [len(s) <= 100]. *)
Theorem processQrText_recovers_payload (chunk : jsstring) (frameForChunk : nat) :
  let s := chunkPayload chunk frameForChunk in
  (forall compressed, gzip s = Some compressed -> ungzip compressed = Some s) ->
  (forall compressed encoded,
      gzip s = Some compressed -> btoa (binaryString compressed) = Some encoded ->
      atob encoded = Some (binaryString compressed)) ->
  processQrText (compressPayload s) = s
  /\ (length s <= 100 -> compressPayload s = s /\ processQrText s = s)
  /\ (100 < length s ->
      forall compressed encoded,
        gzip s = Some compressed -> btoa (binaryString compressed) = Some encoded ->
        compressPayload s = js "GZ:" ++ encoded
        /\ processQrText (js "GZ:" ++ encoded) = s).
Proof.
  intros s Hgzip Hb64.
  pose proof (processQrText_compressPayload s
                (chunkPayload_not_marked chunk frameForChunk) Hgzip Hb64) as Hround.
  split; [exact Hround|]. split.
  - intros Hlen. assert (E : compressPayload s = s).
    { unfold compressPayload. apply Nat.ltb_ge in Hlen. now rewrite Hlen. }
    split; [exact E|]. now rewrite <- E at 1.
  - intros Hlen compressed encoded Eg Eb.
    assert (E : compressPayload s = js "GZ:" ++ encoded).
    { unfold compressPayload. apply Nat.ltb_lt in Hlen. now rewrite Hlen, Eg, Eb. }
    split; [exact E|]. now rewrite <- E.
Qed.

End QrPayloadFacts.

Section QrPayloadWitness.
Import Toy Utils Encoder.

Example long_payload_is_compressed :
  100 < length (chunkPayload longChunk 3)
  /\ startsWith (compressPayload (chunkPayload longChunk 3)) (js "GZ:") = true
  /\ processQrText (compressPayload (chunkPayload longChunk 3)) = chunkPayload longChunk 3.
Proof. split; [vm_compute; lia|]. split; vm_compute; reflexivity. Qed.

(** Outside the payloads the round trip can fail: a short string that
    itself starts with the marker is emitted as it is and decompressed on
    the way back. *)
Example marked_short_string_is_not_recovered :
  let s := js "GZ:" ++ [0; 104; 0; 105]%N in
  compressPayload s = s /\ processQrText s = js "hi".
Proof. split; vm_compute; reflexivity. Qed.

Lemma processQrText_recovers_payload_witness :
  let s := chunkPayload longChunk 3 in
  processQrText (compressPayload s) = s
  /\ (length s <= 100 -> compressPayload s = s /\ processQrText s = s)
  /\ (100 < length s ->
      forall compressed encoded,
        gzip s = Some compressed -> btoa (binaryString compressed) = Some encoded ->
        compressPayload s = js "GZ:" ++ encoded
        /\ processQrText (js "GZ:" ++ encoded) = s).
Proof.
  apply (processQrText_recovers_payload longChunk 3).
  - intros compressed E. vm_compute in E. injection E as <-. vm_compute. reflexivity.
  - intros compressed encoded Eg Eb. vm_compute in Eg. injection Eg as <-.
    vm_compute in Eb. injection Eb as <-. vm_compute. reflexivity.
Defined.

End QrPayloadWitness.

(* ===================================================================== *)
(** ** The retriever and its frame cache                                   *)
(* ===================================================================== *)

Section RetrieverFacts.
Import Utils Retriever.
Context {number : Type} {model : EmbeddingModel number} {hnsw : HNSW number}
        {pako : Pako} {base64 : Base64} {json : Json} {reader : FrameReader}.
Implicit Types (r : MemvidRetriever) (f g : option nat).

Lemma textOfFrame_fails kind f decoded :
  failsAs kind decoded = true -> textOfFrame f decoded = Some (sentinel kind f).
Proof.
  unfold failsAs, textOfFrame, sentinel.
  destruct kind, decoded as [[|c d]|]; try discriminate; try reflexivity.
  destruct (parseChunkText (c :: d)); [discriminate | reflexivity].
Qed.

Lemma timesExtracted_withExtraction f g r :
  timesExtracted f (withExtraction r g)
  = timesExtracted f r + (if bool_decide (g = f) then 1 else 0).
Proof.
  unfold timesExtracted. simpl. rewrite List.filter_app, length_app. simpl.
  now destruct (bool_decide (g = f)).
Qed.

Lemma timesExtracted_withCache f r cache :
  timesExtracted f (withCache r cache) = timesExtracted f r.
Proof. reflexivity. Qed.

Lemma decodeSingleFrame_hit g r video cached :
  usable r video -> _frameCache r !! g = Some cached ->
  _decodeSingleFrame g r = (Returned cached, r).
Proof.
  intros (Hready & Hvideo & Hfps) Hhit. unfold _decodeSingleFrame.
  rewrite Hready, Hvideo, Hhit.
  apply Nat.eqb_neq in Hfps. now rewrite Hfps.
Qed.

Lemma decodeSingleFrame_miss g r video :
  usable r video -> _frameCache r !! g = None ->
  let decoded := decodedAt (length (extractions r)) video (fps r) g in
  _decodeSingleFrame g r =
  (Returned decoded,
   if size (_frameCache r) <? _cacheSize r
   then withCache (withExtraction r g) (<[g := decoded]> (_frameCache r))
   else withExtraction r g).
Proof.
  intros (Hready & Hvideo & Hfps) Hmiss. unfold _decodeSingleFrame.
  rewrite Hready, Hvideo, Hmiss.
  apply Nat.eqb_neq in Hfps. rewrite Hfps.
  unfold extractFrameAndDecode, decodedAt. rewrite Hvideo.
  destruct (readFrameQr _ _ _ _) as [[|c raw]|]; simpl;
    destruct (size (_frameCache r) <? _cacheSize r); reflexivity.
Qed.

Lemma decodeLoop_acc (results : list (@SearchResult number)) : forall r texts,
  decodeLoop results r texts =
  match decodeLoop results r [] with
  | (Returned rest, r') => (Returned (texts ++ rest), r')
  | (Thrown msg, r') => (Thrown msg, r')
  end.
Proof.
  induction results as [|x results IH]; intros r texts; simpl.
  - now rewrite app_nil_r.
  - destruct (_decodeSingleFrame _ r) as [[decoded|msg] r1]; [|reflexivity].
    rewrite (IH r1 (texts ++ _)), (IH r1 [_]).
    destruct (decodeLoop results r1 []) as [[rest|msg] r2]; [|reflexivity].
    now rewrite <- app_assoc.
Qed.

(** Once the failure of a frame is in the cache, every later hit of the
    frame yields the sentinel, and the frame is not extracted again. *)
Lemma decodeLoop_cached kind f cached video
    (results : list (@SearchResult number)) : forall r,
  failsAs kind cached = true ->
  usable r video -> _frameCache r !! f = Some cached ->
  exists texts r',
    decodeLoop results r [] = (Returned texts, r')
    /\ usable r' video /\ fps r' = fps r /\ indexManager r' = indexManager r
    /\ _frameCache r' !! f = Some cached
    /\ timesExtracted f r' = timesExtracted f r
    /\ forall i, nth_error (frameNumbers results) i = Some f ->
                 nth_error texts i = Some (Some (sentinel kind f)).
Proof.
  intros r Hfail. revert r.
  induction results as [|x results IH]; intros r Hr Hf.
  - exists [], r. simpl. repeat split; auto; try apply Hr.
    intros [|i]; discriminate.
  - cbn [decodeLoop]. set (g := meta_frame (metadata_of x)).
    assert (Hstep : exists decoded r1,
               _decodeSingleFrame g r = (Returned decoded, r1)
               /\ usable r1 video /\ fps r1 = fps r /\ indexManager r1 = indexManager r
               /\ _frameCache r1 !! f = Some cached
               /\ timesExtracted f r1 = timesExtracted f r
               /\ (g = f -> decoded = cached)).
    { destruct (_frameCache r !! g) as [hit|] eqn:Eg.
      - exists hit, r. rewrite (decodeSingleFrame_hit g r video hit Hr Eg).
        repeat split; auto; try apply Hr. intros ->. congruence.
      - assert (Hne : g <> f) by congruence.
        rewrite (decodeSingleFrame_miss g r video Hr Eg).
        eexists _, _. split; [reflexivity|].
        destruct Hr as (Hready & Hvideo & Hfps).
        destruct (size (_frameCache r) <? _cacheSize r); simpl;
          rewrite ?timesExtracted_withCache, ?timesExtracted_withExtraction;
          rewrite ?lookup_insert_ne by exact Hne;
          rewrite ?bool_decide_eq_false_2 by exact Hne;
          repeat split; auto; try lia; try (intros; contradiction). }
    destruct Hstep as (decoded & r1 & E1 & Hr1 & Hfps1 & Him1 & Hf1 & Ht1 & Hdec).
    rewrite E1, decodeLoop_acc.
    destruct (IH r1 Hr1 Hf1) as (texts & r2 & E2 & Hr2 & Hfps2 & Him2 & Hf2 & Ht2 & Hpos).
    rewrite E2. eexists _, r2. split; [reflexivity|].
    repeat split; try apply Hr2; try congruence.
    intros [|i] Hi; simpl in Hi |- *.
    + injection Hi as Hi. change (g = f) in Hi. rewrite (Hdec Hi), Hi.
      now rewrite (textOfFrame_fails kind f cached Hfail).
    + now apply Hpos.
Qed.

(** [distinctFrom] looks at [seen] only to ask what is in it. *)
Lemma distinctFrom_ext (frames : list (option nat)) : forall seen seen',
  (forall x, x ∈ seen <-> x ∈ seen') ->
  distinctFrom seen frames = distinctFrom seen' frames.
Proof.
  induction frames as [|x frames IH]; intros seen seen' Hsame; [reflexivity|].
  cbn [distinctFrom].
  rewrite (bool_decide_ext (x ∈ seen) (x ∈ seen')) by apply Hsame.
  destruct (bool_decide (x ∈ seen')); [now apply IH|].
  f_equal. apply IH. intros y. rewrite !elem_of_cons, Hsame. tauto.
Qed.

(** Caching a frame, or leaving it out as already seen, comes to the same
    for the frames still to be cached. *)
Lemma uncached_insert_distinctFrom cache g d (frames : list (option nat)) : forall seen,
  uncached (<[g := d]> cache) (distinctFrom seen frames)
  = uncached cache (distinctFrom (g :: seen) frames).
Proof.
  induction frames as [|x frames IH]; intros seen; [reflexivity|].
  cbn [distinctFrom].
  destruct (decide (x = g)) as [->|Hne].
  - rewrite (bool_decide_eq_true_2 (g ∈ g :: seen)) by apply list_elem_of_here.
    destruct (bool_decide (g ∈ seen)) eqn:Eseen; [apply IH|].
    unfold uncached at 1. cbn [List.filter]. rewrite lookup_insert_eq.
    fold (uncached (<[g := d]> cache) (distinctFrom (g :: seen) frames)).
    rewrite IH. f_equal. apply distinctFrom_ext.
    intros y. rewrite !elem_of_cons. tauto.
  - rewrite (bool_decide_ext (x ∈ g :: seen) (x ∈ seen))
      by (rewrite elem_of_cons; tauto).
    destruct (bool_decide (x ∈ seen)); [apply IH|].
    unfold uncached. cbn [List.filter]. rewrite lookup_insert_ne by congruence.
    fold (uncached (<[g := d]> cache) (distinctFrom (x :: seen) frames)).
    fold (uncached cache (distinctFrom (x :: g :: seen) frames)).
    rewrite IH.
    rewrite (distinctFrom_ext frames (g :: x :: seen) (x :: g :: seen))
      by (intros y; rewrite !elem_of_cons; tauto).
    reflexivity.
Qed.

Lemma slotsBefore_here f cache frames : slotsBefore f cache (f :: frames) = 0.
Proof.
  unfold slotsBefore. cbn [framesBefore].
  now rewrite bool_decide_eq_true_2 by reflexivity.
Qed.

Lemma slotsBefore_miss f g cache d frames :
  g <> f -> cache !! g = None ->
  slotsBefore f cache (g :: frames) = S (slotsBefore f (<[g := d]> cache) frames).
Proof.
  intros Hne Hg. unfold slotsBefore, distinctFrames. cbn [framesBefore].
  rewrite bool_decide_eq_false_2 by exact Hne. cbn [distinctFrom].
  rewrite bool_decide_eq_false_2 by apply not_elem_of_nil.
  unfold uncached at 1. cbn [List.filter]. rewrite Hg. cbn [length].
  fold (uncached cache (distinctFrom [g] (framesBefore f frames))).
  now rewrite uncached_insert_distinctFrom.
Qed.

Lemma slotsBefore_hit f g cache v frames :
  g <> f -> cache !! g = Some v ->
  slotsBefore f cache (g :: frames) = slotsBefore f cache frames.
Proof.
  intros Hne Hg. unfold slotsBefore, distinctFrames. cbn [framesBefore].
  rewrite bool_decide_eq_false_2 by exact Hne. cbn [distinctFrom].
  rewrite bool_decide_eq_false_2 by apply not_elem_of_nil.
  unfold uncached at 1. cbn [List.filter]. rewrite Hg.
  fold (uncached cache (distinctFrom [g] (framesBefore f frames))).
  rewrite <- (uncached_insert_distinctFrom cache g v).
  now rewrite (insert_id cache g v Hg).
Qed.

(** When the cache is still below its capacity as the query reaches a
    failing frame, the frame is extracted once and its failure is cached. *)
Lemma decodeLoop_first kind f video rate
    (results : list (@SearchResult number)) : forall r,
  (forall n, failsAs kind (decodedAt n video rate f) = true) ->
  usable r video -> fps r = rate ->
  _frameCache r !! f = None ->
  size (_frameCache r) + slotsBefore f (_frameCache r) (frameNumbers results)
  < _cacheSize r ->
  In f (frameNumbers results) ->
  exists texts r' cached,
    decodeLoop results r [] = (Returned texts, r')
    /\ usable r' video /\ fps r' = rate /\ indexManager r' = indexManager r
    /\ _frameCache r' !! f = Some cached /\ failsAs kind cached = true
    /\ timesExtracted f r' = S (timesExtracted f r)
    /\ forall i, nth_error (frameNumbers results) i = Some f ->
                 nth_error texts i = Some (Some (sentinel kind f)).
Proof.
  intros r Hfail. revert r.
  induction results as [|x results IH]; intros r Hr Hrate Hf Hroom Hin; [destruct Hin|].
  cbn [decodeLoop]. set (g := meta_frame (metadata_of x)).
  cbn [frameNumbers map] in Hroom. fold g in Hroom.
  fold (frameNumbers results) in Hroom.
  destruct (decide (g = f)) as [Egf|Hne].
  - (* the failing frame itself: extracted and cached now *)
    rewrite Egf in *. rewrite slotsBefore_here in Hroom.
    assert (Hlt : (size (_frameCache r) <? _cacheSize r) = true)
      by (apply Nat.ltb_lt; lia).
    rewrite (decodeSingleFrame_miss f r video Hr Hf), Hlt.
    set (decoded := decodedAt _ _ _ f).
    assert (Hdec : failsAs kind decoded = true) by (subst decoded; rewrite Hrate; apply Hfail).
    set (r1 := withCache _ _).
    assert (Hr1 : usable r1 video) by (destruct Hr as (? & ? & ?); repeat split; auto).
    assert (Hf1 : _frameCache r1 !! f = Some decoded) by (simpl; apply lookup_insert_eq).
    rewrite decodeLoop_acc.
    destruct (decodeLoop_cached kind f decoded video results r1 Hdec Hr1 Hf1)
      as (texts & r2 & E2 & Hr2 & Hfps2 & Him2 & Hf2 & Ht2 & Hpos).
    rewrite E2. eexists _, r2, decoded. split; [reflexivity|].
    split; [exact Hr2|]. split; [simpl in Hfps2; congruence|].
    split; [exact Him2|]. split; [exact Hf2|]. split; [exact Hdec|]. split.
    { rewrite Ht2. subst r1. unfold timesExtracted. simpl.
      rewrite List.filter_app, length_app. simpl.
      rewrite bool_decide_eq_true_2 by reflexivity. simpl. lia. }
    intros [|i] Hi; simpl in Hi |- *.
    + now rewrite (textOfFrame_fails kind f decoded Hdec).
    + now apply Hpos.
  - (* another frame *)
    assert (Hin' : In f (frameNumbers results)).
    { destruct Hin as [E|Hin']; [|exact Hin']. now destruct Hne. }
    assert (Hstep : exists decoded r1,
               _decodeSingleFrame g r = (Returned decoded, r1)
               /\ usable r1 video /\ fps r1 = rate /\ indexManager r1 = indexManager r
               /\ _frameCache r1 !! f = None
               /\ size (_frameCache r1)
                  + slotsBefore f (_frameCache r1) (frameNumbers results)
                  < _cacheSize r1
               /\ timesExtracted f r1 = timesExtracted f r).
    { destruct (_frameCache r !! g) as [hit|] eqn:Eg.
      - exists hit, r. rewrite (decodeSingleFrame_hit g r video hit Hr Eg).
        rewrite (slotsBefore_hit f g _ hit _ Hne Eg) in Hroom.
        repeat split; auto; apply Hr.
      - set (decoded := decodedAt (length (extractions r)) video (fps r) g).
        rewrite (slotsBefore_miss f g _ decoded _ Hne Eg) in Hroom.
        assert (Hlt : (size (_frameCache r) <? _cacheSize r) = true)
          by (apply Nat.ltb_lt; lia).
        rewrite (decodeSingleFrame_miss g r video Hr Eg), Hlt. fold decoded.
        eexists _, _. split; [reflexivity|].
        destruct Hr as (Hready & Hvideo & Hfps). simpl.
        rewrite timesExtracted_withCache, timesExtracted_withExtraction.
        rewrite lookup_insert_ne by exact Hne.
        rewrite bool_decide_eq_false_2 by exact Hne.
        rewrite map_size_insert_None by exact Eg.
        repeat split; auto; lia. }
    destruct Hstep as (decoded & r1 & E1 & Hr1 & Hfps1 & Him1 & Hf1 & Hroom1 & Ht1).
    rewrite E1, decodeLoop_acc.
    destruct (IH r1 Hr1 Hfps1 Hf1 Hroom1 Hin')
      as (texts & r2 & cached & E2 & Hr2 & Hfps2 & Him2 & Hf2 & Hc2 & Ht2 & Hpos).
    rewrite E2. eexists _, r2, cached. split; [reflexivity|].
    repeat split; try apply Hr2; try congruence.
    intros [|i] Hi; simpl in Hi |- *.
    + injection Hi as Hi. change (g = f) in Hi. now destruct Hne.
    + now apply Hpos.
Qed.

(** The cache has room when the query reaches the frame exactly when it
    has room for the distinct frames, not cached yet, of the results
    before the frame, and for one more. *)
Lemma room_when_the_frame_is_reached f video
    (results : list (@SearchResult number)) : forall r,
  usable r video ->
  size (_frameCache (whenReaching f results r)) < _cacheSize r
  <-> size (_frameCache r) + slotsBefore f (_frameCache r) (frameNumbers results)
      < _cacheSize r.
Proof.
  induction results as [|x results IH]; intros r Hr.
  - unfold whenReaching, slotsBefore. cbn. lia.
  - unfold whenReaching. cbn [frameNumbers map framesBefore].
    set (g := meta_frame (metadata_of x)). fold (frameNumbers results).
    destruct (decide (g = f)) as [Egf|Hne].
    + rewrite bool_decide_eq_true_2 by exact Egf. rewrite Egf, slotsBefore_here.
      cbn. lia.
    + rewrite bool_decide_eq_false_2 by exact Hne.
      cbn [length firstn decodeLoop]. fold g.
      assert (Hstep : exists decoded r1,
                 _decodeSingleFrame g r = (Returned decoded, r1)
                 /\ usable r1 video /\ _cacheSize r1 = _cacheSize r
                 /\ (size (_frameCache r1)
                     + slotsBefore f (_frameCache r1) (frameNumbers results)
                     < _cacheSize r
                     <-> size (_frameCache r)
                         + slotsBefore f (_frameCache r) (g :: frameNumbers results)
                         < _cacheSize r)).
      { destruct (_frameCache r !! g) as [hit|] eqn:Eg.
        - exists hit, r. rewrite (decodeSingleFrame_hit g r video hit Hr Eg).
          rewrite (slotsBefore_hit f g _ hit _ Hne Eg).
          split; [reflexivity|]. split; [exact Hr|]. split; [reflexivity|]. tauto.
        - set (decoded := decodedAt (length (extractions r)) video (fps r) g).
          rewrite (decodeSingleFrame_miss g r video Hr Eg). fold decoded.
          rewrite (slotsBefore_miss f g _ decoded _ Hne Eg).
          eexists _, _. split; [reflexivity|].
          destruct Hr as (Hready & Hvideo & Hfps).
          destruct (size (_frameCache r) <? _cacheSize r) eqn:Elt; simpl.
          + rewrite map_size_insert_None by exact Eg.
            repeat split; auto; lia.
          + apply Nat.ltb_ge in Elt. repeat split; auto; lia. }
      destruct Hstep as (decoded & r1 & E1 & Hr1 & Hsize1 & Hiff).
      rewrite E1, decodeLoop_acc.
      specialize (IH r1 Hr1). unfold whenReaching in IH. rewrite Hsize1 in IH.
      destruct (decodeLoop _ r1 []) as [[texts|msg] r2]; cbn [snd] in *;
        now rewrite IH.
Qed.

(** [C6] (as amended). Take a ready retriever, a frame that is not in its
    cache and whose extraction or payload parse fails whenever it is
    attempted, and a first query that hits the frame while the cache is
    below its capacity: it still has room when the query reaches the
    frame, that is, room for the distinct frames of the results before
    it that are not cached yet, and for one more (results whose frame is
    cached or was met earlier in the query take no room; see
    [room_when_the_frame_is_reached]). Then [search] returns, at every
    position that refers to the frame, the sentinel that names the frame
    (["[Frame n not readable]"] for a failed extraction,
    ["[Frame n decode error]"] for a parse failure); the failed result is
    in the cache afterwards; a second query returns the same sentinel at
    every position that refers to the frame; and over both queries the
    frame was extracted exactly once. *)
Theorem failed_frame_sentinel_is_cached
    (kind : FailureKind) (f : option nat) (r : MemvidRetriever) (w : World)
    (video : list byte) (query1 query2 : jsstring) (k1 k2 : nat)
    (results1 results2 : list (@SearchResult number)) :
  usable r video ->
  fst (IndexManager.search query1 k1 (indexManager r) w) = Returned results1 ->
  let w1 := snd (IndexManager.search query1 k1 (indexManager r) w) in
  fst (IndexManager.search query2 k2 (indexManager r) w1) = Returned results2 ->
  let w2 := snd (IndexManager.search query2 k2 (indexManager r) w1) in
  In f (frameNumbers results1) ->
  _frameCache r !! f = None ->
  size (_frameCache r) + slotsBefore f (_frameCache r) (frameNumbers results1)
  < _cacheSize r ->
  (forall n, failsAs kind (decodedAt n video (fps r) f) = true) ->
  exists texts1 r1 texts2 r2 cached,
    search query1 k1 r w = (Returned texts1, r1, w1)
    /\ search query2 k2 r1 w1 = (Returned texts2, r2, w2)
    /\ (forall i, nth_error (frameNumbers results1) i = Some f ->
                  nth_error texts1 i = Some (Some (sentinel kind f)))
    /\ (forall i, nth_error (frameNumbers results2) i = Some f ->
                  nth_error texts2 i = Some (Some (sentinel kind f)))
    /\ _frameCache r1 !! f = Some cached
    /\ _frameCache r2 !! f = Some cached
    /\ failsAs kind cached = true
    /\ timesExtracted f r2 = S (timesExtracted f r).
Proof.
  intros Hr Hs1 w1 Hs2 w2 Hin Hmiss Hroom Hfail.
  destruct (decodeLoop_first kind f video (fps r) results1 r Hfail Hr eq_refl
              Hmiss Hroom Hin)
    as (texts1 & r1 & cached & E1 & Hr1 & Hfps1 & Him1 & Hf1 & Hc1 & Ht1 & Hpos1).
  destruct (decodeLoop_cached kind f cached video results2 r1 Hc1 Hr1 Hf1)
    as (texts2 & r2 & E2 & Hr2 & Hfps2 & Him2 & Hf2 & Ht2 & Hpos2).
  exists texts1, r1, texts2, r2, cached.
  split.
  { unfold search. destruct Hr as (Hready & _). rewrite Hready.
    subst w1. destruct (IndexManager.search query1 k1 (indexManager r) w) as [o w'].
    simpl in Hs1 |- *. subst o. now rewrite E1. }
  split.
  { unfold search. destruct Hr1 as (Hready & _). rewrite Hready, Him1.
    subst w2. destruct (IndexManager.search query2 k2 (indexManager r) w1) as [o w'].
    simpl in Hs2 |- *. subst o. now rewrite E2. }
  repeat split; auto. congruence.
Qed.

End RetrieverFacts.

Section RetrieverWitness.
Import Toy Fixtures2 Retriever.

(** [C6] as stated fails: the sentinels are not the bare markers, they
    name the frame. *)
Lemma failed_frame_sentinel_names_the_frame :
  fst (fst (search (js "1234567") 1 toyRetriever savedWorld))
  = Returned [Some (js "[Frame 7 not readable]")]
  /\ fst (fst (search (js "1234567") 1 toyRetriever savedWorld))
     <> Returned [Some (js "[not readable]")]
  /\ fst (fst (search (js "12345678") 1 toyRetriever savedWorld))
     = Returned [Some (js "[Frame 8 decode error]")]
  /\ fst (fst (search (js "12345678") 1 toyRetriever savedWorld))
     <> Returned [Some (js "[decode error]")].
Proof.
  assert (E7 : fst (fst (search (js "1234567") 1 toyRetriever savedWorld))
               = Returned [Some (js "[Frame 7 not readable]")])
    by (vm_compute; reflexivity).
  assert (E8 : fst (fst (search (js "12345678") 1 toyRetriever savedWorld))
               = Returned [Some (js "[Frame 8 decode error]")])
    by (vm_compute; reflexivity).
  rewrite E7, E8. repeat split; intros E; vm_compute in E; discriminate.
Qed.

Example readable_frame_is_decoded :
  fst (fst (search (js "123456789") 1 toyRetriever savedWorld))
  = Returned [Some (js "chunk")].
Proof. vm_compute. reflexivity. Qed.

(** The cache of [warmedRetriever] holds frame 9 and has room for one
    more frame. The query hits frame 9, then frame 8, which does not
    parse: frame 9 takes no room, so the failure of frame 8 is cached. *)
Lemma failed_frame_sentinel_is_cached_witness :
  let w1 := snd (IndexManager.search (js "123456789") 2 (indexManager warmedRetriever)
                   savedWorld) in
  let w2 := snd (IndexManager.search (js "123456789") 2 (indexManager warmedRetriever)
                   w1) in
  size (_frameCache warmedRetriever) = 1 /\ _cacheSize warmedRetriever = 2
  /\ exists texts1 r1 texts2 r2 cached,
    search (js "123456789") 2 warmedRetriever savedWorld = (Returned texts1, r1, w1)
    /\ search (js "123456789") 2 r1 w1 = (Returned texts2, r2, w2)
    /\ (forall i, nth_error (frameNumbers hitsOfFrames98) i = Some (Some 8) ->
                  nth_error texts1 i = Some (Some (sentinel ParseFails (Some 8))))
    /\ (forall i, nth_error (frameNumbers hitsOfFrames98) i = Some (Some 8) ->
                  nth_error texts2 i = Some (Some (sentinel ParseFails (Some 8))))
    /\ _frameCache r1 !! Some 8 = Some cached
    /\ _frameCache r2 !! Some 8 = Some cached
    /\ failsAs ParseFails cached = true
    /\ timesExtracted (Some 8) r2 = S (timesExtracted (Some 8) warmedRetriever).
Proof.
  split; [vm_compute; reflexivity|]. split; [reflexivity|].
  apply (failed_frame_sentinel_is_cached ParseFails (Some 8) warmedRetriever
           savedWorld [] (js "123456789") (js "123456789") 2 2
           hitsOfFrames98 hitsOfFrames98).
  - repeat split; vm_compute; discriminate.
  - vm_compute. reflexivity.
  - vm_compute. reflexivity.
  - vm_compute. right. left. reflexivity.
  - vm_compute. reflexivity.
  - vm_compute. lia.
  - intros n. reflexivity.
Defined.

Example failed_frame_sentinel_after_a_cached_hit :
  fst (fst (search (js "123456789") 2 warmedRetriever savedWorld))
  = Returned [Some (js "chunk"); Some (js "[Frame 8 decode error]")].
Proof. vm_compute. reflexivity. Qed.

End RetrieverWitness.

(* ===================================================================== *)
(** ** The chat session                                                    *)
(* ===================================================================== *)

Section ChatFacts.
Import Chat.
Context {number : Type} {model : EmbeddingModel number} {hnsw : HNSW number}
        {pako : Utils.Pako} {base64 : Utils.Base64} {json : Json}
        {reader : FrameReader}.

Lemma chat_keeps_history message (c : MemvidChat) (w : IndexManager.World) :
  conversationHistory (snd (fst (chat message c w))) = conversationHistory c
  /\ maxHistoryLength (snd (fst (chat message c w))) = maxHistoryLength c
  /\ llmClient (snd (fst (chat message c w))) = llmClient c.
Proof.
  unfold chat, getContext.
  destruct (Retriever.search _ _ _ _) as [[[contextChunks|msg] r'] w'];
    [|repeat split].
  destruct contextChunks as [|chunk rest]; [repeat split|].
  destruct (trim _); repeat split.
Qed.

(** [C9] fails on the code: [chat] is retrieval-only. It composes no
    prompt, calls no LLM and records nothing: whatever the configured
    [maxHistoryLength] and whether or not an LLM client was given, the
    conversation history after any run of turns is the history before it,
    so after [startSession] it is empty. *)
Theorem chat_never_records_history (messages : list jsstring)
    (c : MemvidChat) (w : IndexManager.World) :
  conversationHistory (snd (fst (chatTurns messages c w))) = conversationHistory c
  /\ forall prompt sessionId generatedId,
       conversationHistory
         (snd (fst (chatTurns messages (startSession prompt sessionId generatedId c) w)))
       = [].
Proof.
  assert (Hgen : forall msgs c0 w0,
             conversationHistory (snd (fst (chatTurns msgs c0 w0)))
             = conversationHistory c0).
  { induction msgs as [|message msgs IH]; intros c0 w0; [reflexivity|].
    cbn [chatTurns].
    pose proof (chat_keeps_history message c0 w0) as (Hh & _).
    destruct (chat message c0 w0) as [[response c1] w1]. simpl in Hh.
    specialize (IH c1 w1).
    destruct (chatTurns msgs c1 w1) as [[responses c2] w2]. simpl in IH |- *.
    congruence. }
  split; [apply Hgen|]. intros prompt sessionId generatedId.
  now rewrite Hgen.
Qed.

End ChatFacts.

Section ChatWitness.
Import Toy Chat.

(** The scenario of the repository's test "should handle chat history
    correctly": [maxHistoryLength = 2], an LLM client, two turns. *)
Example two_turns_leave_the_history_empty :
  let client := {| llmChat := fun _ => Some {| role := assistant; content := js "response" |} |} in
  let session :=
    startSession None None (js "session_0")
                 (newChat toyRetriever toyMemvidConfig (Some client)) in
  maxHistoryLength session = 2
  /\ fst (fst (chatTurns [js "message 1"; js "message 2"] session savedWorld))
     = (let context :=
          js "Context from video:" ++ [10%N] ++ js "chunk" ++ [10%N; 10%N]
          ++ js "[Frame 8 decode error]" ++ [10%N; 10%N] ++ js "[Frame 7 not readable]" in
        [Returned context; Returned context])
  /\ conversationHistory
       (snd (fst (chatTurns [js "message 1"; js "message 2"] session savedWorld)))
     = [].
Proof. repeat split; vm_compute; reflexivity. Qed.

End ChatWitness.

(* ===================================================================== *)
(** * Further properties of the code                                       *)
(* ===================================================================== *)

(** ** The character splitter *)

Section SimpleChunker.
Implicit Types (text chunk : jsstring) (size overlap : Z).

Lemma simpleChunkLoop_acc fuel text size2 step2 : forall i2 acc,
  simpleChunkLoop fuel text size2 step2 i2 acc
  = acc ++ simpleChunkLoop fuel text size2 step2 i2 [].
Proof.
  induction fuel as [|fuel IH]; intros i2 acc; cbn [simpleChunkLoop].
  - now rewrite app_nil_r.
  - cbv zeta. destruct (i2 <? _)%Z; [|now rewrite app_nil_r].
    rewrite IH, (IH _ ([] ++ _)). now rewrite app_assoc.
Qed.

Lemma length_slice text a b : length (slice text a b) = Nat.min (b - a) (length text - a).
Proof. unfold slice. now rewrite length_firstn, length_skipn. Qed.

(** One iteration of the loop, in natural numbers. *)
Lemma simpleChunkLoop_step fuel text size step2 i2 :
  (0 < size)%Z -> (0 <= i2 < 2 * Z.of_nat (length text))%Z ->
  let start := Z.to_nat (i2 / 2) in
  let stop := Nat.min (start + Z.to_nat size) (length text) in
  let end2 := Z.min (i2 + 2 * size) (2 * Z.of_nat (length text)) in
  let next := if ((end2 <=? i2 + step2) && (end2 <? 2 * Z.of_nat (length text)))%Z
              then end2 else (i2 + step2)%Z in
  simpleChunkLoop (S fuel) text (2 * size) step2 i2 []
  = slice text start stop :: simpleChunkLoop fuel text (2 * size) step2 next []
  /\ start < stop /\ stop = start + length (slice text start stop)
  /\ (Z.of_nat stop = end2 / 2)%Z.
Proof.
  intros Hsize Hi start stop end2 next.
  assert (Hstop : Z.to_nat (end2 / 2) = stop).
  { subst stop start end2. Z.div_mod_to_equations. lia. }
  split.
  - cbn [simpleChunkLoop]. cbv zeta.
    assert (E : (i2 <? 2 * Z.of_nat (length text))%Z = true) by (apply Z.ltb_lt; lia).
    rewrite E. fold end2. rewrite Hstop. fold start. fold next.
    now rewrite simpleChunkLoop_acc.
  - rewrite length_slice.
    assert (start < length text) by (subst start; Z.div_mod_to_equations; lia).
    subst stop. repeat split; lia.
Qed.

Lemma simpleChunkLoop_spans text size step2 :
  (0 < size)%Z -> (0 < step2)%Z ->
  forall fuel i2 pos,
    (0 <= i2)%Z ->
    (2 * Z.of_nat (length text) - i2 <= Z.of_nat fuel)%Z ->
    pos <= length text ->
    ((i2 < 2 * Z.of_nat (length text))%Z ->
     (i2 / 2 <= Z.of_nat pos <= i2 / 2 + size)%Z) ->
    ((2 * Z.of_nat (length text) <= i2)%Z -> pos = length text) ->
    exists spans,
      simpleChunkLoop fuel text (2 * size) step2 i2 [] = map snd spans
      /\ tiles text pos spans
      /\ Forall (fun span => fitsSize size (snd span)) spans.
Proof.
  intros Hsize Hstep. induction fuel as [|fuel IH]; intros i2 pos Hi Hfuel Hpos Hin Hout.
  - exists []. simpl. repeat split; [apply Hout; lia | constructor].
  - destruct (Z.lt_ge_cases i2 (2 * Z.of_nat (length text))) as [Hlt|Hge].
    2:{ exists []. cbn [simpleChunkLoop]. cbv zeta.
        assert (E : (i2 <? 2 * Z.of_nat (length text))%Z = false) by (apply Z.ltb_ge; lia).
        rewrite E. simpl. repeat split; [now apply Hout | constructor]. }
    destruct (simpleChunkLoop_step fuel text size step2 i2 Hsize (conj Hi Hlt))
      as (E & Hne & Hlen & Hend).
    cbv zeta in E, Hne, Hlen, Hend.
    set (start := Z.to_nat (i2 / 2)) in *.
    set (stop := Nat.min (start + Z.to_nat size) (length text)) in *.
    set (end2 := Z.min (i2 + 2 * size) (2 * Z.of_nat (length text))) in *.
    set (next := if ((end2 <=? i2 + step2) && (end2 <? 2 * Z.of_nat (length text)))%Z
                 then end2 else (i2 + step2)%Z) in *.
    specialize (Hin Hlt).
    assert (Hnext : (i2 < next)%Z /\ ((next < 2 * Z.of_nat (length text))%Z ->
                                      (next / 2 <= Z.of_nat stop)%Z)
                    /\ ((2 * Z.of_nat (length text) <= next)%Z -> stop = length text)).
    { subst next.
      destruct ((end2 <=? i2 + step2)%Z) eqn:E1;
        destruct ((end2 <? 2 * Z.of_nat (length text))%Z) eqn:E2; cbn [andb];
        try apply Z.leb_le in E1; try apply Z.leb_gt in E1;
        try apply Z.ltb_lt in E2; try apply Z.ltb_ge in E2;
        repeat split; intros; try (subst end2; lia);
        try (rewrite Hend; Z.div_mod_to_equations; lia);
        try (apply Nat2Z.inj; rewrite Hend; subst end2; Z.div_mod_to_equations; lia). }
    destruct Hnext as (Hgrow & Hnin & Hnout).
    destruct (IH next stop) as (spans & Es & Ht & Hb); try lia.
    { intros Hn. split; [now apply Hnin|].
      subst stop start. Z.div_mod_to_equations. lia. }
    exists ((start, slice text start stop) :: spans).
    rewrite E, Es. split; [reflexivity|]. split.
    + cbn [tiles]. rewrite <- Hlen.
      split; [subst start; lia|]. split; [subst stop start; lia|].
      split; [reflexivity | exact Ht].
    + constructor; [|exact Hb]. simpl. split.
      * intros E0. rewrite E0 in Hlen. simpl in Hlen. lia.
      * unfold strLen. subst stop. lia.
Qed.

Lemma simpleChunkLoop_done fuel text size2 step2 i2 :
  (2 * Z.of_nat (length text) <= i2)%Z ->
  simpleChunkLoop fuel text size2 step2 i2 [] = [].
Proof.
  intros Hge. destruct fuel as [|fuel]; [reflexivity|].
  cbn [simpleChunkLoop]. cbv zeta.
  assert (E : (i2 <? 2 * Z.of_nat (length text))%Z = false) by (apply Z.ltb_ge; lia).
  now rewrite E.
Qed.

(** The final filter of [simpleChunkText] removes nothing. *)
Lemma simpleChunkText_unfiltered text size overlap :
  (0 < size)%Z ->
  let overlap2 := if (size <=? overlap)%Z then size else (2 * overlap)%Z in
  (0 < 2 * size - overlap2)%Z
  /\ simpleChunkText text size overlap
     = simpleChunkLoop (2 * length text) text (2 * size) (2 * size - overlap2) 0 [].
Proof.
  intros Hsize overlap2.
  assert (Hstep : (0 < 2 * size - overlap2)%Z).
  { subst overlap2. destruct (size <=? overlap)%Z eqn:Eo; [lia|]. apply Z.leb_gt in Eo. lia. }
  split; [exact Hstep|]. unfold simpleChunkText.
  destruct text as [|c0 text0] eqn:Et; [reflexivity|].
  rewrite <- Et. assert (E : (size <=? 0)%Z = false) by (apply Z.leb_gt; lia).
  rewrite E. cbv zeta. fold overlap2.
  destruct (simpleChunkLoop_spans text size _ Hsize Hstep (2 * length text) 0 0)
    as (spans & Es & Ht & Hb); try lia.
  { intros _. rewrite Z.div_0_l by lia. lia. }
  rewrite Es.
  apply filter_all. apply forallb_forall. intros chunk Hin.
  apply in_map_iff in Hin as (span & <- & Hin).
  rewrite Forall_forall in Hb. apply list_elem_of_In in Hin. destruct (Hb span Hin) as [Hne _].
  apply Nat.ltb_lt. destruct (snd span); [congruence | simpl; lia].
Qed.

(** What [simpleChunkText] returns for a positive size: the windows of a
    tiling of the text, none of them empty or longer than [size]. *)
Lemma simpleChunkText_spans text size overlap :
  (0 < size)%Z ->
  exists spans,
    simpleChunkText text size overlap = map snd spans
    /\ tiles text 0 spans
    /\ Forall (fun span => fitsSize size (snd span)) spans.
Proof.
  intros Hsize.
  destruct (simpleChunkText_unfiltered text size overlap Hsize) as [Hstep ->].
  apply simpleChunkLoop_spans; try lia.
  intros _. rewrite Z.div_0_l by lia. lia.
Qed.

Lemma simpleChunkText_fitsSize text size overlap :
  Forall (fitsSize size) (simpleChunkText text size overlap).
Proof.
  destruct (Z.lt_ge_cases 0 size) as [Hsize|Hsize].
  - destruct (simpleChunkText_spans text size overlap Hsize) as (spans & -> & _ & Hb).
    now apply Forall_map.
  - unfold simpleChunkText. destruct text; [constructor|].
    assert (E : (size <=? 0)%Z = true) by (apply Z.leb_le; lia).
    rewrite E. constructor.
Qed.

(** The windows of a tiling, read one after the other, contain the text
    from [pos] on as a subsequence. *)
Lemma tiles_sublist text : forall spans pos,
  tiles text pos spans -> sublist (skipn pos text) (concat (map snd spans)).
Proof.
  induction spans as [|[start chunk] spans IH]; intros pos; cbn [tiles map concat snd].
  - intros ->. rewrite skipn_all. constructor.
  - intros (Hstart & Hpos & Hchunk & Hrest).
    set (stop := start + length chunk) in *.
    specialize (IH stop Hrest).
    assert (E1 : skipn pos text = firstn (stop - pos) (skipn pos text) ++ skipn stop text).
    { rewrite <- (firstn_skipn (stop - pos) (skipn pos text)) at 1.
      rewrite drop_drop. now replace (pos + (stop - pos)) with stop by lia. }
    assert (E2 : chunk = firstn (pos - start) (skipn start text)
                         ++ firstn (stop - pos) (skipn pos text)).
    { rewrite Hchunk at 1. unfold slice.
      replace (stop - start) with ((pos - start) + (stop - pos)) by lia.
      rewrite <- take_take_drop, drop_drop.
      now replace (start + (pos - start)) with pos by lia. }
    rewrite E1, E2. apply sublist_app; [|exact IH].
    apply sublist_inserts_l. reflexivity.
Qed.

(** Without overlap the loop cuts the text from [start] on into
    consecutive pieces of [size] code units, the last one possibly
    shorter. *)
Lemma simpleChunkLoop_partition text size step2 :
  (0 < size)%Z -> (2 * size <= step2)%Z ->
  forall fuel start,
    start <= length text ->
    (2 * Z.of_nat (length text) - 2 * Z.of_nat start <= Z.of_nat fuel)%Z ->
    let chunks := simpleChunkLoop fuel text (2 * size) step2 (2 * Z.of_nat start) [] in
    concat chunks = skipn start text
    /\ Z.of_nat (length chunks) = ((Z.of_nat (length text - start) + size - 1) / size)%Z.
Proof.
  intros Hsize Hstep. induction fuel as [|fuel IH]; intros start Hstart Hfuel; cbv zeta.
  - assert (start = length text) as -> by lia.
    rewrite skipn_all, Nat.sub_diag. simpl. split; [reflexivity|].
    symmetry. apply Z.div_small. lia.
  - destruct (Nat.eq_dec start (length text)) as [->|Hne].
    { rewrite simpleChunkLoop_done by lia.
      rewrite skipn_all, Nat.sub_diag. simpl. split; [reflexivity|].
      symmetry. apply Z.div_small. lia. }
    destruct (simpleChunkLoop_step fuel text size step2 (2 * Z.of_nat start) Hsize)
      as (E & Hlt & Hlen & Hend); [lia|].
    cbv zeta in E, Hlt, Hlen, Hend.
    assert (Ehalf : Z.to_nat (2 * Z.of_nat start / 2) = start).
    { rewrite Z.mul_comm, Z.div_mul by lia. lia. }
    rewrite Ehalf in *.
    set (stop := Nat.min (start + Z.to_nat size) (length text)) in *.
    set (end2 := Z.min (2 * Z.of_nat start + 2 * size) (2 * Z.of_nat (length text))) in *.
    assert (Hend2 : end2 = (2 * Z.of_nat stop)%Z) by (subst end2 stop; lia).
    assert (E1 : (end2 <=? 2 * Z.of_nat start + step2)%Z = true)
      by (apply Z.leb_le; subst end2; lia).
    rewrite E1 in E. cbn [andb] in E. rewrite E. cbn [concat length].
    destruct (end2 <? 2 * Z.of_nat (length text))%Z eqn:E2.
    + apply Z.ltb_lt in E2. rewrite Hend2.
      destruct (IH stop) as [Hcat Hcount]; [lia | lia |].
      rewrite Hcat. split.
      * unfold slice. rewrite <- (firstn_skipn (stop - start) (skipn start text)) at 2.
        rewrite drop_drop. now replace (start + (stop - start)) with stop by lia.
      * rewrite Nat2Z.inj_succ, Hcount.
        assert (Hstop : stop = start + Z.to_nat size) by (subst stop; lia).
        replace (Z.of_nat (length text - start) + size - 1)%Z
          with (Z.of_nat (length text - stop) + size - 1 + 1 * size)%Z by lia.
        rewrite Z.div_add by lia. lia.
    + apply Z.ltb_ge in E2.
      rewrite simpleChunkLoop_done by (subst end2; lia).
      assert (Hstop : stop = length text) by lia.
      rewrite app_nil_r. split.
      * unfold slice. rewrite Hstop. apply firstn_all2. rewrite length_skipn. lia.
      * simpl length. apply Z.div_unique with (r := (Z.of_nat (length text - start) - 1)%Z).
        -- left. subst stop. lia.
        -- lia.
Qed.

Lemma simpleChunkText_partition text size overlap :
  (0 < size)%Z -> (overlap <= 0)%Z ->
  concat (simpleChunkText text size overlap) = text
  /\ Z.of_nat (length (simpleChunkText text size overlap))
     = ((strLen text + size - 1) / size)%Z.
Proof.
  intros Hsize Hoverlap.
  destruct (simpleChunkText_unfiltered text size overlap Hsize) as [_ ->].
  assert (E : (size <=? overlap)%Z = false) by (apply Z.leb_gt; lia).
  rewrite E.
  destruct (simpleChunkLoop_partition text size (2 * size - 2 * overlap) Hsize)
    with (fuel := 2 * length text) (start := 0) as [Hcat Hcount]; try lia.
  change (2 * Z.of_nat 0)%Z with 0%Z in Hcat, Hcount.
  rewrite Hcat, Hcount, Nat.sub_0_r. now split.
Qed.

End SimpleChunker.

(** ** The sentence chunker, on every text *)

Section SentenceChunker.
Implicit Types (text cur raw : jsstring) (s o : Z).



Lemma nonWhiteSpace_sublist (a b : jsstring) :
  sublist a b -> sublist (nonWhiteSpace a) (nonWhiteSpace b).
Proof.
  induction 1 as [|x a b _ IH|x a b _ IH]; unfold nonWhiteSpace in *; simpl.
  - constructor.
  - destruct (isWhiteSpace x); simpl; [exact IH | now constructor].
  - destruct (isWhiteSpace x); simpl; [exact IH | now constructor].
Qed.

Lemma concat_filter_nonempty (l : list jsstring) :
  concat (List.filter (fun chunk => 0 <? length chunk) l) = concat l.
Proof.
  induction l as [|x l IH]; [reflexivity|].
  simpl. destruct x as [|c x]; simpl; [exact IH | now rewrite IH].
Qed.

Lemma nonWhiteSpace_nil_of_trim (x : jsstring) : trim x = [] -> nonWhiteSpace x = [].
Proof. intros E. rewrite <- nonWhiteSpace_trim. now rewrite E. Qed.

(** What the chunks pushed when the running chunk is flushed hold. *)
Lemma nonWhiteSpace_flush (chunks : list jsstring) cur :
  nonWhiteSpace (concat (if (0 <? strLen (trim cur))%Z
                         then chunks ++ [trim cur] else chunks))
  = nonWhiteSpace (concat chunks) ++ nonWhiteSpace cur.
Proof.
  destruct (0 <? strLen (trim cur))%Z eqn:E.
  - rewrite concat_app. simpl. now rewrite app_nil_r, nonWhiteSpace_app, nonWhiteSpace_trim.
  - apply Z.ltb_ge in E. unfold strLen in E.
    rewrite (nonWhiteSpace_nil_of_trim cur); [now rewrite app_nil_r|].
    destruct (trim cur); [reflexivity | simpl in E; lia].
Qed.

Section HeldText.
Variable rel : jsstring -> jsstring -> Prop.
Hypothesis rel_refl : forall x, rel x x.
Hypothesis rel_app : forall a b c d, rel a b -> rel c d -> rel (a ++ c) (b ++ d).
Variables (s o : Z).
Hypothesis rel_split : forall sentence,
  (s < strLen sentence)%Z ->
  rel (nonWhiteSpace sentence) (nonWhiteSpace (concat (simpleChunkText sentence s o))).

(** One sentence more: what the loop holds grows by the characters of the
    sentence (by a string related to them, when the sentence had to go
    through the character splitter). *)
Lemma chunkStep_heldText (st : list jsstring * jsstring) raw :
  exists added,
    heldText (chunkStep s o st raw) = heldText st ++ added
    /\ rel (nonWhiteSpace raw) added.
Proof using rel_refl rel_split.
  destruct st as [chunks cur]. unfold chunkStep.
  destruct (strLen (trim raw) =? 0)%Z eqn:E0.
  { exists []. rewrite app_nil_r. split; [reflexivity|].
    apply Z.eqb_eq in E0. unfold strLen in E0.
    rewrite (nonWhiteSpace_nil_of_trim raw); [apply rel_refl|].
    destruct (trim raw); [reflexivity | simpl in E0; lia]. }
  destruct (s <? strLen (trim raw))%Z eqn:E1.
  { apply Z.ltb_lt in E1.
    exists (nonWhiteSpace (concat (simpleChunkText (trim raw) s o))).
    split.
    - unfold heldText. cbn [fst snd].
      rewrite concat_app, nonWhiteSpace_app, nonWhiteSpace_flush.
      rewrite concat_filter_nonempty. change (nonWhiteSpace []) with (@nil N).
      now rewrite app_nil_r.
    - rewrite <- (nonWhiteSpace_trim raw). now apply rel_split. }
  exists (nonWhiteSpace raw). split; [|apply rel_refl].
  destruct ((s <? _)%Z && (0 <? strLen cur)%Z).
  - unfold heldText. cbn [fst snd]. rewrite concat_app. simpl concat.
    now rewrite app_nil_r, nonWhiteSpace_app, !nonWhiteSpace_trim.
  - unfold heldText. cbn [fst snd]. rewrite nonWhiteSpace_app, nonWhiteSpace_trim.
    destruct (0 <? strLen cur)%Z; [|now rewrite app_assoc].
    rewrite nonWhiteSpace_app. change (nonWhiteSpace (js " ")) with (@nil N).
    now rewrite app_nil_r, app_assoc.
Qed.

Lemma fold_chunkStep_heldText (sentences : list jsstring) :
  forall st : list jsstring * jsstring,
  exists added,
    heldText (fold_left (chunkStep s o) sentences st) = heldText st ++ added
    /\ rel (nonWhiteSpace (concat sentences)) added.
Proof using rel_refl rel_app rel_split.
  induction sentences as [|raw sentences IH]; intros st.
  - exists []. rewrite app_nil_r. split; [reflexivity | apply rel_refl].
  - cbn [fold_left concat].
    destruct (chunkStep_heldText st raw) as (added1 & E1 & R1).
    destruct (IH (chunkStep s o st raw)) as (added2 & E2 & R2).
    exists (added1 ++ added2). rewrite E2, E1, app_assoc. split; [reflexivity|].
    rewrite nonWhiteSpace_app. now apply rel_app.
Qed.

End HeldText.

(** [chunkText] on a text that is not blank, for a positive chunk size:
    the accumulation loop over the sentences, then the last flush. The
    fallback to the character splitter on the whole text is never taken. *)
Lemma chunkText_sentences text s o :
  trim text <> [] -> (0 < s)%Z ->
  exists o',
    ((o <= 0)%Z -> o' = 0%Z)
    /\ forall chunks cur,
         fold_left (chunkStep s o') (List.filter isSentence (splitSentences text)) ([], [])
         = (chunks, cur) ->
         chunkText text s o
         = List.filter (fun chunk => 0 <? length chunk)
             (if 0 <? length (trim cur) then chunks ++ [trim cur] else chunks).
Proof.
  intros Hne Hs.
  assert (Hnws : nonWhiteSpace text <> []) by now apply trim_nonempty_iff.
  unfold chunkText.
  destruct text as [|c0 text0] eqn:Etext; [now destruct Hne|]. rewrite <- Etext in *.
  assert (E1 : (length (trim text) =? 0) = false).
  { apply Nat.eqb_neq. now destruct (trim text). }
  assert (E2 : (s <=? 0)%Z = false) by (apply Z.leb_gt; lia).
  rewrite E1, E2. fold isSentence.
  set (o1 := if (o <? 0)%Z then 0%Z else o).
  set (o' := if (s <=? o1)%Z then (s / 2)%Z else o1).
  exists o'. split.
  { intros Ho. subst o' o1. destruct (o <? 0)%Z eqn:Eo.
    - destruct (s <=? 0)%Z eqn:Es; [apply Z.leb_le in Es; lia | reflexivity].
    - apply Z.ltb_ge in Eo. assert (o = 0%Z) as -> by lia. now rewrite E2. }
  intros chunks cur Efold.
  set (sentences := List.filter isSentence (splitSentences text)) in *.
  assert (Hcat : nonWhiteSpace (concat sentences) = nonWhiteSpace text).
  { subst sentences. now rewrite nonWhiteSpace_filter_isSentence, splitSentences_nonWhiteSpace. }
  destruct sentences as [|x l] eqn:Es; [simpl in Hcat; congruence|]. rewrite <- Es in *.
  now rewrite Efold.
Qed.

(** What [chunkText] returns holds what the text holds, up to [rel]. *)
Lemma chunkText_heldText (rel : jsstring -> jsstring -> Prop) text s o :
  (forall x, rel x x) ->
  (forall a b c d, rel a b -> rel c d -> rel (a ++ c) (b ++ d)) ->
  (forall o', ((o <= 0)%Z -> o' = 0%Z) -> forall sentence,
      (s < strLen sentence)%Z ->
      rel (nonWhiteSpace sentence) (nonWhiteSpace (concat (simpleChunkText sentence s o')))) ->
  trim text <> [] -> (0 < s)%Z ->
  rel (nonWhiteSpace text) (nonWhiteSpace (concat (chunkText text s o))).
Proof.
  intros Hrefl Happ Hsplit Hne Hs.
  destruct (chunkText_sentences text s o Hne Hs) as (o' & Ho' & Hct).
  destruct (fold_left (chunkStep s o') (List.filter isSentence (splitSentences text)) ([], []))
    as [chunks cur] eqn:Efold.
  rewrite (Hct chunks cur eq_refl), concat_filter_nonempty.
  destruct (fold_chunkStep_heldText rel Hrefl Happ s o' (Hsplit o' Ho')
              (List.filter isSentence (splitSentences text)) ([], []))
    as (added & Eheld & Hrel).
  rewrite Efold in Eheld. unfold heldText in Eheld. cbn [fst snd concat] in Eheld.
  change (nonWhiteSpace []) with (@nil N) in Eheld. cbn [app] in Eheld.
  rewrite nonWhiteSpace_filter_isSentence, splitSentences_nonWhiteSpace in Hrel.
  pose proof (nonWhiteSpace_flush chunks cur) as Hflush.
  unfold strLen in Hflush.
  replace (0 <? Z.of_nat (length (trim cur)))%Z with (0 <? length (trim cur)) in Hflush.
  - rewrite Hflush, Eheld. exact Hrel.
  - destruct (trim cur); reflexivity.
Qed.

Lemma chunkStep_bounded s o (st : list jsstring * jsstring) raw :
  (0 < s)%Z ->
  Forall (fun chunk => (strLen chunk <= s)%Z) (fst st) -> (strLen (snd st) <= s)%Z ->
  Forall (fun chunk => (strLen chunk <= s)%Z) (fst (chunkStep s o st raw))
  /\ (strLen (snd (chunkStep s o st raw)) <= s)%Z.
Proof.
  intros Hs. destruct st as [chunks cur]. cbn [fst snd]. intros Hchunks Hcur.
  assert (Htrim : (strLen (trim cur) <= s)%Z).
  { pose proof (length_trim cur). unfold strLen in *. lia. }
  unfold chunkStep.
  destruct (strLen (trim raw) =? 0)%Z; [now split|].
  destruct (s <? strLen (trim raw))%Z eqn:E1.
  { cbn [fst snd]. split; [|unfold strLen; simpl; lia].
    apply Forall_app. split.
    - destruct (0 <? strLen (trim cur))%Z; [|exact Hchunks].
      apply Forall_app. split; [exact Hchunks | now repeat constructor].
    - pose proof (simpleChunkText_fitsSize (trim raw) s o) as Hsub.
      rewrite Forall_forall in Hsub |- *. intros chunk Hin.
      apply list_elem_of_In, List.filter_In in Hin as [Hin _].
      apply list_elem_of_In in Hin. now apply Hsub. }
  apply Z.ltb_ge in E1.
  destruct ((s <? _)%Z && (0 <? strLen cur)%Z) eqn:E2; cbn [fst snd].
  - split; [|exact E1]. apply Forall_app. split; [exact Hchunks | now repeat constructor].
  - split; [exact Hchunks|].
    apply andb_false_iff in E2 as [E2|E2].
    + apply Z.ltb_ge in E2. destruct (0 <? strLen cur)%Z;
        unfold strLen in *; rewrite ?length_app in *; simpl in *; lia.
    + rewrite E2. apply Z.ltb_ge in E2. unfold strLen in *. rewrite length_app. lia.
Qed.

Lemma fold_chunkStep_bounded s o (sentences : list jsstring) :
  (0 < s)%Z ->
  forall st : list jsstring * jsstring,
    Forall (fun chunk => (strLen chunk <= s)%Z) (fst st) -> (strLen (snd st) <= s)%Z ->
    Forall (fun chunk => (strLen chunk <= s)%Z) (fst (fold_left (chunkStep s o) sentences st))
    /\ (strLen (snd (fold_left (chunkStep s o) sentences st)) <= s)%Z.
Proof.
  intros Hs. induction sentences as [|raw sentences IH]; intros st Hchunks Hcur.
  - now split.
  - cbn [fold_left].
    destruct (chunkStep_bounded s o st raw Hs Hchunks Hcur) as [H1 H2].
    now apply IH.
Qed.

(** Every chunk that [chunkText] returns is non-empty and at most
    [chunkSize] code units long. *)
Lemma chunkText_fitsSize text s o : Forall (fitsSize s) (chunkText text s o).
Proof.
  unfold chunkText. destruct text as [|c0 text0] eqn:Etext; [constructor|].
  rewrite <- Etext. destruct (length (trim text) =? 0); [constructor|].
  destruct (s <=? 0)%Z eqn:Es; [constructor|]. apply Z.leb_gt in Es.
  set (o1 := if (o <? 0)%Z then 0%Z else o).
  set (o' := if (s <=? o1)%Z then (s / 2)%Z else o1).
  destruct (List.filter _ (splitSentences text)) as [|x l] eqn:Esent.
  { apply simpleChunkText_fitsSize. }
  rewrite <- Esent. set (sentences := List.filter _ (splitSentences text)).
  destruct (fold_chunkStep_bounded s o' sentences Es ([], [])) as [H1 H2];
    [constructor | unfold strLen; simpl; lia |].
  destruct (fold_left (chunkStep s o') sentences ([], [])) as [chunks cur].
  cbn [fst snd] in H1, H2.
  rewrite Forall_forall. intros chunk Hin.
  apply list_elem_of_In, List.filter_In in Hin as [Hin Hlen].
  apply Nat.ltb_lt in Hlen.
  split; [intros ->; simpl in Hlen; lia|].
  assert (Hall : Forall (fun chunk => (strLen chunk <= s)%Z)
                   (if 0 <? length (trim cur) then chunks ++ [trim cur] else chunks)).
  { destruct (0 <? length (trim cur)); [|exact H1].
    apply Forall_app. split; [exact H1|]. repeat constructor.
    pose proof (length_trim cur). unfold strLen in *. lia. }
  rewrite Forall_forall in Hall. apply Hall. now apply list_elem_of_In.
Qed.

Lemma chunkText_sublist text s o :
  (0 < s)%Z ->
  sublist (nonWhiteSpace text) (nonWhiteSpace (concat (chunkText text s o))).
Proof.
  intros Hs.
  destruct (decide (trim text = [])) as [Eblank|Hne].
  { rewrite (nonWhiteSpace_nil_of_trim text Eblank). apply sublist_nil_l. }
  apply (chunkText_heldText sublist); [| | | exact Hne | exact Hs].
  - intros x. reflexivity.
  - intros a b c d. apply sublist_app.
  - intros o' _ sentence _. apply nonWhiteSpace_sublist.
    destruct (simpleChunkText_spans sentence s o' Hs) as (spans & -> & Ht & _).
    now apply (tiles_sublist sentence spans 0).
Qed.

End SentenceChunker.

(** *** The chunkers as their callers see them *)

Section ChunkerTheorems.
Implicit Types (text : jsstring) (size overlap s o : Z).

(** [X1]. For a positive size and any overlap, [simpleChunkText] cuts the
    text into windows that tile it: every chunk is a stretch of the text,
    the first starts at the beginning, each next one starts no later than
    where the one before it ended and ends at least as far, and the last
    ends at the end of the text; no chunk is empty or longer than [size].
    So no character of the text is left out. *)
Theorem simpleChunkText_tiles_the_text text size overlap :
  (0 < size)%Z ->
  exists spans,
    simpleChunkText text size overlap = map snd spans
    /\ tiles text 0 spans
    /\ Forall (fun span => fitsSize size (snd span)) spans
    /\ sublist text (concat (simpleChunkText text size overlap)).
Proof.
  intros Hsize.
  destruct (simpleChunkText_spans text size overlap Hsize) as (spans & E & Ht & Hb).
  exists spans. repeat split; auto.
  rewrite E. now apply (tiles_sublist text spans 0).
Qed.

Lemma simpleChunkText_tiles_the_text_witness :
  exists spans,
    simpleChunkText (js "abcdefghijkl") 5 2 = map snd spans
    /\ tiles (js "abcdefghijkl") 0 spans
    /\ Forall (fun span => fitsSize 5 (snd span)) spans
    /\ sublist (js "abcdefghijkl") (concat (simpleChunkText (js "abcdefghijkl") 5 2)).
Proof. apply (simpleChunkText_tiles_the_text (js "abcdefghijkl") 5 2). lia. Defined.

(** [X2]. For a positive size and no overlap (zero or negative),
    [simpleChunkText] partitions the text: the chunks concatenated are the
    text itself, and there are ceil(length / size) of them. *)
Theorem simpleChunkText_partitions_without_overlap text size overlap :
  (0 < size)%Z -> (overlap <= 0)%Z ->
  concat (simpleChunkText text size overlap) = text
  /\ Z.of_nat (length (simpleChunkText text size overlap))
     = ((strLen text + size - 1) / size)%Z.
Proof. apply simpleChunkText_partition. Qed.

Lemma simpleChunkText_partitions_without_overlap_witness :
  concat (simpleChunkText (js "abcdefghijklm") 4 0) = js "abcdefghijklm"
  /\ Z.of_nat (length (simpleChunkText (js "abcdefghijklm") 4 0))
     = ((strLen (js "abcdefghijklm") + 4 - 1) / 4)%Z.
Proof.
  apply (simpleChunkText_partitions_without_overlap (js "abcdefghijklm") 4 0); lia.
Defined.

(** [X3]. Whatever the text, the chunk size and the overlap, every chunk
    that [chunkText] returns is non-empty and at most [chunkSize] code
    units long. *)
Theorem chunkText_chunks_fit text s o : Forall (fitsSize s) (chunkText text s o).
Proof. apply chunkText_fitsSize. Qed.

(** [X4]. For a positive chunk size, [chunkText] loses no character other
    than white space: the non-white-space characters of the text, in
    their order, are a subsequence of those of the chunks read one after
    the other (a sentence longer than the chunk size is split with
    overlap, which repeats characters). *)
Theorem chunkText_keeps_every_character text s o :
  (0 < s)%Z ->
  sublist (nonWhiteSpace text) (nonWhiteSpace (concat (chunkText text s o))).
Proof. apply chunkText_sublist. Qed.

Lemma chunkText_keeps_every_character_witness :
  sublist (nonWhiteSpace (js "This is exactly thirty characters."))
          (nonWhiteSpace (concat (chunkText (js "This is exactly thirty characters.") 30 5))).
Proof.
  apply (chunkText_keeps_every_character (js "This is exactly thirty characters.") 30 5). lia.
Defined.

(** [X5]. For a positive chunk size and no overlap (zero or negative),
    the chunks of [chunkText] read one after the other hold exactly the
    non-white-space characters of the text, in order: nothing is lost and
    nothing is repeated. *)
Theorem chunkText_without_overlap_keeps_exactly text s o :
  (0 < s)%Z -> (o <= 0)%Z ->
  nonWhiteSpace (concat (chunkText text s o)) = nonWhiteSpace text.
Proof.
  intros Hs Ho.
  destruct (decide (trim text = [])) as [Eblank|Hne].
  { rewrite (nonWhiteSpace_nil_of_trim text Eblank).
    unfold chunkText. destruct text; [reflexivity|]. now rewrite Eblank. }
  symmetry. apply (chunkText_heldText eq); [| | | exact Hne | exact Hs].
  - reflexivity.
  - intros a b c d -> ->. reflexivity.
  - intros o' Ho' sentence _. rewrite (Ho' Ho).
    destruct (simpleChunkText_partition sentence s 0 Hs) as [-> _]; [lia | reflexivity].
Qed.

Lemma chunkText_without_overlap_keeps_exactly_witness :
  nonWhiteSpace (concat (chunkText (js "One. Two words here! A third sentence follows?") 12 0))
  = nonWhiteSpace (js "One. Two words here! A third sentence follows?").
Proof.
  apply (chunkText_without_overlap_keeps_exactly
           (js "One. Two words here! A third sentence follows?") 12 0); lia.
Defined.

(** [X6]. [chunkText] returns no chunk exactly when the text is empty or
    blank or the chunk size is not positive. *)
Theorem chunkText_empty_iff_blank text s o :
  chunkText text s o = [] <-> trim text = [] \/ (s <= 0)%Z.
Proof.
  split.
  - intros Eempty.
    destruct (decide (trim text = [])) as [Eblank|Hne]; [now left|]. right.
    destruct (Z.le_gt_cases s 0) as [Hs|Hs]; [exact Hs|]. exfalso.
    pose proof (chunkText_sublist text s o Hs) as Hsub.
    rewrite Eempty in Hsub. simpl in Hsub. apply sublist_nil_r in Hsub.
    now apply trim_nonempty_iff in Hne.
  - intros [Eblank|Hs]; unfold chunkText; destruct text as [|c0 text0]; try reflexivity.
    + now rewrite Eblank.
    + destruct (length (trim (c0 :: text0)) =? 0); [reflexivity|].
      assert (E : (s <=? 0)%Z = true) by (apply Z.leb_le; lia).
      now rewrite E.
Qed.

End ChunkerTheorems.

(* ===================================================================== *)
(** ** The encoder: accumulating text and building                         *)
(* ===================================================================== *)

Section EncoderTheorems.
Import Utils Config Encoder.
Context {number : Type} {model : EmbeddingModel number} {hnsw : HNSW number}
        {pako : Pako} {base64 : Base64} {qrcode : QrCode} {json : Json}
        {ffmpeg : VideoEncoder}.
Implicit Types (e : MemvidEncoder) (w : World) (m : HNSWIndexManager).

Lemma chunkText_blank text s o : trim text = [] -> chunkText text s o = [].
Proof.
  intros Eblank. unfold chunkText. destruct text; [reflexivity|]. now rewrite Eblank.
Qed.

Lemma addText_chunks text e :
  chunks (addText text e)
  = chunks e ++ chunkText text (chunkSize (config e)) (overlap (config e))
  /\ config (addText text e) = config e
  /\ index (addText text e) = index e.
Proof.
  unfold addText. destruct text as [|c0 text0] eqn:Et.
  { simpl. now rewrite app_nil_r. }
  rewrite <- Et. destruct (length (trim text) =? 0) eqn:E; [|now simpl].
  apply Nat.eqb_eq in E. rewrite chunkText_blank; [now rewrite app_nil_r|].
  now destruct (trim text).
Qed.

Lemma addTexts_chunks texts : forall e,
  chunks (addTexts texts e)
  = chunks e ++ concat (map (fun text => chunkText text (chunkSize (config e))
                                                   (overlap (config e))) texts)
  /\ config (addTexts texts e) = config e
  /\ index (addTexts texts e) = index e.
Proof.
  unfold addTexts.
  induction texts as [|text texts IH]; intros e; cbn [fold_left map concat].
  - now rewrite app_nil_r.
  - destruct (addText_chunks text e) as (Hc & Hcfg & Hidx).
    destruct (IH (addText text e)) as (Hc' & Hcfg' & Hidx').
    rewrite Hc', Hc, Hcfg, <- app_assoc. repeat split; congruence.
Qed.

(** [X7]. Whatever texts are added to a new encoder, the chunks it holds
    are the chunks of [chunkText] for each text (at the configured chunk
    size and overlap), in the order the texts were added; empty and blank
    texts add nothing; every chunk held is non-empty and at most
    [chunkSize] long; the index is not touched before [buildVideo]. *)
Theorem addText_accumulates_fitting_chunks (cfg : MemvidConfig) (texts : list jsstring) :
  chunks (addTexts texts (newEncoder cfg))
  = concat (map (fun text => chunkText text (chunkSize cfg) (overlap cfg)) texts)
  /\ Forall (fitsSize (chunkSize cfg)) (chunks (addTexts texts (newEncoder cfg)))
  /\ index (addTexts texts (newEncoder cfg)) = newManager (indexConfig cfg)
  /\ (Forall (fun text => trim text = []) texts ->
      chunks (addTexts texts (newEncoder cfg)) = []).
Proof.
  destruct (addTexts_chunks texts (newEncoder cfg)) as (Hc & _ & Hidx).
  simpl in Hc, Hidx. split; [exact Hc|]. split; [|split; [exact Hidx|]].
  - rewrite Hc. apply Forall_concat. apply Forall_map.
    apply Forall_forall. intros text _. apply chunkText_fitsSize.
  - intros Hblank. rewrite Hc. clear Hc Hidx.
    induction Hblank as [|text texts Ht _ IH]; [reflexivity|].
    cbn [map concat]. now rewrite (chunkText_blank text _ _ Ht), IH.
Qed.

(** [X8]. [buildVideo] on an encoder that holds no chunk (a new one, or
    one to which only empty or blank texts were added) returns an empty
    video with [frameCount] 0 and the serialized empty graph; it
    initializes the index, writes no file, not even the index files, and
    calls the embedding model not at all. *)
Theorem buildVideo_without_chunks (cfg : MemvidConfig) (texts : list jsstring)
    (outputFileNameSuggestion : option jsstring) (w : World) :
  Forall (fun text => trim text = []) texts ->
  exists built e',
    buildVideo outputFileNameSuggestion (addTexts texts (newEncoder cfg)) w
    = (Returned built, e', w)
    /\ videoBuffer built = [] /\ frameCount built = 0
    /\ Some (indexDataBuffer built) = option_map toJSON (IndexManager.index (index e'))
    /\ metadata (index e') = [] /\ chunks e' = [].
Proof.
  intros Hblank.
  destruct (addTexts_chunks texts (newEncoder cfg)) as (Hc & Hcfg & Hidx).
  assert (Hempty : chunks (addTexts texts (newEncoder cfg)) = []).
  { rewrite Hc. simpl. clear Hc Hcfg Hidx.
    induction Hblank as [|text texts Ht _ IH]; [reflexivity|].
    cbn [map concat]. now rewrite (chunkText_blank text _ _ Ht), IH. }
  unfold buildVideo. rewrite Hempty, Hidx. simpl.
  eexists _, _. split; [reflexivity|]. simpl. repeat split; auto.
Qed.

Lemma addChunks_world texts frames m w r m' w' :
  addChunks texts frames m w = (r, m', w') ->
  files w' = files w
  /\ embedCalls w' = embedCalls w
                     ++ match IndexManager.index m, texts with
                        | Some _, _ :: _ => [texts]
                        | _, _ => []
                        end.
Proof.
  unfold addChunks. destruct (IndexManager.index m).
  2:{ intros [= <- <- <-]. now rewrite app_nil_r. }
  destruct texts as [|t texts].
  { intros [= <- <- <-]. now rewrite app_nil_r. }
  unfold callEmbed. destruct (embed (t :: texts)); [|now intros [= <- <- <-]].
  destruct (addLoop _ _ _ _ _ _). now intros [= <- <- <-].
Qed.

Lemma addChunks_returned_initialized texts frames m w ids m' w' :
  addChunks texts frames m w = (Returned ids, m', w') -> IndexManager.index m <> None.
Proof. unfold addChunks. now destruct (IndexManager.index m). Qed.

Lemma filter_combine_seq_cons (p : nat * jsstring -> bool) i chunk (rest : list jsstring) :
  List.filter p (combine (seq i (length (chunk :: rest))) (chunk :: rest))
  = (if p (i, chunk) then [(i, chunk)] else [])
    ++ List.filter p (combine (seq (S i) (length rest)) rest).
Proof. simpl. now destruct (p (i, chunk)). Qed.

(** The frame loop when it completes: one frame file and one embedding
    call per chunk whose QR image could be generated. *)
Lemma frameLoop_returned cfg (remaining : list jsstring) :
  forall i frameFiles m w frameFiles' m' w',
    frameLoop cfg i remaining frameFiles m w = (Returned frameFiles', m', w') ->
    let ready := List.filter (qrReady cfg) (combine (seq i (length remaining)) remaining) in
    map fst frameFiles' = map fst frameFiles ++ map fst ready
    /\ files w' = files w
    /\ embedCalls w' = embedCalls w ++ map (fun entry => [snd entry]) ready
    /\ (wellFormed m -> wellFormed m')
    /\ (IndexManager.index m <> None -> IndexManager.index m' <> None).
Proof.
  induction remaining as [|chunk rest IH]; intros i frameFiles m w frameFiles' m' w'.
  - simpl. intros [= <- <- <-]. now rewrite !app_nil_r.
  - cbv zeta. rewrite filter_combine_seq_cons. cbn [frameLoop].
    assert (Hq : qrReady cfg (i, chunk)
                 = match generateQrBuffer (chunkPayload chunk i) (qrConfigOf cfg) with
                   | Some _ => true
                   | None => false
                   end) by reflexivity.
    destruct (generateQrBuffer (chunkPayload chunk i) (qrConfigOf cfg)) as [qrBuffer|];
      rewrite Hq.
    + destruct (addChunks [chunk] [i] m w) as [[[ids|msg] m1] w1] eqn:E1; [|discriminate].
      intros E2. apply IH in E2 as (Hf & Hfiles & Hcalls & Hwf & Hidx). cbv zeta in *.
      pose proof (addChunks_returned_initialized _ _ _ _ _ _ _ E1) as Hinit.
      pose proof (addChunks_world _ _ _ _ _ _ _ E1) as [Hfiles1 Hcalls1].
      destruct (IndexManager.index m) eqn:Em; [|congruence].
      split; [rewrite Hf, !map_app, <- app_assoc; reflexivity|].
      split; [congruence|].
      split; [rewrite Hcalls, Hcalls1, !map_app, <- app_assoc; reflexivity|].
      split.
      * intros Hm. apply Hwf. eapply addChunks_wellFormed; eauto.
      * intros _. apply Hidx.
        unfold addChunks in E1. rewrite Em in E1. unfold callEmbed in E1.
        destruct (embed [chunk]) as [embeddings|]; [|discriminate].
        destruct (addLoop [chunk] [i] 0 embeddings m []) as [m2 ids2] eqn:E3.
        apply addLoop_spec in E3 as (_ & _ & Hi & _).
        injection E1 as _ <- _. apply Hi. congruence.
    + intros E2. apply IH in E2. cbv zeta in E2. exact E2.
Qed.

(** What [buildVideo] does to the encoder and outside it. *)
Lemma buildVideo_effects outputFileNameSuggestion e w result e' w' :
  buildVideo outputFileNameSuggestion e w = (result, e', w') ->
  config e' = config e
  /\ match result with
     | Thrown _ => chunks e' = chunks e
     | Returned built =>
         chunks e' = []
         /\ frameCount built = length (framed (config e) (chunks e))
         /\ embedCalls w'
            = embedCalls w ++ map (fun entry => [snd entry]) (framed (config e) (chunks e))
              ++ match chunks e with [] => [] | _ => [chunks e] end
     end.
Proof.
  unfold buildVideo. destruct (chunks e) as [|c0 cs] eqn:Ec.
  { destruct (serializeIndex (initIndex (index e))); intros [= <- <- <-]; simpl;
      rewrite ?Ec; repeat split; auto. now rewrite app_nil_r. }
  rewrite <- Ec.
  destruct (frameLoop (config e) 0 (chunks e) [] (initIndex (index e)) w)
    as [[[frameFiles|msg] m1] w1] eqn:E1; [|now intros [= <- <- <-]].
  apply frameLoop_returned in E1 as (Hf & Hfiles1 & Hcalls1 & _ & _). cbv zeta in *.
  fold (framed (config e) (chunks e)) in Hf, Hcalls1.
  destruct (match getCodecParameters (config e) (Some (codec (config e))) with
            | Some c => Some c
            | None => getCodecParameters (config e) (Some (js "h264Wasm"))
            end) as [codecConfig|]; [|now intros [= <- <- <-]].
  destruct (encodeVideo frameFiles codecConfig _) as [videoData|];
    [|now intros [= <- <- <-]].
  destruct (addChunks (chunks e) (seq 0 (length (chunks e))) m1 w1)
    as [[[ids|msg] m2] w2] eqn:E2; [|now intros [= <- <- <-]].
  pose proof (addChunks_returned_initialized _ _ _ _ _ _ _ E2) as Hinit.
  pose proof (addChunks_world _ _ _ _ _ _ _ E2) as [_ Hcalls2].
  destruct (IndexManager.index m1) as [g1|] eqn:Em1; [|congruence].
  assert (Hsaved : forall r w3,
             match indexPath (indexConfig (config e)) with
             | Some (c :: path) => save (Some (c :: path)) m2 w2
             | _ => (Returned tt, w2)
             end = (r, w3) -> embedCalls w3 = embedCalls w2).
  { intros r w3. destruct (indexPath (indexConfig (config e))) as [[|c path]|];
      try now intros [= <- <-].
    unfold save. destruct (IndexManager.index m2); now intros [= <- <-]. }
  destruct (match indexPath (indexConfig (config e)) with
            | Some (c :: path) => save (Some (c :: path)) m2 w2
            | _ => (Returned tt, w2)
            end) as [[u|msg] w3] eqn:E3; [|now intros [= <- <- <-]].
  specialize (Hsaved _ _ eq_refl).
  destruct (serializeIndex m2); intros [= <- <- <-]; simpl; [|now split].
  split; [reflexivity|]. split; [reflexivity|]. split.
  - apply (f_equal (@length nat)) in Hf. simpl in Hf. rewrite !length_map in Hf. exact Hf.
  - rewrite Hsaved, Hcalls2, Hcalls1, <- app_assoc. now rewrite Ec.
Qed.

(** [X9]. When [buildVideo] completes on an encoder that holds chunks,
    [frameCount] is the number of chunks whose QR image could be generated
    (a chunk whose QR generation fails is skipped), the encoder holds no
    chunk any more and keeps its configuration, and the embedding model
    was called once for each chunk that got a frame (inside the frame
    loop) and once more for all the chunks together (the batch that
    follows): every chunk that got a frame is embedded twice. *)
Theorem buildVideo_counts_frames_and_embeds_twice
    (outputFileNameSuggestion : option jsstring) (e e' : MemvidEncoder) (w w' : World)
    (built : BuildResult) :
  chunks e <> [] ->
  buildVideo outputFileNameSuggestion e w = (Returned built, e', w') ->
  frameCount built = length (framed (config e) (chunks e))
  /\ embedCalls w'
     = embedCalls w ++ map (fun entry => [snd entry]) (framed (config e) (chunks e))
       ++ [chunks e]
  /\ chunks e' = [] /\ config e' = config e.
Proof.
  intros Hne E. apply buildVideo_effects in E as (Hcfg & Hc & Hcount & Hcalls).
  destruct (chunks e); [congruence|]. repeat split; auto.
Qed.

(** [X10]. When [buildVideo] throws (no codec configuration, ffmpeg or
    the embedding model failing, ...), the encoder still holds all its
    chunks and its configuration. *)
Theorem buildVideo_failure_keeps_chunks
    (outputFileNameSuggestion : option jsstring) (e e' : MemvidEncoder) (w w' : World)
    (msg : string) :
  buildVideo outputFileNameSuggestion e w = (Thrown msg, e', w') ->
  chunks e' = chunks e /\ config e' = config e.
Proof.
  intros E. apply buildVideo_effects in E as (Hcfg & Hc). now split.
Qed.

(** A completed build on an encoder whose index path is set has saved the
    index it leaves in the encoder. *)
Lemma buildVideo_saved outputFileNameSuggestion e w built e' w' c path :
  chunks e <> [] ->
  indexPath (indexConfig (config e)) = Some (c :: path) ->
  buildVideo outputFileNameSuggestion e w = (Returned built, e', w') ->
  (exists w2, save (Some (c :: path)) (index e') w2 = (Returned tt, w'))
  /\ (wellFormed (index e) -> wellFormed (index e')).
Proof.
  intros Hne Hpath. unfold buildVideo. destruct (chunks e) as [|c0 cs] eqn:Ec; [congruence|].
  rewrite <- Ec.
  destruct (frameLoop (config e) 0 (chunks e) [] (initIndex (index e)) w)
    as [[[frameFiles|msg] m1] w1] eqn:E1; [|discriminate].
  apply frameLoop_returned in E1 as (_ & _ & _ & Hwf1 & _).
  destruct (match getCodecParameters (config e) (Some (codec (config e))) with
            | Some c => Some c
            | None => getCodecParameters (config e) (Some (js "h264Wasm"))
            end) as [codecConfig|]; [|discriminate].
  destruct (encodeVideo frameFiles codecConfig _) as [videoData|]; [|discriminate].
  destruct (addChunks (chunks e) (seq 0 (length (chunks e))) m1 w1)
    as [[[ids|msg] m2] w2] eqn:E2; [|discriminate].
  rewrite Hpath.
  destruct (save (Some (c :: path)) m2 w2) as [[[]|msg] w3] eqn:E3; [|discriminate].
  destruct (serializeIndex m2); [|discriminate].
  intros [= <- <- <-]. simpl. split; [now exists w2|].
  intros Hwf. eapply addChunks_wellFormed; [|exact E2]. apply Hwf1.
  unfold wellFormed, initIndex in *. now destruct (IndexManager.index (index e)).
Qed.

End EncoderTheorems.

Section EncoderWitnesses.
Import Toy Utils Config Encoder.

Lemma buildVideo_without_chunks_witness :
  exists built e',
    buildVideo None (addTexts [js "   "; []; [10%N; 9%N]] (newEncoder Toy.toyMemvidConfig))
               Toy.emptyWorld
    = (Returned built, e', Toy.emptyWorld)
    /\ videoBuffer built = [] /\ frameCount built = 0
    /\ Some (indexDataBuffer built) = option_map toJSON (IndexManager.index (index e'))
    /\ metadata (index e') = [] /\ chunks e' = [].
Proof.
  apply (buildVideo_without_chunks Toy.toyMemvidConfig [js "   "; []; [10%N; 9%N]] None
           Toy.emptyWorld).
  repeat constructor.
Defined.

Lemma buildVideo_counts_frames_and_embeds_twice_witness :
  exists built e' w',
    buildVideo None threeChunks emptyWorld = (Returned built, e', w')
    /\ frameCount built = length (framed (config threeChunks) (chunks threeChunks))
    /\ embedCalls w'
       = embedCalls emptyWorld
         ++ map (fun entry => [snd entry]) (framed (config threeChunks) (chunks threeChunks))
         ++ [chunks threeChunks]
    /\ chunks e' = [] /\ config e' = config threeChunks.
Proof.
  destruct (buildVideo None threeChunks emptyWorld) as [[[built|msg] e'] w'] eqn:E;
    [|vm_compute in E; discriminate].
  exists built, e', w'. split; [reflexivity|].
  apply (buildVideo_counts_frames_and_embeds_twice None threeChunks e' emptyWorld w' built).
  - discriminate.
  - exact E.
Defined.

Example buildVideo_three_chunks_embedding_calls :
  embedCalls (snd (buildVideo None threeChunks emptyWorld))
  = [[js "a"]; [js "b"]; [js "c"]; [js "a"; js "b"; js "c"]].
Proof. vm_compute. reflexivity. Qed.

Lemma buildVideo_failure_keeps_chunks_witness :
  exists msg e' w',
    buildVideo None Fixtures.withoutCodec emptyWorld = (Thrown msg, e', w')
    /\ chunks e' = chunks Fixtures.withoutCodec
    /\ config e' = config Fixtures.withoutCodec.
Proof.
  destruct (buildVideo None Fixtures.withoutCodec emptyWorld) as [[[built|msg] e'] w'] eqn:E;
    [vm_compute in E; discriminate|].
  exists msg, e', w'. split; [reflexivity|].
  apply (buildVideo_failure_keeps_chunks None Fixtures.withoutCodec e' emptyWorld w' msg E).
Defined.

(** The build that failed for want of a codec had already indexed its
    chunks: the index is not rolled back. *)
Example failed_build_leaves_the_index_populated :
  map fst (metadata (index (snd (fst (buildVideo None Fixtures.withoutCodec emptyWorld)))))
  = [0; 1].
Proof. vm_compute. reflexivity. Qed.

End EncoderWitnesses.

(* ===================================================================== *)
(** ** From the encoder to the retriever                                   *)
(* ===================================================================== *)

Section BuildThenRetrieve.
Import Utils Config Encoder.
Context {number : Type} {model : EmbeddingModel number} {hnsw : HNSW number}
        {pako : Pako} {base64 : Base64} {qrcode : QrCode} {json : Json}
        {ffmpeg : VideoEncoder} {reader : FrameReader}.

(** [X11]. After a completed [buildVideo] on an encoder that holds chunks
    and whose index path is set, a retriever constructed on that path (for
    a video given as bytes, with any configuration) initializes
    successfully and holds exactly the metadata map and the [nextChunkId]
    that the encoder's index holds after the build; the graph file must be
    one that [fromJSON] accepts. *)
Theorem retriever_loads_what_buildVideo_saved
    (outputFileNameSuggestion : option jsstring) (e e' : MemvidEncoder) (w w' : World)
    (built : BuildResult) (path : jsstring) (cfg : MemvidConfig) (video : list byte) :
  chunks e <> [] -> wellFormed (index e) ->
  indexPath (indexConfig (config e)) = Some path -> path <> [] ->
  (forall g : Graph, fromJSON (toJSON g) <> None) ->
  buildVideo outputFileNameSuggestion e w = (Returned built, e', w') ->
  let r := Retriever.newRetriever (Retriever.VideoBytes video) path cfg w' in
  Retriever.readyPromise r = Returned tt
  /\ metadata (Retriever.indexManager r) = metadata (index e')
  /\ nextChunkId (Retriever.indexManager r) = nextChunkId (index e')
  /\ IndexManager.index (Retriever.indexManager r) <> None.
Proof.
  intros Hne Hwf Hpath Hpne Hjson E.
  destruct path as [|c path]; [congruence|].
  destruct (buildVideo_saved _ _ _ _ _ _ c path Hne Hpath E) as [[w2 Es] Hwf'].
  specialize (Hwf' Hwf).
  assert (Hidx : exists g, IndexManager.index (index e') = Some g).
  { unfold save in Es. destruct (IndexManager.index (index e')) as [g|]; [eauto|discriminate]. }
  destruct Hidx as [g Hg].
  destruct (fromJSON (toJSON g)) as [g'|] eqn:Ej; [|now apply Hjson in Ej].
  set (other := newManager
                  {| embeddingDimension := embeddingDimension (indexConfig cfg);
                     indexPath := Some (c :: path);
                     indexM := indexM (indexConfig cfg);
                     indexEfConstruction := indexEfConstruction (indexConfig cfg);
                     indexMetric := indexMetric (indexConfig cfg) |}).
  destruct (save_then_load (Some (c :: path)) (index e') other w2 g g' Hg eq_refl Ej)
    as (w3 & Es' & _ & _ & _ & El).
  rewrite Es in Es'. injection Es' as <-.
  cbv zeta. unfold Retriever.newRetriever. fold other. rewrite El. simpl.
  repeat split; try discriminate.
  now apply mapOfEntries_entries.
Qed.

End BuildThenRetrieve.

Section BuildThenRetrieveWitness.
Import Toy Utils Config Encoder.

Lemma retriever_loads_what_buildVideo_saved_witness :
  exists built e' w',
    buildVideo None threeChunks emptyWorld = (Returned built, e', w')
    /\ let r := Retriever.newRetriever (Retriever.VideoBytes (videoBuffer built))
                  (js "memvid_index") toyMemvidConfig w' in
       Retriever.readyPromise r = Returned tt
       /\ metadata (Retriever.indexManager r) = metadata (index e')
       /\ nextChunkId (Retriever.indexManager r) = nextChunkId (index e')
       /\ IndexManager.index (Retriever.indexManager r) <> None.
Proof.
  destruct (buildVideo None threeChunks emptyWorld) as [[[built|msg] e'] w'] eqn:E;
    [|vm_compute in E; discriminate].
  exists built, e', w'. split; [reflexivity|].
  apply (retriever_loads_what_buildVideo_saved None threeChunks e' emptyWorld w' built
           (js "memvid_index") toyMemvidConfig (videoBuffer built)).
  - discriminate.
  - unfold wellFormed. simpl. constructor.
  - reflexivity.
  - discriminate.
  - intros g. simpl. discriminate.
  - exact E.
Defined.

End BuildThenRetrieveWitness.

(* ===================================================================== *)
(** ** The index manager: what the map holds                               *)
(* ===================================================================== *)

Section ManagerInvariants.
Context {number : Type} {model : EmbeddingModel number} {hnsw : HNSW number}.
Implicit Types (m : HNSWIndexManager) (w : World).

Lemma mapGet_In {V} (md : list (nat * V)) k :
  mapGet k md <> None <-> In k (map fst md).
Proof.
  induction md as [|[k' v] md IH]; simpl; [tauto|].
  destruct (k' =? k) eqn:E.
  - apply Nat.eqb_eq in E. split; [now left | discriminate].
  - apply Nat.eqb_neq in E. rewrite IH. intuition congruence.
Qed.

Lemma addLoop_keys chunks frames embeddings : forall i m addedIds m' ids,
  addLoop chunks frames i embeddings m addedIds = (m', ids) ->
  consistent m ->
  exists new,
    ids = addedIds ++ new
    /\ map fst (metadata m') = map fst (metadata m) ++ new
    /\ consistent m'.
Proof.
  induction embeddings as [|embedding rest IH]; intros i m addedIds m' ids; simpl.
  - intros [= <- <-] Hm. exists []. now rewrite !app_nil_r.
  - destruct (addOne chunks frames i embedding m) as [m1 added] eqn:E1.
    apply addOne_spec in E1 as (_ & _ & _ & Hn1 & Hadd).
    intros E2 (Hwf & Hkeys & Hids).
    assert (H1 : consistent m1
                 /\ map fst (metadata m1)
                    = map fst (metadata m)
                      ++ match added with Some chunkId => [chunkId] | None => [] end).
    { destruct added as [chunkId|].
      - destruct Hadd as (-> & Hnext & chunk & _ & Hmd).
        assert (Hfresh : ~ In (nextChunkId m) (map fst (metadata m))).
        { intros Hin. unfold keysBelowNext in Hkeys. rewrite Forall_forall in Hkeys.
          apply list_elem_of_In in Hin. specialize (Hkeys _ Hin). lia. }
        assert (Hnd : List.NoDup (map fst (metadata m1))).
        { rewrite Hmd. now apply mapSet_NoDup. }
        rewrite (mapSet_fresh _ _ _ Hfresh) in Hmd.
        unfold consistent, wellFormed, keysBelowNext, idsMatchKeys in *.
        split; [split; [exact Hnd|]|].
        2:{ now rewrite Hmd, map_app. }
        rewrite Hmd, Hnext, map_app. simpl. split.
        + apply Forall_app. split; [|repeat constructor].
          eapply List.Forall_impl; [|exact Hkeys]. simpl. lia.
        + apply Forall_app. split; [exact Hids | repeat constructor].
      - unfold consistent, wellFormed, keysBelowNext, idsMatchKeys in *.
        rewrite Hadd, app_nil_r. repeat split; auto.
        eapply List.Forall_impl; [|exact Hkeys]. simpl. lia. }
    destruct H1 as [Hm1 Hk1].
    apply IH in E2 as (new & -> & Hk2 & Hm2); [|exact Hm1].
    exists (match added with Some chunkId => [chunkId] | None => [] end ++ new).
    rewrite Hk2, Hk1, <- !app_assoc.
    split; [|now split]. destruct added; [now rewrite <- app_assoc | reflexivity].
Qed.

Lemma addChunks_keys texts frames m w r m' w' :
  addChunks texts frames m w = (r, m', w') -> consistent m ->
  consistent m'
  /\ map fst (metadata m')
     = map fst (metadata m) ++ match r with Returned ids => ids | Thrown _ => [] end.
Proof.
  unfold addChunks. intros E Hm.
  destruct (IndexManager.index m).
  2:{ injection E as <- <- <-. now rewrite app_nil_r. }
  destruct texts as [|t texts].
  { injection E as <- <- <-. now rewrite app_nil_r. }
  unfold callEmbed in E. destruct (embed (t :: texts)) as [embeddings|].
  2:{ injection E as <- <- <-. now rewrite app_nil_r. }
  destruct (addLoop (t :: texts) frames 0 embeddings m []) as [m1 ids] eqn:E1.
  apply addLoop_keys in E1 as (new & -> & Hk & Hm1); [|exact Hm].
  injection E as <- <- <-. now split.
Qed.

Lemma addMany_keys calls : forall m w ids m' w',
  addMany calls m w = (Returned ids, m', w') -> consistent m ->
  consistent m' /\ map fst (metadata m') = map fst (metadata m) ++ ids.
Proof.
  induction calls as [|[texts frames] calls IH]; intros m w ids m' w'; cbn [addMany].
  - intros [= <- <- <-] Hm. now rewrite app_nil_r.
  - destruct (addChunks texts frames m w) as [[[ids1|msg] m1] w1] eqn:E1; [|discriminate].
    destruct (addMany calls m1 w1) as [[[ids2|msg] m2] w2] eqn:E2; [|discriminate].
    intros [= <- <- <-] Hm.
    apply addChunks_keys in E1 as [Hm1 Hk1]; [|exact Hm].
    apply IH in E2 as [Hm2 Hk2]; [|exact Hm1].
    split; [exact Hm2|]. now rewrite Hk2, Hk1, app_assoc.
Qed.

Lemma consistent_fresh cfg : consistent (initIndex (newManager cfg)).
Proof. repeat split; simpl; constructor. Qed.

Lemma keys_below_length (keys : list nat) n :
  List.NoDup keys -> Forall (fun k => k < n) keys -> length keys <= n.
Proof.
  intros Hnd Hlt. rewrite <- (length_seq n 0).
  apply List.NoDup_incl_length; [exact Hnd|].
  intros k Hk. apply in_seq. rewrite Forall_forall in Hlt.
  apply list_elem_of_In in Hk. specialize (Hlt k Hk). lia.
Qed.

(** [X12]. On a manager that starts fresh, after any run of [addChunks]
    calls that return, the keys of the metadata map, in insertion order,
    are exactly the ids that the calls returned, in the order they were
    returned: every id handed out has its entry and nothing else has one.
    Each entry records its own key as its [id]; [getChunkById] finds an
    entry exactly for the returned ids; and no more ids were returned than
    [nextChunkId] counts (ids skipped by a failed insertion are counted
    but have no entry). *)
Theorem metadata_holds_exactly_the_returned_ids
    (cfg : IndexConfig) (calls : list (list jsstring * list nat)) (w w' : World)
    (ids : list nat) (m' : HNSWIndexManager) :
  addMany calls (initIndex (newManager cfg)) w = (Returned ids, m', w') ->
  map fst (metadata m') = ids
  /\ Forall (fun entry => meta_id (snd entry) = fst entry) (metadata m')
  /\ (forall k, getChunkById k m' <> None <-> In k ids)
  /\ length ids <= nextChunkId m'.
Proof.
  intros E. apply addMany_keys in E as [(Hwf & Hkeys & Hids) Hk];
    [|apply consistent_fresh].
  simpl in Hk. split; [exact Hk|]. split; [exact Hids|]. split.
  - intros k. unfold getChunkById. now rewrite mapGet_In, Hk.
  - rewrite <- Hk. apply keys_below_length; [exact Hwf | exact Hkeys].
Qed.

Lemma index_paths_differ (a b : jsstring) :
  hnswFilePath a <> metaFilePath b
  /\ (a <> b -> hnswFilePath a <> hnswFilePath b /\ metaFilePath a <> metaFilePath b).
Proof.
  unfold hnswFilePath, metaFilePath. split.
  - intros E. apply app_inj_2 in E as [_ E]; [|reflexivity]. vm_compute in E. discriminate.
  - intros Hne. split; intros E; apply app_inv_tail in E; congruence.
Qed.

(** [X13]. Indexes saved under different base paths do not interfere:
    after [save p] of one manager and [save q] of another, where the two
    base paths resolve differently, [load p] restores the metadata map and
    the [nextChunkId] of the first (the four files have four different
    names). *)
Theorem saves_under_distinct_paths_do_not_interfere
    (p q : option jsstring) (mA mB other : HNSWIndexManager) (w : World) :
  IndexManager.index mA <> None -> IndexManager.index mB <> None -> wellFormed mA ->
  resolvePath p mA <> resolvePath q mB ->
  resolvePath p other = resolvePath p mA ->
  (forall g, IndexManager.index mA = Some g -> fromJSON (toJSON g) <> None) ->
  exists w1 w2 m',
    save p mA w = (Returned tt, w1)
    /\ save q mB w1 = (Returned tt, w2)
    /\ load p other w2 = (Returned tt, m')
    /\ metadata m' = metadata mA /\ nextChunkId m' = nextChunkId mA.
Proof.
  intros HA HB Hwf Hne Hother Hjson.
  destruct (IndexManager.index mA) as [gA|] eqn:EA; [|congruence].
  destruct (IndexManager.index mB) as [gB|] eqn:EB; [|congruence].
  destruct (fromJSON (toJSON gA)) as [g'|] eqn:Ej; [|now apply (Hjson gA) in Ej].
  set (a := resolvePath p mA) in *. set (b := resolvePath q mB) in *.
  destruct (index_paths_differ a b) as [Hab1 Hab2]. destruct (Hab2 Hne) as [Hab3 Hab4].
  destruct (index_paths_differ b a) as [Hba1 _].
  destruct (index_paths_differ a a) as [Haa _].
  unfold save. rewrite EA, EB. fold a. fold b.
  eexists _, _, _. split; [reflexivity|]. split; [reflexivity|].
  unfold load. rewrite Hother. fold a. unfold writeFile. cbn [files].
  rewrite (lookup_insert_ne _ (metaFilePath b) (metaFilePath a)) by congruence.
  rewrite (lookup_insert_ne _ (hnswFilePath b) (metaFilePath a)) by congruence.
  rewrite lookup_insert_eq.
  rewrite (lookup_insert_ne _ (metaFilePath b) (hnswFilePath a)) by congruence.
  rewrite (lookup_insert_ne _ (hnswFilePath b) (hnswFilePath a)) by congruence.
  rewrite (lookup_insert_ne _ (metaFilePath a) (hnswFilePath a)) by congruence.
  rewrite lookup_insert_eq, Ej.
  split; [reflexivity|]. simpl. split; [|reflexivity]. now apply mapOfEntries_entries.
Qed.

End ManagerInvariants.

Section ManagerInvariantsWitness.
Import Toy.

Lemma metadata_holds_exactly_the_returned_ids_witness :
  let calls := [([js "a"; js "!bad"; js "cc"], [0; 1; 2]); ([js "ddd"], [3])] in
  exists ids m' w',
    addMany calls (initIndex (newManager toyConfig)) emptyWorld = (Returned ids, m', w')
    /\ map fst (metadata m') = ids
    /\ Forall (fun entry => meta_id (snd entry) = fst entry) (metadata m')
    /\ (forall k, getChunkById k m' <> None <-> In k ids)
    /\ length ids <= nextChunkId m'.
Proof.
  intros calls.
  destruct (addMany calls (initIndex (newManager toyConfig)) emptyWorld)
    as [[[ids|msg] m'] w'] eqn:E; [|vm_compute in E; discriminate].
  exists ids, m', w'. split; [reflexivity|].
  apply (metadata_holds_exactly_the_returned_ids toyConfig calls emptyWorld w' ids m' E).
Defined.

Lemma saves_under_distinct_paths_do_not_interfere_witness :
  exists w1 w2 m',
    save (Some (js "first")) populated emptyWorld = (Returned tt, w1)
    /\ save None indexed789 w1 = (Returned tt, w2)
    /\ load (Some (js "first")) (newManager toyConfig) w2 = (Returned tt, m')
    /\ metadata m' = metadata populated /\ nextChunkId m' = nextChunkId populated.
Proof.
  apply (saves_under_distinct_paths_do_not_interfere
           (Some (js "first")) None populated indexed789 (newManager toyConfig) emptyWorld).
  - vm_compute. discriminate.
  - vm_compute. discriminate.
  - unfold wellFormed. vm_compute. repeat constructor; simpl; intuition discriminate.
  - vm_compute. discriminate.
  - reflexivity.
  - intros g _. simpl. discriminate.
Defined.

End ManagerInvariantsWitness.

(* ===================================================================== *)
(** ** The chat session: the context it returns                            *)
(* ===================================================================== *)

Section TrimFacts.

Lemma trimStart_ws_app (ws x : jsstring) :
  forallb isWhiteSpace ws = true -> trimStart (ws ++ x) = trimStart x.
Proof.
  induction ws as [|c ws IH]; [reflexivity|].
  simpl. intros [Hc Hws]%andb_prop. rewrite Hc. now apply IH.
Qed.

Lemma forallb_rev {A} (p : A -> bool) (l : list A) :
  forallb p l = true -> forallb p (rev l) = true.
Proof.
  rewrite !forallb_forall. intros H x Hx. apply H. now apply in_rev.
Qed.

Lemma trimEnd_app_ws (x ws : jsstring) :
  forallb isWhiteSpace ws = true -> trimEnd (x ++ ws) = trimEnd x.
Proof.
  intros Hws. unfold trimEnd. rewrite rev_app_distr.
  now rewrite trimStart_ws_app by now apply forallb_rev.
Qed.

Lemma trimStart_app_ws (x ws : jsstring) :
  forallb isWhiteSpace ws = true ->
  trimStart (x ++ ws) = trimStart x ++ ws \/ (trimStart (x ++ ws) = [] /\ trimStart x = []).
Proof.
  intros Hws. induction x as [|c x IH]; simpl.
  - right. split; [|reflexivity]. rewrite <- (app_nil_r ws). now rewrite trimStart_ws_app.
  - destruct (isWhiteSpace c); [exact IH | now left].
Qed.

(** White space appended to a string is trimmed away again. *)
Lemma trim_app_ws (x ws : jsstring) :
  forallb isWhiteSpace ws = true -> trim (x ++ ws) = trim x.
Proof.
  intros Hws. unfold trim.
  destruct (trimStart_app_ws x ws Hws) as [->|[-> ->]]; [|reflexivity].
  now apply trimEnd_app_ws.
Qed.

End TrimFacts.

Section ChatContext.
Import Chat.
Context {number : Type} {model : EmbeddingModel number} {hnsw : HNSW number}
        {pako : Utils.Pako} {base64 : Utils.Base64} {json : Json}
        {reader : FrameReader}.

(** The concatenation loop appends the leading chunks for as long as each
    of them fits, and stops at the first one that does not. *)
Lemma combineContext_prefix limit (contextChunks : list (option jsstring)) :
  forall combined,
  exists n,
    n <= length contextChunks
    /\ combineContext limit contextChunks combined
       = combined ++ joinedPieces n contextChunks
    /\ (forall k chunk, k < n -> nth_error contextChunks k = Some chunk ->
          length (combined ++ joinedPieces k contextChunks ++ chunkToString chunk) <= limit)
    /\ (forall chunk, nth_error contextChunks n = Some chunk ->
          limit < length (combined ++ joinedPieces n contextChunks ++ chunkToString chunk)).
Proof.
  induction contextChunks as [|chunk rest IH]; intros combined.
  - exists 0. unfold joinedPieces. simpl. rewrite app_nil_r.
    repeat split; auto; intros; try lia; discriminate.
  - cbn [combineContext].
    destruct (limit <? length (combined ++ chunkToString chunk)) eqn:E.
    + apply Nat.ltb_lt in E. exists 0. unfold joinedPieces. simpl. rewrite app_nil_r.
      split; [lia|]. split; [reflexivity|]. split; [intros; lia|].
      intros chunk0 [= <-]. exact E.
    + apply Nat.ltb_ge in E.
      destruct (IH (combined ++ chunkToString chunk ++ [10%N; 10%N]))
        as (n & Hn & Hres & Hfit & Hstop).
      exists (S n). unfold joinedPieces in *. cbn [length].
      assert (Hp : contextPiece chunk = chunkToString chunk ++ [10%N; 10%N]) by reflexivity.
      split; [lia|]. split.
      { cbn [firstn map concat]. rewrite Hres, Hp, <- !app_assoc. reflexivity. }
      split.
      * intros [|k] chunk0 Hk Hnth; cbn [nth_error] in Hnth.
        -- injection Hnth as <-. cbn [firstn map concat app]. exact E.
        -- cbn [firstn map concat]. rewrite Hp.
           specialize (Hfit k chunk0 ltac:(lia) Hnth).
           rewrite <- !app_assoc in *. exact Hfit.
      * intros chunk0 Hnth. cbn [nth_error] in Hnth. specialize (Hstop chunk0 Hnth).
        cbn [firstn map concat]. rewrite Hp. rewrite <- !app_assoc in *. exact Hstop.
Qed.

Lemma joinedPieces_trim_bound limit n (contextChunks : list (option jsstring)) :
  (forall k chunk, k < n -> nth_error contextChunks k = Some chunk ->
     length (joinedPieces k contextChunks ++ chunkToString chunk) <= limit) ->
  n <= length contextChunks ->
  length (trim (joinedPieces n contextChunks)) <= limit.
Proof.
  intros Hfit Hn. destruct n as [|k]; [unfold joinedPieces; simpl; lia|].
  destruct (nth_error contextChunks k) as [chunk|] eqn:Enth;
    [|apply nth_error_None in Enth; lia].
  assert (E : joinedPieces (S k) contextChunks
              = (joinedPieces k contextChunks ++ chunkToString chunk) ++ [10%N; 10%N]).
  { unfold joinedPieces.
    assert (Hk : firstn (S k) contextChunks = firstn k contextChunks ++ [chunk]).
    { clear Hfit Hn. revert contextChunks Enth.
      induction k as [|k IHk]; intros [|x l] Enth; simpl in *; try discriminate.
      - now injection Enth as ->.
      - f_equal. now apply IHk. }
    rewrite Hk, map_app, concat_app. simpl. unfold contextPiece at 2.
    now rewrite app_nil_r, app_assoc. }
  rewrite E, trim_app_ws by reflexivity.
  etransitivity; [apply length_trim|]. apply (Hfit k chunk); [lia | exact Enth].
Qed.

(** [X14]. What [chat] returns is either the fixed message that no
    context was found or the header ["Context from video:"], a line
    break, and a context that is not empty, neither starts nor ends with
    white space and is at most [maxContextTokens] code units long. *)
Theorem chat_context_is_bounded (message response : jsstring) (c c' : MemvidChat)
    (w w' : World) :
  chat message c w = (Returned response, c', w') ->
  response = js "No relevant context found in the video for your query."
  \/ exists context,
       response = js "Context from video:" ++ [10%N] ++ context
       /\ context <> [] /\ trim context = context
       /\ length context <= maxContextTokens c.
Proof.
  unfold chat, getContext.
  destruct (Retriever.search message (contextChunksPerQuery c) (retriever c) w)
    as [[[contextChunks|msg] r'] w1]; [|discriminate].
  destruct contextChunks as [|chunk rest]; [intros [= <- <- <-]; now left|].
  set (contextChunks := chunk :: rest).
  destruct (trim (combineContext (maxContextTokens c) contextChunks [])) as [|c0 context]
    eqn:Et; intros [= <- <- <-]; [now left|].
  right. exists (c0 :: context). split; [reflexivity|]. split; [discriminate|].
  rewrite <- Et. split; [apply trim_idempotent|].
  destruct (combineContext_prefix (maxContextTokens c) contextChunks [])
    as (n & Hn & -> & Hfit & _).
  cbn [app] in *. now apply joinedPieces_trim_bound.
Qed.

(** [X15]. The context that [getContext] returns is made of the leading
    retrieved chunks only: for some n it is the first n chunks, each
    followed by a blank line, trimmed; each of these fitted within
    [maxContextTokens] when it was appended, and chunk n + 1, if there is
    one, did not fit: the loop stops there, and later chunks are not
    used, even if they would fit. *)
Theorem getContext_joins_the_leading_chunks (query : jsstring) (c : MemvidChat)
    (w w' : World) (contextChunks : list (option jsstring))
    (r' : Retriever.MemvidRetriever) :
  Retriever.search query (contextChunksPerQuery c) (retriever c) w
  = (Returned contextChunks, r', w') ->
  exists n,
    n <= length contextChunks
    /\ getContext query c w
       = (Returned (trim (joinedPieces n contextChunks)), withRetriever c r', w')
    /\ (forall k chunk, k < n -> nth_error contextChunks k = Some chunk ->
          length (joinedPieces k contextChunks ++ chunkToString chunk)
          <= maxContextTokens c)
    /\ (forall chunk, nth_error contextChunks n = Some chunk ->
          maxContextTokens c
          < length (joinedPieces n contextChunks ++ chunkToString chunk)).
Proof.
  intros Hsearch. unfold getContext. rewrite Hsearch.
  destruct contextChunks as [|chunk rest].
  { exists 0. unfold joinedPieces. simpl. repeat split; auto; intros; try lia; discriminate. }
  destruct (combineContext_prefix (maxContextTokens c) (chunk :: rest) [])
    as (n & Hn & Hres & Hfit & Hstop).
  exists n. rewrite Hres. cbn [app] in *. repeat split; auto.
Qed.

End ChatContext.

Section ChatContextWitness.
Import Toy Chat.

Lemma chat_context_is_bounded_witness :
  let c := newChat toyRetriever toyMemvidConfig None in
  exists response c' w',
    chat (js "message 1") c savedWorld = (Returned response, c', w')
    /\ (response = js "No relevant context found in the video for your query."
        \/ exists context,
             response = js "Context from video:" ++ [10%N] ++ context
             /\ context <> [] /\ trim context = context
             /\ length context <= maxContextTokens c).
Proof.
  intros c.
  destruct (chat (js "message 1") c savedWorld) as [[[response|msg] c'] w'] eqn:E;
    [|vm_compute in E; discriminate].
  exists response, c', w'. split; [reflexivity|].
  apply (chat_context_is_bounded (js "message 1") response c c' savedWorld w' E).
Defined.

Lemma getContext_joins_the_leading_chunks_witness :
  let c := newChat toyRetriever toyMemvidConfig None in
  exists contextChunks r' w' n,
    Retriever.search (js "message 1") (contextChunksPerQuery c) (retriever c) savedWorld
    = (Returned contextChunks, r', w')
    /\ n <= length contextChunks
    /\ getContext (js "message 1") c savedWorld
       = (Returned (trim (joinedPieces n contextChunks)), withRetriever c r', w')
    /\ (forall k chunk, k < n -> nth_error contextChunks k = Some chunk ->
          length (joinedPieces k contextChunks ++ chunkToString chunk)
          <= maxContextTokens c)
    /\ (forall chunk, nth_error contextChunks n = Some chunk ->
          maxContextTokens c
          < length (joinedPieces n contextChunks ++ chunkToString chunk)).
Proof.
  intros c.
  destruct (Retriever.search (js "message 1") (contextChunksPerQuery c) (retriever c)
              savedWorld) as [[[contextChunks|msg] r'] w'] eqn:E;
    [|vm_compute in E; discriminate].
  destruct (getContext_joins_the_leading_chunks (js "message 1") c savedWorld w'
              contextChunks r' E) as (n & H).
  exists contextChunks, r', w', n. split; [reflexivity | exact H].
Defined.

End ChatContextWitness.

(* ===================================================================== *)
(** ** The retriever: its queries and its frame cache                      *)
(* ===================================================================== *)

Section RetrieverQueries.
Import Utils Config Retriever.
Context {number : Type} {model : EmbeddingModel number} {hnsw : HNSW number}
        {pako : Pako} {base64 : Base64} {json : Json} {reader : FrameReader}
        {arith : NumberArith number}.
Implicit Types (r : MemvidRetriever) (f g : option nat) (w : World)
               (cache results : gmap (option nat) (option jsstring)).

Lemma cacheGrows_refl r : cacheGrows r r.
Proof. unfold cacheGrows. split; [reflexivity|]. split; [reflexivity|]. split; auto. Qed.

Lemma cacheGrows_trans r1 r2 r3 : cacheGrows r1 r2 -> cacheGrows r2 r3 -> cacheGrows r1 r3.
Proof.
  intros (Hs1 & Hsub1 & Hb1 & Hf1) (Hs2 & Hsub2 & Hb2 & Hf2). unfold cacheGrows.
  split; [congruence|]. split; [etransitivity; eassumption|]. split.
  - intros H. rewrite <- Hs1. apply Hb2. rewrite Hs1. now apply Hb1.
  - intros H. rewrite Hf2; [now apply Hf1|]. now rewrite Hs1, (Hf1 H).
Qed.

Lemma extractFrameAndDecode_some f r video :
  videoBuffer r = Some video ->
  extractFrameAndDecode f r
  = (Returned (decodedAt (length (extractions r)) video (fps r) f), withExtraction r f).
Proof.
  intros Hv. unfold extractFrameAndDecode, decodedAt. rewrite Hv.
  destruct (readFrameQr _ _ _ _) as [[|c raw]|]; reflexivity.
Qed.

Lemma decodeSingleFrame_cacheGrows f r : cacheGrows r (snd (_decodeSingleFrame f r)).
Proof.
  unfold _decodeSingleFrame.
  destruct (readyPromise r); [|apply cacheGrows_refl].
  destruct (videoBuffer r) as [video|] eqn:Ev; [|apply cacheGrows_refl].
  destruct (fps r =? 0); [apply cacheGrows_refl|].
  destruct (_frameCache r !! f) eqn:Ef; [apply cacheGrows_refl|].
  rewrite (extractFrameAndDecode_some f r video Ev).
  cbn [_frameCache _cacheSize withExtraction].
  destruct (size (_frameCache r) <? _cacheSize r) eqn:E; unfold cacheGrows; simpl.
  - apply Nat.ltb_lt in E. split; [reflexivity|]. split; [now apply insert_subseteq|].
    split; intros H; [|lia]. rewrite map_size_insert_None by exact Ef. lia.
  - split; [reflexivity|]. split; [reflexivity|]. split; auto.
Qed.

Lemma decodeLoop_cacheGrows (found : list (@SearchResult number)) : forall r texts,
  cacheGrows r (snd (decodeLoop found r texts)).
Proof.
  induction found as [|x found IH]; intros r texts; cbn [decodeLoop];
    [apply cacheGrows_refl|].
  pose proof (decodeSingleFrame_cacheGrows (meta_frame (metadata_of x)) r) as H1.
  destruct (_decodeSingleFrame _ r) as [[decoded|msg] r1]; simpl in H1; [|exact H1].
  eapply cacheGrows_trans; [exact H1 | apply IH].
Qed.

Lemma search_cacheGrows query k r w : cacheGrows r (snd (fst (search query k r w))).
Proof.
  unfold search. destruct (readyPromise r); [|apply cacheGrows_refl].
  destruct (IndexManager.search query k (indexManager r) w) as [[found|msg] w'];
    [|apply cacheGrows_refl].
  pose proof (decodeLoop_cacheGrows found r []) as H.
  now destruct (decodeLoop found r []) as [texts r'].
Qed.

Lemma getChunkById_cacheGrows chunkId r : cacheGrows r (snd (getChunkById chunkId r)).
Proof.
  unfold getChunkById. destruct (readyPromise r); [|apply cacheGrows_refl].
  destruct (metadataOf chunkId (indexManager r)) as [meta|]; [|apply cacheGrows_refl].
  pose proof (decodeSingleFrame_cacheGrows (meta_frame meta) r) as H.
  now destruct (_decodeSingleFrame (meta_frame meta) r) as [[decoded|msg] r'].
Qed.

Lemma windowLoop_cacheGrows steps : forall targetId r chunks,
  cacheGrows r (snd (windowLoop steps targetId r chunks)).
Proof.
  induction steps as [|steps IH]; intros targetId r chunks; cbn [windowLoop];
    [apply cacheGrows_refl|].
  pose proof (getChunkById_cacheGrows targetId r) as H1.
  destruct (getChunkById targetId r) as [[chunk|msg] r1]; simpl in H1; [|exact H1].
  eapply cacheGrows_trans; [exact H1 | apply IH].
Qed.

Lemma getContextWindow_cacheGrows chunkId windowSize r :
  cacheGrows r (snd (getContextWindow chunkId windowSize r)).
Proof.
  unfold getContextWindow. destruct (readyPromise r); [|apply cacheGrows_refl].
  apply windowLoop_cacheGrows.
Qed.

(** *** The batches of [_decodeFramesParallel], flattened *)

Lemma retriever_ext r r' :
  config r = config r' -> indexManager r = indexManager r' ->
  _frameCache r = _frameCache r' -> _cacheSize r = _cacheSize r' ->
  totalFrames r = totalFrames r' -> fps r = fps r' ->
  videoBuffer r = videoBuffer r' -> readyPromise r = readyPromise r' ->
  extractions r = extractions r' -> r = r'.
Proof. destruct r, r'. simpl. intros. now subst. Qed.

Lemma withExtractions_fields r frames :
  config (withExtractions r frames) = config r
  /\ indexManager (withExtractions r frames) = indexManager r
  /\ _frameCache (withExtractions r frames) = _frameCache r
  /\ _cacheSize (withExtractions r frames) = _cacheSize r
  /\ totalFrames (withExtractions r frames) = totalFrames r
  /\ fps (withExtractions r frames) = fps r
  /\ videoBuffer (withExtractions r frames) = videoBuffer r
  /\ readyPromise (withExtractions r frames) = readyPromise r
  /\ extractions (withExtractions r frames) = extractions r ++ frames.
Proof.
  unfold withExtractions. revert r.
  induction frames as [|f frames IH]; intros r; cbn [fold_left].
  - rewrite app_nil_r. repeat split.
  - destruct (IH (withExtraction r f)) as (H1 & H2 & H3 & H4 & H5 & H6 & H7 & H8 & H9).
    simpl in *. rewrite <- app_assoc in H9. repeat split; assumption.
Qed.

Lemma withExtractions_withCache r cache frames :
  withExtractions (withCache r cache) frames = withCache (withExtractions r frames) cache.
Proof.
  destruct (withExtractions_fields (withCache r cache) frames)
    as (H1 & H2 & H3 & H4 & H5 & H6 & H7 & H8 & H9).
  destruct (withExtractions_fields r frames) as (G1 & G2 & G3 & G4 & G5 & G6 & G7 & G8 & G9).
  apply retriever_ext; simpl in *; congruence.
Qed.

Lemma withExtractions_app r a b :
  withExtractions r (a ++ b) = withExtractions (withExtractions r a) b.
Proof. unfold withExtractions. apply fold_left_app. Qed.

Lemma fetchedFrom_app n video rate a b :
  fetchedFrom n video rate (a ++ b)
  = fetchedFrom n video rate a ++ fetchedFrom (n + length a) video rate b.
Proof.
  revert n. induction a as [|f a IH]; intros n; simpl.
  - now rewrite Nat.add_0_r.
  - rewrite IH. now replace (S n + length a) with (n + S (length a)) by lia.
Qed.

Lemma extractBatch_spec video batch : forall r batchResults,
  videoBuffer r = Some video ->
  extractBatch batch r batchResults
  = (Returned (batchResults
               ++ fetchedFrom (length (extractions r)) video (fps r) batch),
     withExtractions r batch).
Proof.
  induction batch as [|f batch IH]; intros r batchResults Hv; cbn [extractBatch].
  - simpl. now rewrite app_nil_r.
  - rewrite (extractFrameAndDecode_some f r video Hv).
    rewrite IH by exact Hv. simpl. rewrite length_app, <- app_assoc. simpl.
    now rewrite Nat.add_1_r.
Qed.

Lemma storeBatch_spec batchResults : forall results r,
  storeBatch batchResults results r
  = (fst (fold_left (storeOne (_cacheSize r)) batchResults (results, _frameCache r)),
     withCache r (snd (fold_left (storeOne (_cacheSize r)) batchResults
                                 (results, _frameCache r)))).
Proof.
  induction batchResults as [|[f data] batchResults IH]; intros results r;
    cbn [storeBatch fold_left].
  - simpl. f_equal. now destruct r.
  - rewrite IH.
    assert (E : storeOne (_cacheSize r) (results, _frameCache r) (f, data)
                = (<[f := data]> results,
                   if size (_frameCache r) <? _cacheSize r
                   then <[f := data]> (_frameCache r) else _frameCache r))
      by reflexivity.
    rewrite E. destruct (size (_frameCache r) <? _cacheSize r); reflexivity.
Qed.

Lemma batchLoop_spec video batchSize framesToFetch :
  1 <= batchSize ->
  forall fuel i results r,
    videoBuffer r = Some video -> length framesToFetch <= i + fuel ->
    batchLoop fuel batchSize i framesToFetch results r
    = (Returned
         (fst (fold_left (storeOne (_cacheSize r))
                 (fetchedFrom (length (extractions r)) video (fps r)
                              (skipn i framesToFetch))
                 (results, _frameCache r))),
       withCache (withExtractions r (skipn i framesToFetch))
         (snd (fold_left (storeOne (_cacheSize r))
                 (fetchedFrom (length (extractions r)) video (fps r)
                              (skipn i framesToFetch))
                 (results, _frameCache r)))).
Proof.
  intros Hbatch.
  assert (Hdone : forall i results r, length framesToFetch <= i ->
            (Returned results, r)
            = (Returned
                 (fst (fold_left (storeOne (_cacheSize r))
                         (fetchedFrom (length (extractions r)) video (fps r)
                                      (skipn i framesToFetch))
                         (results, _frameCache r))),
               withCache (withExtractions r (skipn i framesToFetch))
                 (snd (fold_left (storeOne (_cacheSize r))
                         (fetchedFrom (length (extractions r)) video (fps r)
                                      (skipn i framesToFetch))
                         (results, _frameCache r))))).
  { intros i results r Hi. rewrite skipn_all2 by exact Hi. simpl. f_equal. now destruct r. }
  induction fuel as [|fuel IH]; intros i results r Hv Hfuel; cbn [batchLoop].
  - apply Hdone. lia.
  - destruct (i <? length framesToFetch) eqn:Ei.
    2:{ apply Nat.ltb_ge in Ei. now apply Hdone. }
    apply Nat.ltb_lt in Ei. cbv zeta.
    replace (i + batchSize - i) with batchSize by lia.
    set (batch := firstn batchSize (skipn i framesToFetch)).
    assert (Hsplit : skipn i framesToFetch = batch ++ skipn (i + batchSize) framesToFetch).
    { subst batch. rewrite <- (firstn_skipn batchSize (skipn i framesToFetch)) at 1.
      now rewrite drop_drop. }
    rewrite (extractBatch_spec video batch r [] Hv). cbn [app].
    rewrite storeBatch_spec.
    destruct (withExtractions_fields r batch) as (_ & _ & Hc & Hs & _ & Hf & Hvb & _ & He).
    rewrite Hc, Hs.
    set (S1 := fold_left (storeOne (_cacheSize r))
                 (fetchedFrom (length (extractions r)) video (fps r) batch)
                 (results, _frameCache r)).
    rewrite IH; [|simpl; congruence | lia].
    cbn [_cacheSize _frameCache withCache extractions fps]. rewrite Hs, He, Hf, length_app.
    rewrite Hsplit, fetchedFrom_app, fold_left_app. fold S1.
    rewrite withExtractions_withCache, withExtractions_app.
    destruct S1 as [results1 cache1]. reflexivity.
Qed.

Lemma splitCached_fold cache frames : forall results framesToFetch,
  exists results',
    fold_left
      (fun '(results, framesToFetch) frameNum =>
         match cache !! frameNum with
         | Some cached => (<[frameNum := cached]> results, framesToFetch)
         | None => (results, framesToFetch ++ [frameNum])
         end)
      frames (results, framesToFetch)
    = (results', framesToFetch ++ uncached cache frames)
    /\ forall f, results' !! f
                 = match cache !! f with
                   | Some cached => if bool_decide (f ∈ frames) then Some cached
                                    else results !! f
                   | None => results !! f
                   end.
Proof.
  unfold uncached.
  induction frames as [|x frames IH]; intros results framesToFetch; cbn [fold_left List.filter].
  - exists results. rewrite app_nil_r. split; [reflexivity|].
    intros f. destruct (cache !! f); [|reflexivity].
    now rewrite bool_decide_eq_false_2 by apply not_elem_of_nil.
  - destruct (cache !! x) as [cached|] eqn:Ex.
    + destruct (IH (<[x := cached]> results) framesToFetch) as (results' & E & Hl).
      exists results'. split; [exact E|]. intros f. rewrite Hl.
      destruct (decide (x = f)) as [->|Hne].
      * rewrite Ex, lookup_insert_eq.
        rewrite (bool_decide_eq_true_2 (f ∈ f :: frames)) by apply list_elem_of_here.
        now destruct (bool_decide (f ∈ frames)).
      * rewrite lookup_insert_ne by exact Hne. destruct (cache !! f); [|reflexivity].
        destruct (bool_decide (f ∈ frames)) eqn:Ein.
        -- apply bool_decide_eq_true in Ein.
           now rewrite bool_decide_eq_true_2 by now apply list_elem_of_further.
        -- apply bool_decide_eq_false in Ein.
           rewrite bool_decide_eq_false_2; [reflexivity|].
           rewrite elem_of_cons. intros [->|H]; tauto.
    + destruct (IH results (framesToFetch ++ [x])) as (results' & E & Hl).
      exists results'. rewrite <- app_assoc in E. split; [exact E|].
      intros f. rewrite Hl. destruct (cache !! f) eqn:Ef; [|reflexivity].
      assert (Hne : x <> f) by congruence.
      destruct (bool_decide (f ∈ frames)) eqn:Ein.
      * apply bool_decide_eq_true in Ein.
        now rewrite bool_decide_eq_true_2 by now apply list_elem_of_further.
      * apply bool_decide_eq_false in Ein.
        rewrite bool_decide_eq_false_2; [reflexivity|].
        rewrite elem_of_cons. intros [->|H]; tauto.
Qed.

Lemma splitCached_spec cache frames :
  snd (splitCached cache frames) = uncached cache frames
  /\ forall f, fst (splitCached cache frames) !! f
               = if bool_decide (f ∈ frames) then cache !! f else None.
Proof.
  unfold splitCached.
  destruct (splitCached_fold cache frames ∅ []) as (results' & -> & Hl).
  split; [reflexivity|]. intros f. cbn [fst]. rewrite Hl, lookup_empty.
  destruct (cache !! f); now destruct (bool_decide (f ∈ frames)).
Qed.

Lemma batchSize_positive n : 1 <= orNat (Some n) 4.
Proof. destruct n; simpl; lia. Qed.

(** [_decodeFramesParallel] on a retriever whose initialization went
    through: the frames that are not in the cache are extracted in their
    order, then recorded. *)
Lemma decodeFramesParallel_spec frames r video :
  usable r video ->
  _decodeFramesParallel frames r
  = (Returned
       (fst (fold_left (storeOne (_cacheSize r))
               (fetchedFrom (length (extractions r)) video (fps r)
                            (uncached (_frameCache r) frames))
               (fst (splitCached (_frameCache r) frames), _frameCache r))),
     withCache (withExtractions r (uncached (_frameCache r) frames))
       (snd (fold_left (storeOne (_cacheSize r))
               (fetchedFrom (length (extractions r)) video (fps r)
                            (uncached (_frameCache r) frames))
               (fst (splitCached (_frameCache r) frames), _frameCache r)))).
Proof.
  intros (Hready & Hvideo & Hfps). unfold _decodeFramesParallel.
  rewrite Hready, Hvideo. apply Nat.eqb_neq in Hfps. rewrite Hfps.
  destruct (splitCached_spec (_frameCache r) frames) as [Hsnd _].
  destruct (splitCached (_frameCache r) frames) as [results0 framesToFetch].
  cbn [fst snd] in *. subst framesToFetch.
  rewrite (batchLoop_spec video) by (auto using batchSize_positive; lia).
  now rewrite skipn_O.
Qed.

Lemma decodeFramesParallel_unusable frames r :
  (forall video, ~ usable r video) ->
  exists msg, _decodeFramesParallel frames r = (Thrown msg, r).
Proof.
  intros Hno. unfold _decodeFramesParallel.
  destruct (readyPromise r) as [[]|msg] eqn:Er; [|eauto].
  destruct (videoBuffer r) as [video|] eqn:Ev; [|eauto].
  destruct (fps r =? 0) eqn:Ef; [eauto|].
  apply Nat.eqb_neq in Ef. now destruct (Hno video).
Qed.

Lemma usable_dec r : (exists video, usable r video) \/ (forall video, ~ usable r video).
Proof.
  unfold usable.
  destruct (readyPromise r) as [[]|msg]; [|right; intros v (H & _); discriminate].
  destruct (videoBuffer r) as [video|]; [|right; intros v (_ & H & _); discriminate].
  destruct (Nat.eq_dec (fps r) 0) as [E|E]; [right; intros v (_ & _ & H); now apply H|].
  left. now exists video.
Qed.

Lemma In_fetchedFrom e video rate frames : forall n,
  In e (fetchedFrom n video rate frames) -> In (fst e) frames.
Proof.
  induction frames as [|f frames IH]; intros n; simpl; [tauto|].
  intros [<-|Hin]; [now left | right; eauto].
Qed.

Lemma In_uncached cache frames f :
  In f (uncached cache frames) <-> In f frames /\ cache !! f = None.
Proof.
  unfold uncached. rewrite List.filter_In.
  destruct (cache !! f); intuition discriminate.
Qed.

(** What recording the fetched frames does to the cache. *)
Lemma storeAll_cache capacity entries : forall results cache,
  (size cache <= capacity
   -> size (snd (fold_left (storeOne capacity) entries (results, cache))) <= capacity)
  /\ (capacity <= size cache
      -> snd (fold_left (storeOne capacity) entries (results, cache)) = cache)
  /\ (forall base, base ⊆ cache -> (forall e, In e entries -> base !! fst e = None)
      -> base ⊆ snd (fold_left (storeOne capacity) entries (results, cache))).
Proof.
  induction entries as [|[f data] entries IH]; intros results cache; cbn [fold_left].
  - simpl. repeat split; auto.
  - assert (E : storeOne capacity (results, cache) (f, data)
                = (<[f := data]> results,
                   if size cache <? capacity then <[f := data]> cache else cache))
      by reflexivity.
    rewrite E. clear E.
    destruct (IH (<[f := data]> results)
                 (if size cache <? capacity then <[f := data]> cache else cache))
      as (Hb & Hf & Hs).
    destruct (size cache <? capacity) eqn:Elt.
    + apply Nat.ltb_lt in Elt. split; [|split].
      * intros _. apply Hb. rewrite map_size_insert. destruct (cache !! f); simpl; lia.
      * intros H. lia.
      * intros base Hbase Hnone. apply Hs.
        -- apply insert_subseteq_r; [|exact Hbase]. apply (Hnone (f, data)). now left.
        -- intros e He. apply Hnone. now right.
    + apply Nat.ltb_ge in Elt. split; [|split].
      * exact Hb.
      * exact Hf.
      * intros base Hbase Hnone. apply Hs; [exact Hbase|].
        intros e He. apply Hnone. now right.
Qed.

Lemma decodeFramesParallel_cacheGrows frames r :
  cacheGrows r (snd (_decodeFramesParallel frames r)).
Proof.
  destruct (usable_dec r) as [[video Hr]|Hno].
  2:{ destruct (decodeFramesParallel_unusable frames r Hno) as [msg ->].
      apply cacheGrows_refl. }
  rewrite (decodeFramesParallel_spec frames r video Hr). cbn [snd].
  set (entries := fetchedFrom _ _ _ _).
  destruct (storeAll_cache (_cacheSize r) entries
              (fst (splitCached (_frameCache r) frames)) (_frameCache r))
    as (Hb & Hf & Hs).
  unfold cacheGrows. cbn [_cacheSize _frameCache withCache].
  destruct (withExtractions_fields r (uncached (_frameCache r) frames))
    as (_ & _ & _ & Hsize & _).
  split; [exact Hsize|]. split; [|split; [exact Hb | exact Hf]].
  apply Hs; [reflexivity|]. intros e He. subst entries.
  apply In_fetchedFrom, In_uncached in He. tauto.
Qed.

Lemma searchWithMetadata_cacheGrows query k r w :
  cacheGrows r (snd (fst (searchWithMetadata query k r w))).
Proof.
  unfold searchWithMetadata. destruct (readyPromise r); [|apply cacheGrows_refl].
  destruct (IndexManager.search query k (indexManager r) w) as [[found|msg] w'];
    [|apply cacheGrows_refl].
  cbv zeta. set (frames := distinctFrames _).
  pose proof (decodeFramesParallel_cacheGrows frames r) as H.
  now destruct (_decodeFramesParallel frames r) as [[decodedFrames|msg] r'].
Qed.

Lemma prefetchFrames_cacheGrows frameNumbers r :
  cacheGrows r (snd (prefetchFrames frameNumbers r)).
Proof.
  unfold prefetchFrames. destruct (readyPromise r); [|apply cacheGrows_refl].
  cbv zeta. set (toPrefetch := List.filter _ _).
  destruct toPrefetch as [|f rest] eqn:E; [apply cacheGrows_refl|]. rewrite <- E.
  pose proof (decodeFramesParallel_cacheGrows toPrefetch r) as H.
  now destruct (_decodeFramesParallel toPrefetch r) as [[decodedFrames|msg] r'].
Qed.

Lemma perform_cacheGrows call r w : cacheGrows r (fst (perform call r w)).
Proof.
  destruct call; cbn [perform fst].
  - apply search_cacheGrows.
  - apply searchWithMetadata_cacheGrows.
  - apply getChunkById_cacheGrows.
  - apply getContextWindow_cacheGrows.
  - apply prefetchFrames_cacheGrows.
Qed.

Lemma performAll_cacheGrows calls : forall r w, cacheGrows r (fst (performAll calls r w)).
Proof.
  unfold performAll.
  induction calls as [|call calls IH]; intros r w; cbn [fold_left fst snd];
    [apply cacheGrows_refl|].
  eapply cacheGrows_trans; [apply (perform_cacheGrows call r w)|].
  destruct (perform call r w) as [r1 w1]. apply IH.
Qed.

(** [X16]. Whatever queries are made on a retriever ([search],
    [searchWithMetadata], [getChunkById], [getContextWindow],
    [prefetchFrames], returning or throwing), its frame cache never holds
    more frames than its capacity [cache_size] if it did not before; no
    entry of the cache is ever evicted or replaced; and once the cache is
    full it does not change any more: later frames are decoded but not
    cached. *)
Theorem frame_cache_stays_within_capacity (calls : list Call) (r : MemvidRetriever)
    (w : World) :
  size (_frameCache r) <= _cacheSize r ->
  let r' := fst (performAll calls r w) in
  size (_frameCache r') <= _cacheSize r'
  /\ _cacheSize r' = _cacheSize r
  /\ _frameCache r ⊆ _frameCache r'
  /\ (size (_frameCache r) = _cacheSize r -> _frameCache r' = _frameCache r).
Proof.
  intros Hbound r'. subst r'.
  destruct (performAll_cacheGrows calls r w) as (Hs & Hsub & Hb & Hf).
  rewrite Hs. split; [now apply Hb|]. split; [reflexivity|]. split; [exact Hsub|].
  intros E. apply Hf. lia.
Qed.

(** *** Initialization *)

Lemma load_returned p (m m' : HNSWIndexManager) w u :
  load p m w = (Returned u, m') -> IndexManager.index m' <> None.
Proof.
  unfold load.
  destruct (files w !! metaFilePath (resolvePath p m)) as [[next entries|]|];
    try discriminate.
  destruct (files w !! hnswFilePath (resolvePath p m)) as [[|indexJson]|];
    try discriminate.
  destruct (fromJSON indexJson); [|discriminate].
  intros [= _ <-]. discriminate.
Qed.

(** [X17]. A retriever whose initialization succeeded can be queried:
    its video buffer is there, its frame rate is not 0 (the configured
    one, or 30), its index is loaded, it counts at least one frame, and
    it starts with an empty frame cache of the configured capacity. So
    the guards of the queries ("video buffer missing", "FPS is 0", "index
    not initialized") cannot fire on it. *)
Theorem initialized_retriever_is_usable (videoSource : VideoSource) (path : jsstring)
    (cfg : MemvidConfig) (w : World) :
  readyPromise (newRetriever videoSource path cfg w) = Returned tt ->
  (exists video, usable (newRetriever videoSource path cfg w) video)
  /\ IndexManager.index (indexManager (newRetriever videoSource path cfg w)) <> None
  /\ 1 <= totalFrames (newRetriever videoSource path cfg w)
  /\ _frameCache (newRetriever videoSource path cfg w) = ∅
  /\ _cacheSize (newRetriever videoSource path cfg w) = cache_size (retrieval cfg)
  /\ extractions (newRetriever videoSource path cfg w) = [].
Proof.
  unfold newRetriever.
  destruct (match videoSource with
            | VideoPath path0 => readVideoFile path0
            | VideoBytes buffer => Some buffer
            end) as [buffer|]; [|discriminate].
  destruct (load (Some path) _ w) as [loaded manager'] eqn:El.
  cbn [readyPromise]. intros ->.
  apply load_returned in El. unfold usable. simpl.
  split; [|repeat split; auto; lia].
  exists buffer. repeat split.
  destruct (lookupCodec (codec cfg) (codecParameters cfg)) as [c|]; [|discriminate].
  destruct (videoFps c); discriminate.
Qed.

(** [X18]. When the retriever cannot be initialized because no index is
    saved under its base path (the metadata file or the graph file is
    missing), every query rejects with the error of the initialization,
    the retriever and the world are left as they were: no embedding is
    computed and no frame is extracted. *)
Theorem retriever_without_index_rejects_every_query (videoSource : VideoSource)
    (path : jsstring) (cfg : MemvidConfig) (w0 : World) :
  path <> [] ->
  files w0 !! metaFilePath path = None \/ files w0 !! hnswFilePath path = None ->
  let r := newRetriever videoSource path cfg w0 in
  exists msg,
    readyPromise r = Thrown msg
    /\ forall (query : jsstring) (k : nat) (chunkId windowSize : Z)
              (frameNumbers : list nat) (w : World),
         search query k r w = (Thrown msg, r, w)
         /\ searchWithMetadata query k r w = (Thrown msg, r, w)
         /\ getChunkById chunkId r = (Thrown msg, r)
         /\ getContextWindow chunkId windowSize r = (Thrown msg, r)
         /\ prefetchFrames frameNumbers r = (Thrown msg, r).
Proof.
  intros Hpath Hmissing r.
  assert (Hready : exists msg, readyPromise r = Thrown msg).
  { subst r. unfold newRetriever.
    destruct (match videoSource with
              | VideoPath path0 => readVideoFile path0
              | VideoBytes buffer => Some buffer
              end) as [buffer|]; [|simpl; eauto].
    destruct (load (Some path) _ w0) as [loaded manager'] eqn:El. cbn [readyPromise].
    unfold load in El.
    assert (Hres : forall m, resolvePath (Some path) m = path).
    { intros m. unfold resolvePath. now destruct path. }
    rewrite Hres in El.
    destruct Hmissing as [Hm|Hh].
    - rewrite Hm in El. injection El as <- _. eauto.
    - rewrite Hh in El.
      destruct (files w0 !! metaFilePath path) as [[next entries|]|];
        injection El as <- _; eauto. }
  destruct Hready as [msg Hmsg]. exists msg. split; [exact Hmsg|].
  intros query k chunkId windowSize frameNumbers w.
  unfold search, searchWithMetadata, getChunkById, getContextWindow, prefetchFrames.
  rewrite Hmsg. repeat split.
Qed.

(** *** Queries on a usable retriever *)

Lemma decodeSingleFrame_returns f r video :
  usable r video ->
  exists decoded r',
    _decodeSingleFrame f r = (Returned decoded, r')
    /\ usable r' video /\ indexManager r' = indexManager r /\ fps r' = fps r
    /\ (is_Some (_frameCache r !! f) -> r' = r /\ _frameCache r !! f = Some decoded).
Proof.
  intros Hr. destruct (_frameCache r !! f) as [cached|] eqn:Ef.
  - exists cached, r. rewrite (decodeSingleFrame_hit f r video cached Hr Ef).
    repeat split; auto; apply Hr.
  - rewrite (decodeSingleFrame_miss f r video Hr Ef).
    eexists _, _. split; [reflexivity|].
    destruct Hr as (Hready & Hvideo & Hfps).
    destruct (size (_frameCache r) <? _cacheSize r); simpl;
      (split; [repeat split; auto|]); (split; [reflexivity|]);
      (split; [reflexivity|]); intros [v Hv]; discriminate.
Qed.

Lemma decodeLoop_returns video (found : list (@SearchResult number)) : forall r,
  usable r video ->
  exists texts r',
    decodeLoop found r [] = (Returned texts, r')
    /\ length texts = length found
    /\ usable r' video /\ indexManager r' = indexManager r /\ fps r' = fps r.
Proof.
  induction found as [|x found IH]; intros r Hr.
  - exists [], r. repeat split; auto; apply Hr.
  - cbn [decodeLoop].
    destruct (decodeSingleFrame_returns (meta_frame (metadata_of x)) r video Hr)
      as (decoded & r1 & E1 & Hr1 & Him1 & Hfps1 & _).
    rewrite E1, decodeLoop_acc.
    destruct (IH r1 Hr1) as (texts & r2 & E2 & Hlen & Hr2 & Him2 & Hfps2).
    rewrite E2. eexists _, r2. split; [reflexivity|].
    rewrite length_app, Hlen. simpl. repeat split; try apply Hr2; congruence.
Qed.

Lemma getChunkById_returns chunkId r video :
  usable r video ->
  exists chunk r',
    getChunkById chunkId r = (Returned chunk, r')
    /\ usable r' video /\ indexManager r' = indexManager r
    /\ (metadataOf chunkId (indexManager r) = None -> chunk = None /\ r' = r).
Proof.
  intros Hr. unfold getChunkById. pose proof Hr as (Hready & _). rewrite Hready.
  destruct (metadataOf chunkId (indexManager r)) as [meta|].
  - destruct (decodeSingleFrame_returns (meta_frame meta) r video Hr)
      as (decoded & r' & E & Hr' & Him & _).
    rewrite E. eexists _, r'. split; [reflexivity|]. repeat split; auto; try apply Hr'.
    all: discriminate.
  - exists None, r. repeat split; auto; apply Hr.
Qed.

Lemma windowLoop_returns video steps : forall targetId r chunks,
  usable r video ->
  exists chunks' r',
    windowLoop steps targetId r chunks = (Returned chunks', r')
    /\ usable r' video /\ indexManager r' = indexManager r
    /\ length chunks' <= length chunks + steps
    /\ (Forall (fun chunk => chunk <> []) chunks ->
        Forall (fun chunk => chunk <> []) chunks')
    /\ ((forall j, j < steps ->
           metadataOf (targetId + Z.of_nat j) (indexManager r) = None) ->
        chunks' = chunks /\ r' = r).
Proof.
  induction steps as [|steps IH]; intros targetId r chunks Hr.
  - exists chunks, r. simpl. repeat split; auto; try apply Hr. lia.
  - cbn [windowLoop].
    destruct (getChunkById_returns targetId r video Hr) as (chunk & r1 & E1 & Hr1 & Him1 & Hnone).
    rewrite E1.
    destruct (IH (targetId + 1)%Z r1
                 (match chunk with Some (c :: text) => chunks ++ [c :: text] | _ => chunks end)
                 Hr1) as (chunks' & r2 & E2 & Hr2 & Him2 & Hlen & Hne & Hmiss).
    exists chunks', r2. rewrite E2. split; [reflexivity|].
    split; [exact Hr2|]. split; [congruence|]. split.
    { destruct chunk as [[|c text]|]; rewrite ?length_app in Hlen; simpl in Hlen; lia. }
    split.
    { intros Hall. apply Hne. destruct chunk as [[|c text]|]; auto.
      apply Forall_app. split; [exact Hall|]. now repeat constructor. }
    intros Hnometa.
    destruct (Hnone) as [-> ->].
    { specialize (Hnometa 0 ltac:(lia)). now rewrite Z.add_0_r in Hnometa. }
    apply Hmiss. intros j Hj. specialize (Hnometa (S j) ltac:(lia)).
    now replace (targetId + 1 + Z.of_nat j)%Z with (targetId + Z.of_nat (S j))%Z by lia.
Qed.

(** [X20]. On a usable retriever [getContextWindow(chunkId, windowSize)]
    always returns: at most [2 * windowSize + 1] texts (none for a
    negative window), none of them empty; ids of the window that are
    negative or not in the index are passed over without error; and when
    no id of the window is in the index the result is empty and nothing
    is decoded. *)
Theorem getContextWindow_returns_at_most_the_window (chunkId windowSize : Z)
    (r : MemvidRetriever) (video : list byte) :
  usable r video ->
  exists chunks r',
    getContextWindow chunkId windowSize r = (Returned chunks, r')
    /\ usable r' video /\ indexManager r' = indexManager r
    /\ length chunks <= Z.to_nat (2 * windowSize + 1)
    /\ Forall (fun chunk => chunk <> []) chunks
    /\ ((forall k, (chunkId - windowSize <= k <= chunkId + windowSize)%Z ->
           metadataOf k (indexManager r) = None) ->
        chunks = [] /\ r' = r).
Proof.
  intros Hr. unfold getContextWindow. pose proof Hr as (Hready & _). rewrite Hready.
  destruct (windowLoop_returns video (Z.to_nat (2 * windowSize + 1))
              (chunkId - windowSize)%Z r [] Hr)
    as (chunks & r' & E & Hr' & Him & Hlen & Hne & Hmiss).
  exists chunks, r'. split; [exact E|]. split; [exact Hr'|]. split; [exact Him|].
  split; [simpl in Hlen; lia|]. split; [apply Hne; constructor|].
  intros Hnometa. apply Hmiss. intros j Hj. apply Hnometa. lia.
Qed.

(** *** [searchWithMetadata] and [prefetchFrames] *)

Lemma distinctFrom_spec frames : forall seen,
  List.NoDup (distinctFrom seen frames)
  /\ forall f, In f (distinctFrom seen frames) <-> In f frames /\ ~ In f seen.
Proof.
  induction frames as [|x frames IH]; intros seen; cbn [distinctFrom].
  - split; [constructor|]. simpl. tauto.
  - destruct (bool_decide (x ∈ seen)) eqn:E.
    + apply bool_decide_eq_true, list_elem_of_In in E.
      destruct (IH seen) as [Hnd Hin]. split; [exact Hnd|].
      intros f. rewrite Hin. simpl. intuition congruence.
    + apply bool_decide_eq_false in E. rewrite list_elem_of_In in E.
      destruct (IH (x :: seen)) as [Hnd Hin]. split.
      * constructor; [|exact Hnd]. rewrite Hin. simpl. tauto.
      * intros f. simpl. rewrite Hin. simpl.
        destruct (decide (x = f)) as [->|Hne]; [tauto|]. intuition congruence.
Qed.

Lemma distinctFrames_spec frames :
  List.NoDup (distinctFrames frames)
  /\ forall f, In f (distinctFrames frames) <-> In f frames.
Proof.
  unfold distinctFrames. destruct (distinctFrom_spec frames []) as [Hnd Hin].
  split; [exact Hnd|]. intros f. rewrite Hin. simpl. tauto.
Qed.

Lemma occurrences_NoDup f (frames : list (option nat)) :
  List.NoDup frames ->
  length (List.filter (fun g => bool_decide (g = f)) frames) <= 1
  /\ (~ In f frames -> length (List.filter (fun g => bool_decide (g = f)) frames) = 0).
Proof.
  induction 1 as [|x frames Hx Hnd [IH1 IH2]]; simpl; [split; auto|].
  destruct (bool_decide (x = f)) eqn:E.
  - apply bool_decide_eq_true in E. subst x. simpl. rewrite (IH2 Hx). split; [lia|tauto].
  - apply bool_decide_eq_false in E. split; [exact IH1|]. intros H. apply IH2. tauto.
Qed.

Lemma timesExtracted_withExtractions f r frames cache :
  timesExtracted f (withCache (withExtractions r frames) cache)
  = timesExtracted f r
    + length (List.filter (fun g => bool_decide (g = f)) frames).
Proof.
  unfold timesExtracted. cbn [extractions withCache].
  destruct (withExtractions_fields r frames) as (_ & _ & _ & _ & _ & _ & _ & _ & ->).
  now rewrite List.filter_app, length_app.
Qed.

Lemma usable_withExtractions r frames cache video :
  usable r video -> usable (withCache (withExtractions r frames) cache) video.
Proof.
  intros (Hready & Hvideo & Hfps). unfold usable. cbn [readyPromise videoBuffer fps withCache].
  destruct (withExtractions_fields r frames) as (_ & _ & _ & _ & _ & -> & -> & -> & _).
  now repeat split.
Qed.

(** [X21]. On a usable retriever [searchWithMetadata] returns whenever
    the index search does: one result per hit of the index, in order,
    carrying the hit's chunk id, metadata and frame number; two results
    that refer to the same frame carry the same text; and however many
    hits share a frame and whatever the state of the cache, each frame is
    extracted at most once during the call, and not at all when it was in
    the cache or no hit refers to it. *)
Theorem searchWithMetadata_extracts_each_frame_once (query : jsstring) (k : nat)
    (r : MemvidRetriever) (w w' : World) (video : list byte)
    (found : list (@SearchResult number)) :
  usable r video ->
  IndexManager.search query k (indexManager r) w = (Returned found, w') ->
  exists answers r',
    searchWithMetadata query k r w = (Returned answers, r', w')
    /\ map result_chunk_id answers = map chunk_id found
    /\ map result_metadata answers = map metadata_of found
    /\ map result_frame answers = frameNumbers found
    /\ (forall a b, In a answers -> In b answers ->
          result_frame a = result_frame b -> result_text a = result_text b)
    /\ (forall f, timesExtracted f r' <= S (timesExtracted f r))
    /\ (forall f, is_Some (_frameCache r !! f) \/ ~ In f (frameNumbers found) ->
          timesExtracted f r' = timesExtracted f r)
    /\ usable r' video.
Proof.
  intros Hr Hs. unfold searchWithMetadata. pose proof Hr as (Hready & _).
  rewrite Hready, Hs. cbv zeta.
  fold (frameNumbers found).
  set (frames := distinctFrames (frameNumbers found)).
  rewrite (decodeFramesParallel_spec frames r video Hr).
  set (toFetch := uncached (_frameCache r) frames).
  set (store := fold_left _ _ _).
  eexists _, _. split; [reflexivity|].
  rewrite !map_map. cbn [result_chunk_id result_metadata result_frame].
  split; [reflexivity|]. split; [reflexivity|]. split; [reflexivity|].
  destruct (distinctFrames_spec (frameNumbers found)) as [Hnd Hin]. fold frames in Hnd, Hin.
  assert (Hnd' : List.NoDup toFetch) by (subst toFetch; unfold uncached; now apply List.NoDup_filter).
  split.
  { intros a b Ha Hb. apply in_map_iff in Ha as (x & <- & _).
    apply in_map_iff in Hb as (y & <- & _). cbn [result_frame result_text].
    now intros ->. }
  split.
  { intros f. rewrite timesExtracted_withExtractions.
    destruct (occurrences_NoDup f toFetch Hnd') as [Hle _]. lia. }
  split.
  { intros f Hf. rewrite timesExtracted_withExtractions.
    destruct (occurrences_NoDup f toFetch Hnd') as [_ Hzero]. rewrite Hzero; [lia|].
    subst toFetch. rewrite In_uncached, Hin.
    destruct Hf as [[v Hv]|Hf]; [rewrite Hv; intros [_ H]; discriminate | tauto]. }
  now apply usable_withExtractions.
Qed.

Lemma decodedAt_steady video rate n f :
  steadyReader video rate -> decodedAt n video rate f = decodedAt 0 video rate f.
Proof. intros Hsteady. unfold decodedAt. now rewrite (Hsteady n f). Qed.

Lemma fetchedFrom_fst n video rate frames :
  map fst (fetchedFrom n video rate frames) = frames.
Proof.
  revert n. induction frames as [|f frames IH]; intros n; simpl; [reflexivity|].
  now rewrite IH.
Qed.

Lemma fetchedFrom_steady video rate frames : forall n e,
  steadyReader video rate ->
  In e (fetchedFrom n video rate frames) -> snd e = decodedAt 0 video rate (fst e).
Proof.
  induction frames as [|f frames IH]; intros n e Hsteady; simpl; [tauto|].
  intros [<-|Hin]; [now apply decodedAt_steady | eauto].
Qed.

(** What recording the fetched frames leaves in [results], when what is
    fetched for a frame depends on the frame only. *)
Lemma storeAll_results capacity (value : option nat -> option jsstring) entries :
  forall results cache,
    (forall e, In e entries -> snd e = value (fst e)) ->
    forall f, fst (fold_left (storeOne capacity) entries (results, cache)) !! f
              = if bool_decide (f ∈ map fst entries) then Some (value f) else results !! f.
Proof.
  induction entries as [|[x data] entries IH]; intros results cache Hval f; cbn [fold_left].
  - cbn [map fst]. now rewrite bool_decide_eq_false_2 by apply not_elem_of_nil.
  - assert (E : storeOne capacity (results, cache) (x, data)
                = (<[x := data]> results,
                   if size cache <? capacity then <[x := data]> cache else cache))
      by reflexivity.
    rewrite E, IH by (intros e He; apply Hval; now right).
    pose proof (Hval (x, data) (or_introl eq_refl)) as Hd. cbn [fst snd] in Hd. subst data.
    cbn [map fst].
    destruct (bool_decide (f ∈ map fst entries)) eqn:Ein.
    + apply bool_decide_eq_true in Ein.
      now rewrite bool_decide_eq_true_2 by now apply list_elem_of_further.
    + apply bool_decide_eq_false in Ein.
      destruct (decide (x = f)) as [->|Hne].
      * rewrite lookup_insert_eq.
        now rewrite bool_decide_eq_true_2 by apply list_elem_of_here.
      * rewrite lookup_insert_ne by exact Hne.
        rewrite bool_decide_eq_false_2; [reflexivity|].
        rewrite elem_of_cons. intros [->|H]; tauto.
Qed.

(** The sequential decoding of [search], when what is fetched for a frame
    depends on the frame only: every hit gets what the cache held for its
    frame when the query started or, failing that, what the frame
    decodes to. *)
Lemma decodeLoop_steady (video : list byte) (rate : nat)
    (base : gmap (option nat) (option jsstring))
    (found : list (@SearchResult number)) : forall r,
  steadyReader video rate ->
  usable r video -> fps r = rate -> base ⊆ _frameCache r ->
  (forall f v, _frameCache r !! f = Some v ->
     v = match base !! f with Some v0 => v0 | None => decodedAt 0 video rate f end) ->
  exists r',
    decodeLoop found r []
    = (Returned
         (map (fun x =>
                 textOfFrame (meta_frame (metadata_of x))
                   (match base !! meta_frame (metadata_of x) with
                    | Some v0 => v0
                    | None => decodedAt 0 video rate (meta_frame (metadata_of x))
                    end)) found),
       r').
Proof.
  intros r Hsteady. revert r.
  induction found as [|x found IH]; intros r Hr Hrate Hbase Hcoh.
  - exists r. reflexivity.
  - cbn [decodeLoop map]. set (f := meta_frame (metadata_of x)).
    set (expected := fun f => match base !! f with
                              | Some v0 => v0
                              | None => decodedAt 0 video rate f
                              end) in *.
    assert (Hstep : exists r1,
               _decodeSingleFrame f r = (Returned (expected f), r1)
               /\ usable r1 video /\ fps r1 = rate /\ base ⊆ _frameCache r1
               /\ (forall g v, _frameCache r1 !! g = Some v -> v = expected g)).
    { destruct (_frameCache r !! f) as [cached|] eqn:Ef.
      - exists r. rewrite (decodeSingleFrame_hit f r video cached Hr Ef).
        rewrite (Hcoh f cached Ef). repeat split; auto; apply Hr.
      - rewrite (decodeSingleFrame_miss f r video Hr Ef).
        assert (Hexp : decodedAt (length (extractions r)) video (fps r) f = expected f).
        { rewrite Hrate, decodedAt_steady by exact Hsteady. subst expected. cbv beta.
          destruct (base !! f) as [v0|] eqn:Eb; [|reflexivity].
          eapply lookup_weaken in Eb; [|exact Hbase]. congruence. }
        rewrite Hexp. eexists. split; [reflexivity|].
        destruct Hr as (Hready & Hvideo & Hfps).
        destruct (size (_frameCache r) <? _cacheSize r); simpl;
          (split; [repeat split; auto|]); (split; [exact Hrate|]).
        + split.
          * apply insert_subseteq_r; [|exact Hbase].
            destruct (base !! f) as [v0|] eqn:Eb; [|reflexivity].
            eapply lookup_weaken in Eb; [|exact Hbase]. congruence.
          * intros g v. destruct (decide (f = g)) as [<-|Hne].
            -- rewrite lookup_insert_eq. now intros [= <-].
            -- rewrite lookup_insert_ne by exact Hne. apply Hcoh.
        + split; [exact Hbase | exact Hcoh]. }
    destruct Hstep as (r1 & E1 & Hr1 & Hrate1 & Hbase1 & Hcoh1).
    rewrite E1, decodeLoop_acc.
    destruct (IH r1 Hr1 Hrate1 Hbase1 Hcoh1) as (r2 & E2).
    rewrite E2. exists r2. reflexivity.
Qed.

(** One call of [_decodeSingleFrame] on a usable retriever: a hit of
    the cache changes nothing; a miss extracts the frame once and caches
    what was decoded if there is room. *)
Lemma decodeSingleFrame_step f r video :
  usable r video ->
  exists decoded r',
    _decodeSingleFrame f r = (Returned decoded, r')
    /\ usable r' video /\ indexManager r' = indexManager r /\ fps r' = fps r
    /\ ((_frameCache r !! f = Some decoded /\ r' = r)
        \/ (_frameCache r !! f = None
            /\ decoded = decodedAt (length (extractions r)) video (fps r) f
            /\ extractions r' = extractions r ++ [f]
            /\ (_frameCache r' = _frameCache r
                \/ _frameCache r' = <[f := decoded]> (_frameCache r)))).
Proof.
  intros Hr. destruct (_frameCache r !! f) as [cached|] eqn:Ef.
  - exists cached, r. rewrite (decodeSingleFrame_hit f r video cached Hr Ef).
    split; [reflexivity|]. split; [exact Hr|]. repeat split; auto.
  - rewrite (decodeSingleFrame_miss f r video Hr Ef).
    eexists _, _. split; [reflexivity|].
    destruct Hr as (Hready & Hvideo & Hfps).
    destruct (size (_frameCache r) <? _cacheSize r); simpl;
      (split; [repeat split; auto|]); (split; [reflexivity|]);
      (split; [reflexivity|]); right; repeat split; auto.
Qed.

(** What was decoded for a frame during the rest of a query was decoded
    for it during the whole query. *)
Lemma decodedFor_earlier f r r1 r2 video decoded rest :
  _frameCache r !! f = None ->
  decoded = decodedAt (length (extractions r)) video (fps r) f ->
  extractions r1 = extractions r ++ [f] -> fps r1 = fps r ->
  _frameCache r1 = _frameCache r \/ _frameCache r1 = <[f := decoded]> (_frameCache r) ->
  extractions r2 = extractions r1 ++ rest ->
  forall g d, decodedFor r1 r2 video g d -> decodedFor r r2 video g d.
Proof.
  intros Hf Hdec Hext Hfps Hcache Hext2 g d.
  assert (Hhere : nth_error (extractions r2) (length (extractions r)) = Some f).
  { rewrite Hext2, Hext, <- app_assoc.
    rewrite nth_error_app2 by lia. now rewrite Nat.sub_diag. }
  intros [Hg | (Hg & n & Hn & Hnth & Hd)].
  - destruct Hcache as [Hc|Hc]; rewrite Hc in Hg; [now left|].
    destruct (decide (f = g)) as [<-|Hne].
    + rewrite lookup_insert_eq in Hg. injection Hg as <-.
      right. split; [exact Hf|]. exists (length (extractions r)).
      split; [lia|]. split; [exact Hhere | exact Hdec].
    + rewrite lookup_insert_ne in Hg by exact Hne. now left.
  - right. split.
    + destruct Hcache as [Hc|Hc]; rewrite Hc in Hg; [exact Hg|].
      destruct (decide (f = g)) as [<-|Hne].
      * now rewrite lookup_insert_eq in Hg.
      * now rewrite lookup_insert_ne in Hg by exact Hne.
    + exists n. rewrite Hext, length_app in Hn. cbn [length] in Hn.
      split; [lia|]. split; [exact Hnth|]. now rewrite <- Hfps.
Qed.

(** The loop of [search] gives every hit the text of its frame. *)
Lemma decodeLoop_texts video (found : list (@SearchResult number)) : forall r,
  usable r video ->
  exists texts r',
    decodeLoop found r [] = (Returned texts, r')
    /\ Forall2 (textOfHit r r' video) found texts
    /\ usable r' video /\ indexManager r' = indexManager r /\ fps r' = fps r
    /\ exists rest, extractions r' = extractions r ++ rest.
Proof.
  induction found as [|x found IH]; intros r Hr.
  - exists [], r. split; [reflexivity|]. split; [constructor|].
    split; [exact Hr|]. repeat split. exists []. now rewrite app_nil_r.
  - cbn [decodeLoop]. set (f := meta_frame (metadata_of x)).
    destruct (decodeSingleFrame_step f r video Hr)
      as (decoded & r1 & E1 & Hr1 & Him1 & Hfps1 & Hstep).
    rewrite E1, decodeLoop_acc.
    destruct (IH r1 Hr1) as (texts & r2 & E2 & Hall & Hr2 & Him2 & Hfps2 & rest & Hext2).
    rewrite E2. eexists _, r2. split; [reflexivity|].
    split; [|split; [exact Hr2|]; split; [congruence|]; split; [congruence|]].
    + cbn [app]. constructor.
      * exists decoded. split; [|reflexivity]. fold f.
        destruct Hstep as [(Hhit & ->) | (Hmiss & Hdec & Hext & _)]; [now left|].
        right. split; [exact Hmiss|]. exists (length (extractions r)).
        split; [lia|]. split; [|exact Hdec].
        rewrite Hext2, Hext, <- app_assoc.
        rewrite nth_error_app2 by lia. now rewrite Nat.sub_diag.
      * destruct Hstep as [(Hhit & ->) | (Hmiss & Hdec & Hext & Hcache)]; [exact Hall|].
        eapply Forall2_impl; [exact Hall|].
        intros hit text (d & Hd & ->). exists d. split; [|reflexivity].
        eapply (decodedFor_earlier f r r1 r2); eauto.
    + destruct Hstep as [(Hhit & ->) | (Hmiss & Hdec & Hext & Hcache)].
      * now exists rest.
      * exists ([f] ++ rest). now rewrite Hext2, Hext, <- app_assoc.
Qed.

(** A hit gets the sentinel of its frame when whatever is decoded for
    the frame fails. *)
Lemma textOfHit_sentinel kind r r' video (found : list (@SearchResult number)) :
  forall texts,
    Forall2 (textOfHit r r' video) found texts ->
    forall i hit,
      nth_error found i = Some hit ->
      (forall cached, _frameCache r !! meta_frame (metadata_of hit) = Some cached ->
                      failsAs kind cached = true) ->
      (forall n, failsAs kind (decodedAt n video (fps r) (meta_frame (metadata_of hit)))
                 = true) ->
      nth_error texts i = Some (Some (sentinel kind (meta_frame (metadata_of hit)))).
Proof.
  induction 1 as [|x text found texts Hx _ IH]; intros [|i] hit Hi Hcached Hfresh;
    try discriminate; cbn [nth_error] in *.
  - injection Hi as ->. destruct Hx as (d & Hd & ->).
    rewrite (textOfFrame_fails kind _ d); [reflexivity|].
    destruct Hd as [Hd | (_ & n & _ & _ & ->)]; [now apply Hcached | apply Hfresh].
  - now apply IH.
Qed.

(** [X19]. On a usable retriever [search] throws exactly when the search
    of the index does, with its error and leaving the retriever as it
    was. Otherwise it returns one text per hit of the index, in the order
    of the hits, and the text of a hit is that of its frame
    ([textOfFrame]): the chunk text parsed from what the cache held for
    the frame when the query started or, when it held nothing, from what
    an extraction of that frame made during the query decoded. A hit
    whose frame cannot be read or parsed gets the sentinel that names the
    frame, never an exception. With a steady frame reader the texts are
    a function of the hits and the initial cache alone. The retriever
    stays usable, with the same index, and its record of extractions is
    only extended. *)
Theorem search_returns_one_text_per_hit (query : jsstring) (k : nat)
    (r : MemvidRetriever) (w : World) (video : list byte) :
  usable r video ->
  match IndexManager.search query k (indexManager r) w with
  | (Thrown msg, w') => search query k r w = (Thrown msg, r, w')
  | (Returned found, w') =>
      exists texts r',
        search query k r w = (Returned texts, r', w')
        /\ Forall2 (textOfHit r r' video) found texts
        /\ (forall kind i hit,
              nth_error found i = Some hit ->
              (forall cached,
                 _frameCache r !! meta_frame (metadata_of hit) = Some cached ->
                 failsAs kind cached = true) ->
              (forall n, failsAs kind
                           (decodedAt n video (fps r) (meta_frame (metadata_of hit)))
                         = true) ->
              nth_error texts i
              = Some (Some (sentinel kind (meta_frame (metadata_of hit)))))
        /\ (steadyReader video (fps r) -> texts = map (steadyText r video) found)
        /\ (exists rest, extractions r' = extractions r ++ rest)
        /\ usable r' video /\ indexManager r' = indexManager r
  end.
Proof.
  intros Hr. pose proof Hr as (Hready & _).
  destruct (IndexManager.search query k (indexManager r) w) as [[found|msg] w'] eqn:Es.
  - destruct (decodeLoop_texts video found r Hr)
      as (texts & r' & E & Hall & Hr' & Him & _ & Hext).
    exists texts, r'. split.
    { unfold search. now rewrite Hready, Es, E. }
    split; [exact Hall|]. split.
    { intros kind. apply (textOfHit_sentinel kind r r' video found texts Hall). }
    split.
    { intros Hsteady.
      destruct (decodeLoop_steady video (fps r) (_frameCache r) found r Hsteady Hr eq_refl)
        as (r'' & E'); [reflexivity | |].
      { intros f v Hv. now rewrite Hv. }
      rewrite E in E'. now injection E' as -> _. }
    split; [exact Hext|]. split; [exact Hr' | exact Him].
  - unfold search. now rewrite Hready, Es.
Qed.

(** [X22]. When what the frame reader reads for a frame does not change
    from one extraction to the next, [search] and [searchWithMetadata]
    agree: for the same query on the same usable retriever, the texts of
    the results of [searchWithMetadata] are, in order, the texts that
    [search] returns. *)
Theorem search_and_searchWithMetadata_agree (query : jsstring) (k : nat)
    (r r1 : MemvidRetriever) (w w1 : World) (video : list byte)
    (texts : list (option jsstring)) :
  usable r video -> steadyReader video (fps r) ->
  search query k r w = (Returned texts, r1, w1) ->
  exists answers r2,
    searchWithMetadata query k r w = (Returned answers, r2, w1)
    /\ map result_text answers = texts.
Proof.
  intros Hr Hsteady. unfold search, searchWithMetadata.
  pose proof Hr as (Hready & _). rewrite Hready.
  destruct (IndexManager.search query k (indexManager r) w) as [[found|msg] w'];
    [|discriminate].
  destruct (decodeLoop_steady video (fps r) (_frameCache r) found r Hsteady Hr eq_refl)
    as (r' & E); [reflexivity | |].
  { intros f v Hv. now rewrite Hv. }
  rewrite E. intros [= <- <- <-]. cbv zeta. fold (frameNumbers found).
  set (frames := distinctFrames (frameNumbers found)).
  rewrite (decodeFramesParallel_spec frames r video Hr).
  eexists _, _. split; [reflexivity|].
  rewrite map_map. cbn [result_text]. apply map_ext_in. intros x Hx.
  set (f := meta_frame (metadata_of x)).
  set (entries := fetchedFrom _ _ _ _).
  rewrite (storeAll_results (_cacheSize r) (decodedAt 0 video (fps r)) entries);
    [|intros e He; subst entries; now apply (fetchedFrom_steady video (fps r)) in He].
  subst entries. rewrite fetchedFrom_fst.
  destruct (splitCached_spec (_frameCache r) frames) as [_ Hres0]. rewrite Hres0.
  destruct (distinctFrames_spec (frameNumbers found)) as [_ Hin]. fold frames in Hin.
  assert (Hf : In f frames).
  { apply Hin. unfold frameNumbers. apply in_map_iff. now exists x. }
  rewrite (bool_decide_eq_true_2 (f ∈ frames)) by now apply list_elem_of_In.
  destruct (_frameCache r !! f) as [v|] eqn:Ef.
  - rewrite bool_decide_eq_false_2; [reflexivity|].
    rewrite list_elem_of_In, In_uncached. rewrite Ef. intros [_ H]. discriminate.
  - rewrite bool_decide_eq_true_2; [reflexivity|].
    rewrite list_elem_of_In, In_uncached. now split.
Qed.

(** With room for all of them, the fetched frames end up in the cache. *)
Lemma storeAll_room capacity entries : forall results cache,
  size cache + length entries <= capacity ->
  (forall f, is_Some (cache !! f)
             -> is_Some (snd (fold_left (storeOne capacity) entries (results, cache)) !! f))
  /\ (forall e, In e entries
                -> is_Some (snd (fold_left (storeOne capacity) entries (results, cache))
                            !! fst e)).
Proof.
  induction entries as [|[x data] entries IH]; intros results cache Hroom; cbn [fold_left].
  - simpl. split; [auto | tauto].
  - assert (E : storeOne capacity (results, cache) (x, data)
                = (<[x := data]> results, <[x := data]> cache)).
    { unfold storeOne. cbn [fst snd].
      assert (Hlt : (size cache <? capacity) = true) by (apply Nat.ltb_lt; simpl in Hroom; lia).
      now rewrite Hlt. }
    rewrite E.
    destruct (IH (<[x := data]> results) (<[x := data]> cache)) as [Hkeep Hin].
    { rewrite map_size_insert. simpl in Hroom. destruct (cache !! x); simpl; lia. }
    split.
    + intros f Hf. apply Hkeep. destruct (decide (x = f)) as [->|Hne].
      * rewrite lookup_insert_eq. eauto.
      * now rewrite lookup_insert_ne.
    + intros e [<-|He]; [|now apply Hin].
      apply Hkeep. cbn [fst]. rewrite lookup_insert_eq. eauto.
Qed.

Lemma decodeLoop_all_cached video (found : list (@SearchResult number)) r :
  usable r video ->
  (forall x, In x found -> is_Some (_frameCache r !! meta_frame (metadata_of x))) ->
  exists texts, decodeLoop found r [] = (Returned texts, r).
Proof.
  intros Hr. induction found as [|x found IH]; intros Hall.
  - now exists [].
  - cbn [decodeLoop].
    destruct (Hall x ltac:(now left)) as [cached Hc].
    rewrite (decodeSingleFrame_hit _ r video cached Hr Hc), decodeLoop_acc.
    destruct IH as [texts ->]; [intros y Hy; apply Hall; now right|]. eauto.
Qed.

(** [X23]. On a usable retriever whose cache has room for the frames
    that are not in it yet, [prefetchFrames] extracts exactly those
    frames, in the order given, and afterwards every frame asked for is
    in the cache; a [search] whose hits all lie in prefetched frames then
    returns without extracting anything: it leaves the retriever exactly
    as it was. *)
Theorem prefetched_frames_are_served_from_the_cache (frameNumbers : list nat)
    (r : MemvidRetriever) (video : list byte) :
  usable r video ->
  size (_frameCache r) + length (uncached (_frameCache r) (map Some frameNumbers))
  <= _cacheSize r ->
  exists r1,
    prefetchFrames frameNumbers r = (Returned tt, r1)
    /\ usable r1 video /\ indexManager r1 = indexManager r
    /\ extractions r1 = extractions r ++ uncached (_frameCache r) (map Some frameNumbers)
    /\ (forall n, In n frameNumbers -> is_Some (_frameCache r1 !! Some n))
    /\ forall (query : jsstring) (k : nat) (w w' : World)
              (found : list (@SearchResult number)),
         IndexManager.search query k (indexManager r) w = (Returned found, w') ->
         (forall x, In x found ->
            exists n, meta_frame (metadata_of x) = Some n /\ In n frameNumbers) ->
         exists texts, search query k r1 w = (Returned texts, r1, w').
Proof.
  intros Hr Hroom.
  set (toPrefetch := uncached (_frameCache r) (map Some frameNumbers)) in *.
  assert (Hmain : exists r1,
             prefetchFrames frameNumbers r = (Returned tt, r1)
             /\ usable r1 video /\ indexManager r1 = indexManager r
             /\ extractions r1 = extractions r ++ toPrefetch
             /\ (forall n, In n frameNumbers -> is_Some (_frameCache r1 !! Some n))).
  { unfold prefetchFrames. pose proof Hr as (Hready & _). rewrite Hready. cbv zeta.
    fold (uncached (_frameCache r) (map Some frameNumbers)). fold toPrefetch.
    destruct toPrefetch as [|f0 rest] eqn:Etp.
    - exists r. rewrite app_nil_r. repeat split; auto; try apply Hr.
      intros n Hn. destruct (_frameCache r !! Some n) eqn:Ec; [eauto|].
      assert (Hin : In (Some n) toPrefetch).
      { subst toPrefetch. apply In_uncached. split; [now apply in_map | exact Ec]. }
      rewrite Etp in Hin. destruct Hin.
    - rewrite <- Etp.
      rewrite (decodeFramesParallel_spec toPrefetch r video Hr).
      assert (Hidem : uncached (_frameCache r) toPrefetch = toPrefetch).
      { subst toPrefetch. unfold uncached. apply filter_all, forallb_forall.
        intros f Hf. apply List.filter_In in Hf. tauto. }
      rewrite Hidem.
      set (entries := fetchedFrom (length (extractions r)) video (fps r) toPrefetch).
      destruct (storeAll_room (_cacheSize r) entries
                  (fst (splitCached (_frameCache r) toPrefetch)) (_frameCache r))
        as [Hkeep Hin].
      { subst entries.
        rewrite <- (length_map fst (fetchedFrom _ _ _ _)), fetchedFrom_fst.
        rewrite Etp. exact Hroom. }
      eexists. split; [reflexivity|].
      split; [now apply usable_withExtractions|].
      destruct (withExtractions_fields r toPrefetch) as (_ & Him & _ & _ & _ & _ & _ & _ & He).
      cbn [indexManager extractions _frameCache withCache].
      split; [exact Him|]. split; [exact He|].
      intros n Hn. destruct (_frameCache r !! Some n) eqn:Ec; [apply Hkeep; eauto|].
      assert (Hfetch : In (Some n) toPrefetch).
      { subst toPrefetch. apply In_uncached. split; [now apply in_map | exact Ec]. }
      assert (He' : exists e, In e entries /\ fst e = Some n).
      { rewrite <- (fetchedFrom_fst (length (extractions r)) video (fps r) toPrefetch)
          in Hfetch.
        apply in_map_iff in Hfetch as (e & He1 & He2). eauto. }
      destruct He' as (e & He1 & He2). rewrite <- He2. now apply Hin. }
  destruct Hmain as (r1 & E & Hr1 & Him & Hex & Hcached).
  exists r1. split; [exact E|]. split; [exact Hr1|]. split; [exact Him|].
  split; [exact Hex|]. split; [exact Hcached|].
  intros query k w w' found Hs Hall.
  unfold search. pose proof Hr1 as (Hready1 & _). rewrite Hready1, Him, Hs.
  destruct (decodeLoop_all_cached video found r1 Hr1) as [texts ->]; [|eauto].
  intros x Hx. destruct (Hall x Hx) as (n & -> & Hn). now apply Hcached.
Qed.

End RetrieverQueries.

Section RetrieverQueriesWitnesses.
Import Toy Fixtures2 Retriever.

Lemma toyRetriever_usable : usable toyRetriever [].
Proof. repeat split. vm_compute. discriminate. Qed.

Lemma frame_cache_stays_within_capacity_witness :
  let calls := [Search (js "1234567") 2; SearchWithMetadata (js "12345678") 3;
                GetChunkById 2; GetContextWindow 1 1; PrefetchFrames [9; 4; 9]] in
  let r' := fst (performAll calls toyRetriever savedWorld) in
  size (_frameCache r') <= _cacheSize r'
  /\ _cacheSize r' = _cacheSize toyRetriever
  /\ _frameCache toyRetriever ⊆ _frameCache r'
  /\ (size (_frameCache toyRetriever) = _cacheSize toyRetriever
      -> _frameCache r' = _frameCache toyRetriever).
Proof.
  intros calls.
  apply (frame_cache_stays_within_capacity calls toyRetriever savedWorld).
  vm_compute. lia.
Defined.

Lemma initialized_retriever_is_usable_witness :
  (exists video,
      usable (newRetriever (VideoBytes []) (js "idx") toyMemvidConfig savedWorld) video)
  /\ IndexManager.index
       (indexManager (newRetriever (VideoBytes []) (js "idx") toyMemvidConfig savedWorld))
     <> None
  /\ 1 <= totalFrames (newRetriever (VideoBytes []) (js "idx") toyMemvidConfig savedWorld)
  /\ _frameCache (newRetriever (VideoBytes []) (js "idx") toyMemvidConfig savedWorld) = ∅
  /\ _cacheSize (newRetriever (VideoBytes []) (js "idx") toyMemvidConfig savedWorld)
     = Config.cache_size (Config.retrieval toyMemvidConfig)
  /\ extractions (newRetriever (VideoBytes []) (js "idx") toyMemvidConfig savedWorld) = [].
Proof.
  apply (initialized_retriever_is_usable (VideoBytes []) (js "idx") toyMemvidConfig savedWorld).
  vm_compute. reflexivity.
Defined.

Lemma retriever_without_index_rejects_every_query_witness :
  let r := newRetriever (VideoBytes []) (js "idx") toyMemvidConfig nothingSaved in
  exists msg,
    readyPromise r = Thrown msg
    /\ forall (query : jsstring) (k : nat) (chunkId windowSize : Z)
              (frameNumbers : list nat) (w : World),
         search query k r w = (Thrown msg, r, w)
         /\ searchWithMetadata query k r w = (Thrown msg, r, w)
         /\ getChunkById chunkId r = (Thrown msg, r)
         /\ getContextWindow chunkId windowSize r = (Thrown msg, r)
         /\ prefetchFrames frameNumbers r = (Thrown msg, r).
Proof.
  apply (retriever_without_index_rejects_every_query (VideoBytes []) (js "idx")
           toyMemvidConfig nothingSaved).
  - discriminate.
  - left. reflexivity.
Defined.

Lemma search_returns_one_text_per_hit_witness :
  match IndexManager.search (js "12345678") 3 (indexManager toyRetriever) savedWorld with
  | (Thrown msg, w') =>
      search (js "12345678") 3 toyRetriever savedWorld = (Thrown msg, toyRetriever, w')
  | (Returned found, w') =>
      exists texts r',
        search (js "12345678") 3 toyRetriever savedWorld = (Returned texts, r', w')
        /\ Forall2 (textOfHit toyRetriever r' []) found texts
        /\ (forall kind i hit,
              nth_error found i = Some hit ->
              (forall cached,
                 _frameCache toyRetriever !! meta_frame (metadata_of hit) = Some cached ->
                 failsAs kind cached = true) ->
              (forall n, failsAs kind
                           (decodedAt n [] (fps toyRetriever)
                              (meta_frame (metadata_of hit)))
                         = true) ->
              nth_error texts i
              = Some (Some (sentinel kind (meta_frame (metadata_of hit)))))
        /\ (steadyReader [] (fps toyRetriever) ->
            texts = map (steadyText toyRetriever []) found)
        /\ (exists rest, extractions r' = extractions toyRetriever ++ rest)
        /\ usable r' [] /\ indexManager r' = indexManager toyRetriever
  end.
Proof.
  apply (search_returns_one_text_per_hit (js "12345678") 3 toyRetriever savedWorld []).
  exact toyRetriever_usable.
Defined.

(** The three chunks, nearest first: frame 8 does not parse, frame 7
    cannot be extracted, frame 9 holds a chunk. *)
Example search_gives_each_hit_the_text_of_its_frame :
  fst (fst (search (js "12345678") 3 toyRetriever savedWorld))
  = Returned [Some (js "[Frame 8 decode error]"); Some (js "[Frame 7 not readable]");
              Some (js "chunk")]
  /\ extractions (snd (fst (search (js "12345678") 3 toyRetriever savedWorld)))
     = [Some 8; Some 7; Some 9].
Proof. split; vm_compute; reflexivity. Qed.

Lemma getContextWindow_returns_at_most_the_window_witness :
  exists chunks r',
    getContextWindow 0 1 toyRetriever = (Returned chunks, r')
    /\ usable r' [] /\ indexManager r' = indexManager toyRetriever
    /\ length chunks <= Z.to_nat (2 * 1 + 1)
    /\ Forall (fun chunk => chunk <> []) chunks
    /\ ((forall k, (0 - 1 <= k <= 0 + 1)%Z ->
           metadataOf k (indexManager toyRetriever) = None) ->
        chunks = [] /\ r' = toyRetriever).
Proof.
  apply (getContextWindow_returns_at_most_the_window 0 1 toyRetriever []).
  exact toyRetriever_usable.
Defined.

Example getContextWindow_at_the_start_of_the_index :
  fst (getContextWindow 0 1 toyRetriever)
  = Returned [js "[Frame 7 not readable]"; js "[Frame 8 decode error]"].
Proof. vm_compute. reflexivity. Qed.

Lemma searchWithMetadata_extracts_each_frame_once_witness :
  exists found w' answers r',
    IndexManager.search (js "12345678") 3 (indexManager toyRetriever) savedWorld
    = (Returned found, w')
    /\ searchWithMetadata (js "12345678") 3 toyRetriever savedWorld
       = (Returned answers, r', w')
    /\ map result_chunk_id answers = map chunk_id found
    /\ map result_metadata answers = map metadata_of found
    /\ map result_frame answers = frameNumbers found
    /\ (forall a b, In a answers -> In b answers ->
          result_frame a = result_frame b -> result_text a = result_text b)
    /\ (forall f, timesExtracted f r' <= S (timesExtracted f toyRetriever))
    /\ (forall f, is_Some (_frameCache toyRetriever !! f) \/ ~ In f (frameNumbers found) ->
          timesExtracted f r' = timesExtracted f toyRetriever)
    /\ usable r' [].
Proof.
  destruct (IndexManager.search (js "12345678") 3 (indexManager toyRetriever) savedWorld)
    as [[found|msg] w'] eqn:E; [|vm_compute in E; discriminate].
  exists found, w'.
  destruct (searchWithMetadata_extracts_each_frame_once (js "12345678") 3 toyRetriever
              savedWorld w' [] found toyRetriever_usable E) as (answers & r' & H).
  exists answers, r'. split; [reflexivity | exact H].
Defined.

Lemma search_and_searchWithMetadata_agree_witness :
  exists texts r1 w1 answers r2,
    search (js "12345678") 3 toyRetriever savedWorld = (Returned texts, r1, w1)
    /\ searchWithMetadata (js "12345678") 3 toyRetriever savedWorld
       = (Returned answers, r2, w1)
    /\ map result_text answers = texts.
Proof.
  destruct (search (js "12345678") 3 toyRetriever savedWorld) as [[[texts|msg] r1] w1] eqn:E;
    [|vm_compute in E; discriminate].
  exists texts, r1, w1.
  destruct (search_and_searchWithMetadata_agree (js "12345678") 3 toyRetriever r1
              savedWorld w1 [] texts toyRetriever_usable) as (answers & r2 & H).
  - intros n f. reflexivity.
  - exact E.
  - exists answers, r2. split; [reflexivity | exact H].
Defined.

Lemma prefetched_frames_are_served_from_the_cache_witness :
  exists r1,
    prefetchFrames [9; 7; 9] toyRetriever = (Returned tt, r1)
    /\ usable r1 [] /\ indexManager r1 = indexManager toyRetriever
    /\ extractions r1
       = extractions toyRetriever
         ++ uncached (_frameCache toyRetriever) (map Some [9; 7; 9])
    /\ (forall n, In n [9; 7; 9] -> is_Some (_frameCache r1 !! Some n))
    /\ forall (query : jsstring) (k : nat) (w w' : World)
              (found : list (@SearchResult Z)),
         IndexManager.search query k (indexManager toyRetriever) w = (Returned found, w') ->
         (forall x, In x found ->
            exists n, meta_frame (metadata_of x) = Some n /\ In n [9; 7; 9]) ->
         exists texts, search query k r1 w = (Returned texts, r1, w').
Proof.
  apply (prefetched_frames_are_served_from_the_cache [9; 7; 9] toyRetriever []).
  - exact toyRetriever_usable.
  - vm_compute. lia.
Defined.

(** Without the removal of duplicates that [searchWithMetadata] applies,
    [prefetchFrames] extracts a frame once for each time it is listed. *)
Example prefetchFrames_extracts_listed_duplicates :
  extractions (snd (prefetchFrames [9; 7; 9] toyRetriever)) = [Some 9; Some 7; Some 9].
Proof. vm_compute. reflexivity. Qed.

End RetrieverQueriesWitnesses.
